(** * Bomberman simulation core: a shallow embedding of
      [src/types.ts], [src/constants.ts], [src/services/aiService.ts] and
      [src/services/gameEngine.ts], with the properties of its specification.

    Conventions of the embedding.
    - Grid indices, counters, scores and lives are JavaScript numbers that only
      ever hold integers: they are modelled in [Z].
    - Pixel positions, speeds, timers and clock readings are JavaScript
      doubles: they are modelled as exact rationals ([Q]), i.e. rounding
      error, NaN and infinities are left out.
    - Objects mutated in place become explicit state passing over the record
      [GameEngine]; arrays mutated by index ([splice], element assignment) are
      lists updated with stdpp's [<[i:=x]>] and [delete].
    - [Math.random()] and [performance.now()] are oracles: the n-th call
      returns [rand n], respectively [clock n]; the engine state counts the
      calls made so far.
    - Calls of the three callbacks handed to the constructor are recorded in
      an event log; audio and drawing have no effect on the simulation state
      and are left out. *)

From Stdlib Require Import ZArith QArith Qround Qabs Lia Lqa Bool String.
From stdpp Require Import base list.

Open Scope Z_scope.

(* ===================================================================== *)
(** ** [src/constants.ts] *)

Definition TILE_SIZE : Z := 48.
Definition GRID_ROWS : Z := 13.
Definition GRID_COLS : Z := 15.
Definition CANVAS_WIDTH : Z := GRID_COLS * TILE_SIZE.
Definition CANVAS_HEIGHT : Z := GRID_ROWS * TILE_SIZE.
Definition PLAYER_SPEED_BASE : Q := 5.
Definition BOMB_TIMER_MS : Q := 2000.
Definition EXPLOSION_DURATION_MS : Q := 600.
Definition INVULNERABILITY_MS : Q := 2500.

(* ===================================================================== *)
(** ** [src/types.ts] *)

Inductive Direction := UP | DOWN | LEFT | RIGHT | NONE.

Inductive TileType := EMPTY | WALL_HARD | WALL_SOFT.

Inductive PowerUpType := BOMB_UP | FIRE_UP | SPEED_UP | SUPER_BOMB | TIME_BONUS.

Record GridPoint := mkGridPoint { col : Z; row : Z }.

Record GameStats := mkGameStats {
  gs_score : Z; gs_lives : Z; gs_level : Z; gs_timeLeft : Z }.

(** [PathNode]: the [parent] link points to a node that has already left the
    open set; such a node is never written again, so the link is modelled by
    the parent's value. *)
#[warnings="-register-all"]
Inductive PathNode := mkPathNode {
  node_x : Z; node_y : Z; node_g : Z; node_h : Z; node_f : Z;
  node_parent : option PathNode }.

(** The grid is [number[][]], indexed [grid[row][col]]. Every access in the
    source is guarded by a bounds check against [GRID_ROWS] and [GRID_COLS],
    and [initLevel] always stores 13 rows of 15 tiles. [tileAt] returns
    [None] outside the stored rows and columns: for a missing column this is
    JavaScript's [undefined], which is neither [EMPTY] nor a wall; a missing
    row, on which JavaScript raises a [TypeError], is treated the same way. *)
Abbreviation Grid := (list (list TileType)).

Definition tileAt (grid : Grid) (r c : Z) : option TileType :=
  if (r <? 0) || (c <? 0) then None
  else match grid !! Z.to_nat r with
       | Some line => line !! Z.to_nat c
       | None => None
       end.

(** [tile !== TileType.EMPTY] *)
Definition notEmpty (t : option TileType) : bool :=
  match t with Some EMPTY => false | _ => true end.

(** JavaScript's [Array.prototype.findIndex] and [some]. *)
Fixpoint findIndex {A} (p : A -> bool) (l : list A) : option nat :=
  match l with
  | [] => None
  | a :: l' => if p a then Some 0%nat else option_map S (findIndex p l')
  end.

Definition some {A} (p : A -> bool) (l : list A) : bool := existsb p l.

(* ===================================================================== *)
(** ** [src/services/aiService.ts] *)

Module AI.

(** [heuristic]: Manhattan distance. *)
Definition heuristic (a b : GridPoint) : Z :=
  Z.abs (col a - col b) + Z.abs (row a - row b).

(** [isWalkable] *)
Definition isWalkable (c r : Z) (grid : Grid) (bombs : list GridPoint)
    (ignoreBombs : bool) : bool :=
  if (c <? 0) || (GRID_COLS <=? c) || (r <? 0) || (GRID_ROWS <=? r) then false
  else if notEmpty (tileAt grid r c) then false
  else if negb ignoreBombs && some (fun b => (col b =? c) && (row b =? r)) bombs
       then false
  else true.

Definition MAX_ITERATIONS : nat := 500.

(** The scan for the node with the lowest [f]: a later node replaces the
    current choice only when its [f] is strictly smaller. *)
Fixpoint lowestFrom (l : list PathNode) (i best : nat) (bestF : Z) : nat :=
  match l with
  | [] => best
  | n :: l' =>
      if node_f n <? bestF then lowestFrom l' (S i) i (node_f n)
      else lowestFrom l' (S i) best bestF
  end.

Definition lowestIndex (openSet : list PathNode) : nat :=
  match openSet with
  | [] => 0%nat
  | n0 :: rest => lowestFrom rest 1 0 (node_f n0)
  end.

(** Walking the [parent] links from the reached node: the list built by the
    [while (temp)] loop, before [reverse]. *)
Fixpoint backLinks (n : PathNode) : list GridPoint :=
  mkGridPoint (node_x n) (node_y n) ::
  match node_parent n with
  | None => []
  | Some p => backLinks p
  end.

Definition neighbors (current : PathNode) : list (Z * Z) :=
  [ (node_x current + 1, node_y current);
    (node_x current - 1, node_y current);
    (node_x current, node_y current + 1);
    (node_x current, node_y current - 1) ].

Definition inClosed (closedSet : list (Z * Z)) (nx ny : Z) : bool :=
  some (fun k => (fst k =? nx) && (snd k =? ny)) closedSet.

(** The body of [for (const neighbor of neighbors)]. *)
Definition visit (walk : Z -> Z -> bool) (target : GridPoint)
    (closedSet : list (Z * Z)) (current : PathNode)
    (openSet : list PathNode) (nb : Z * Z) : list PathNode :=
  let '(nx, ny) := nb in
  if inClosed closedSet nx ny then openSet
  else if negb (walk nx ny) then openSet
  else
    let gScore := node_g current + 1 in
    match findIndex (fun n => (node_x n =? nx) && (node_y n =? ny)) openSet with
    | None =>
        let h := heuristic (mkGridPoint nx ny) target in
        openSet ++ [mkPathNode nx ny gScore h (gScore + h) (Some current)]
    | Some i =>
        match openSet !! i with
        | Some existing =>
            if gScore <? node_g existing then
              <[i := mkPathNode (node_x existing) (node_y existing) gScore
                       (node_h existing) (gScore + node_h existing)
                       (Some current)]> openSet
            else openSet
        | None => openSet
        end
    end.

(** The [while (openSet.length > 0)] loop; [fuel] is the number of
    iterations still allowed by [MAX_ITERATIONS]. *)
Fixpoint search (walk : Z -> Z -> bool) (target : GridPoint) (fuel : nat)
    (openSet : list PathNode) (closedSet : list (Z * Z))
    : option (list GridPoint) :=
  match openSet with
  | [] => None
  | _ =>
    match fuel with
    | O => None
    | S fuel' =>
      let i := lowestIndex openSet in
      match openSet !! i with
      | None => None
      | Some current =>
        if (node_x current =? col target) && (node_y current =? row target)
        then Some (rev (backLinks current))
        else
          let openSet1 := delete i openSet in
          let closedSet1 := (node_x current, node_y current) :: closedSet in
          search walk target fuel'
            (fold_left (visit walk target closedSet1 current)
                       (neighbors current) openSet1)
            closedSet1
      end
    end
  end.

Definition startNode (start target : GridPoint) : PathNode :=
  mkPathNode (col start) (row start) 0 (heuristic start target)
             (heuristic start target) None.

(** [findPath]; [None] is the source's [null]. *)
Definition findPath (start target : GridPoint) (grid : Grid)
    (bombs : list GridPoint) : option (list GridPoint) :=
  search (fun c r => isWalkable c r grid bombs false) target MAX_ITERATIONS
         [startNode start target] [].

End AI.


(* ===================================================================== *)
(** ** [src/services/gameEngine.ts]: engine objects *)

Inductive EnemyType := WALKER | CHASER.

Record Bomb := mkBomb {
  b_id : Q; b_col : Z; b_row : Z; b_timer : Q; b_range : Z;
  b_ownerId : string }.

Definition set_b_timer (v : Q) (b : Bomb) : Bomb :=
  mkBomb (b_id b) (b_col b) (b_row b) v (b_range b) (b_ownerId b).

Record Cell := mkCell {
  c_col : Z; c_row : Z; c_isEnd : bool; c_direction : Direction }.

Record Explosion := mkExplosion {
  ex_id : Q; ex_center : GridPoint; ex_cells : list Cell; ex_timer : Q }.

Definition set_ex_timer (v : Q) (e : Explosion) : Explosion :=
  mkExplosion (ex_id e) (ex_center e) (ex_cells e) v.

Record PowerUp := mkPowerUp {
  pu_id : Q; pu_col : Z; pu_row : Z; pu_type : PowerUpType;
  pu_bobOffset : Q }.

Record Input := mkInput {
  in_up : bool; in_down : bool; in_left : bool; in_right : bool;
  in_bomb : bool; in_bombPressed : bool }.

(** Calls of the constructor's callbacks [onStatsUpdate], [onGameOver] and
    [onLevelComplete], in the order they are made. *)
Inductive Event :=
  | StatsUpdate (stats : GameStats)
  | GameOver (victory : bool)
  | LevelComplete.

Record Player := mkPlayer {
  pl_x : Q;
  pl_y : Q;
  pl_gridX : Z;
  pl_gridY : Z;
  pl_direction : Direction;
  pl_isMoving : bool;
  pl_bombsCount : Z;
  pl_maxBombs : Z;
  pl_bombRange : Z;
  pl_speed : Q;
  pl_invulnerableUntil : Q;
  pl_isDead : bool;
  pl_animFrame : Q }.

Definition set_pl_x (v : Q) (r : Player) : Player :=
  mkPlayer
    v (pl_y r) (pl_gridX r) (pl_gridY r) (pl_direction r) (pl_isMoving r)
    (pl_bombsCount r) (pl_maxBombs r) (pl_bombRange r) (pl_speed r)
    (pl_invulnerableUntil r) (pl_isDead r) (pl_animFrame r).

Definition set_pl_y (v : Q) (r : Player) : Player :=
  mkPlayer
    (pl_x r) v (pl_gridX r) (pl_gridY r) (pl_direction r) (pl_isMoving r)
    (pl_bombsCount r) (pl_maxBombs r) (pl_bombRange r) (pl_speed r)
    (pl_invulnerableUntil r) (pl_isDead r) (pl_animFrame r).

Definition set_pl_gridX (v : Z) (r : Player) : Player :=
  mkPlayer
    (pl_x r) (pl_y r) v (pl_gridY r) (pl_direction r) (pl_isMoving r)
    (pl_bombsCount r) (pl_maxBombs r) (pl_bombRange r) (pl_speed r)
    (pl_invulnerableUntil r) (pl_isDead r) (pl_animFrame r).

Definition set_pl_gridY (v : Z) (r : Player) : Player :=
  mkPlayer
    (pl_x r) (pl_y r) (pl_gridX r) v (pl_direction r) (pl_isMoving r)
    (pl_bombsCount r) (pl_maxBombs r) (pl_bombRange r) (pl_speed r)
    (pl_invulnerableUntil r) (pl_isDead r) (pl_animFrame r).

Definition set_pl_direction (v : Direction) (r : Player) : Player :=
  mkPlayer
    (pl_x r) (pl_y r) (pl_gridX r) (pl_gridY r) v (pl_isMoving r)
    (pl_bombsCount r) (pl_maxBombs r) (pl_bombRange r) (pl_speed r)
    (pl_invulnerableUntil r) (pl_isDead r) (pl_animFrame r).

Definition set_pl_isMoving (v : bool) (r : Player) : Player :=
  mkPlayer
    (pl_x r) (pl_y r) (pl_gridX r) (pl_gridY r) (pl_direction r) v
    (pl_bombsCount r) (pl_maxBombs r) (pl_bombRange r) (pl_speed r)
    (pl_invulnerableUntil r) (pl_isDead r) (pl_animFrame r).

Definition set_pl_bombsCount (v : Z) (r : Player) : Player :=
  mkPlayer
    (pl_x r) (pl_y r) (pl_gridX r) (pl_gridY r) (pl_direction r)
    (pl_isMoving r) v (pl_maxBombs r) (pl_bombRange r) (pl_speed r)
    (pl_invulnerableUntil r) (pl_isDead r) (pl_animFrame r).

Definition set_pl_maxBombs (v : Z) (r : Player) : Player :=
  mkPlayer
    (pl_x r) (pl_y r) (pl_gridX r) (pl_gridY r) (pl_direction r)
    (pl_isMoving r) (pl_bombsCount r) v (pl_bombRange r) (pl_speed r)
    (pl_invulnerableUntil r) (pl_isDead r) (pl_animFrame r).

Definition set_pl_bombRange (v : Z) (r : Player) : Player :=
  mkPlayer
    (pl_x r) (pl_y r) (pl_gridX r) (pl_gridY r) (pl_direction r)
    (pl_isMoving r) (pl_bombsCount r) (pl_maxBombs r) v (pl_speed r)
    (pl_invulnerableUntil r) (pl_isDead r) (pl_animFrame r).

Definition set_pl_speed (v : Q) (r : Player) : Player :=
  mkPlayer
    (pl_x r) (pl_y r) (pl_gridX r) (pl_gridY r) (pl_direction r)
    (pl_isMoving r) (pl_bombsCount r) (pl_maxBombs r) (pl_bombRange r) v
    (pl_invulnerableUntil r) (pl_isDead r) (pl_animFrame r).

Definition set_pl_invulnerableUntil (v : Q) (r : Player) : Player :=
  mkPlayer
    (pl_x r) (pl_y r) (pl_gridX r) (pl_gridY r) (pl_direction r)
    (pl_isMoving r) (pl_bombsCount r) (pl_maxBombs r) (pl_bombRange r)
    (pl_speed r) v (pl_isDead r) (pl_animFrame r).

Definition set_pl_isDead (v : bool) (r : Player) : Player :=
  mkPlayer
    (pl_x r) (pl_y r) (pl_gridX r) (pl_gridY r) (pl_direction r)
    (pl_isMoving r) (pl_bombsCount r) (pl_maxBombs r) (pl_bombRange r)
    (pl_speed r) (pl_invulnerableUntil r) v (pl_animFrame r).

Definition set_pl_animFrame (v : Q) (r : Player) : Player :=
  mkPlayer
    (pl_x r) (pl_y r) (pl_gridX r) (pl_gridY r) (pl_direction r)
    (pl_isMoving r) (pl_bombsCount r) (pl_maxBombs r) (pl_bombRange r)
    (pl_speed r) (pl_invulnerableUntil r) (pl_isDead r) v.

Record Enemy := mkEnemy {
  en_id : Q;
  en_x : Q;
  en_y : Q;
  en_type : EnemyType;
  en_isBoss : bool;
  en_hp : Z;
  en_maxHp : Z;
  en_lastHitTime : Q;
  en_direction : Direction;
  en_targetCol : option Z;
  en_targetRow : option Z;
  en_path : list GridPoint;
  en_recalcPathTimer : Q;
  en_isDead : bool;
  en_speed : Q;
  en_animOffset : Q }.

Definition set_en_x (v : Q) (r : Enemy) : Enemy :=
  mkEnemy
    (en_id r) v (en_y r) (en_type r) (en_isBoss r) (en_hp r) (en_maxHp r)
    (en_lastHitTime r) (en_direction r) (en_targetCol r) (en_targetRow r)
    (en_path r) (en_recalcPathTimer r) (en_isDead r) (en_speed r)
    (en_animOffset r).

Definition set_en_y (v : Q) (r : Enemy) : Enemy :=
  mkEnemy
    (en_id r) (en_x r) v (en_type r) (en_isBoss r) (en_hp r) (en_maxHp r)
    (en_lastHitTime r) (en_direction r) (en_targetCol r) (en_targetRow r)
    (en_path r) (en_recalcPathTimer r) (en_isDead r) (en_speed r)
    (en_animOffset r).

Definition set_en_hp (v : Z) (r : Enemy) : Enemy :=
  mkEnemy
    (en_id r) (en_x r) (en_y r) (en_type r) (en_isBoss r) v (en_maxHp r)
    (en_lastHitTime r) (en_direction r) (en_targetCol r) (en_targetRow r)
    (en_path r) (en_recalcPathTimer r) (en_isDead r) (en_speed r)
    (en_animOffset r).

Definition set_en_lastHitTime (v : Q) (r : Enemy) : Enemy :=
  mkEnemy
    (en_id r) (en_x r) (en_y r) (en_type r) (en_isBoss r) (en_hp r)
    (en_maxHp r) v (en_direction r) (en_targetCol r) (en_targetRow r)
    (en_path r) (en_recalcPathTimer r) (en_isDead r) (en_speed r)
    (en_animOffset r).

Definition set_en_path (v : list GridPoint) (r : Enemy) : Enemy :=
  mkEnemy
    (en_id r) (en_x r) (en_y r) (en_type r) (en_isBoss r) (en_hp r)
    (en_maxHp r) (en_lastHitTime r) (en_direction r) (en_targetCol r)
    (en_targetRow r) v (en_recalcPathTimer r) (en_isDead r) (en_speed r)
    (en_animOffset r).

Definition set_en_recalcPathTimer (v : Q) (r : Enemy) : Enemy :=
  mkEnemy
    (en_id r) (en_x r) (en_y r) (en_type r) (en_isBoss r) (en_hp r)
    (en_maxHp r) (en_lastHitTime r) (en_direction r) (en_targetCol r)
    (en_targetRow r) (en_path r) v (en_isDead r) (en_speed r)
    (en_animOffset r).

Definition set_en_isDead (v : bool) (r : Enemy) : Enemy :=
  mkEnemy
    (en_id r) (en_x r) (en_y r) (en_type r) (en_isBoss r) (en_hp r)
    (en_maxHp r) (en_lastHitTime r) (en_direction r) (en_targetCol r)
    (en_targetRow r) (en_path r) (en_recalcPathTimer r) v (en_speed r)
    (en_animOffset r).

Record GameEngine := mkGameEngine {
  grid : Grid;
  player : Player;
  bombs : list Bomb;
  explosions : list Explosion;
  powerUps : list PowerUp;
  enemies : list Enemy;
  level : Z;
  score : Z;
  lives : Z;
  gameTime : Z;
  isPaused : bool;
  isGameOver : bool;
  isVictory : bool;
  isLevelTransitioning : bool;
  isLevelComplete : bool;
  input : Input;
  lastTime : Q;
  animationId : bool;
  events : list Event;
  pendingRespawns : nat;
  randCalls : nat;
  clockCalls : nat }.

Definition set_grid (v : Grid) (r : GameEngine) : GameEngine :=
  mkGameEngine
    v (player r) (bombs r) (explosions r) (powerUps r) (enemies r) (level r)
    (score r) (lives r) (gameTime r) (isPaused r) (isGameOver r)
    (isVictory r) (isLevelTransitioning r) (isLevelComplete r) (input r)
    (lastTime r) (animationId r) (events r) (pendingRespawns r)
    (randCalls r) (clockCalls r).

Definition set_player (v : Player) (r : GameEngine) : GameEngine :=
  mkGameEngine
    (grid r) v (bombs r) (explosions r) (powerUps r) (enemies r) (level r)
    (score r) (lives r) (gameTime r) (isPaused r) (isGameOver r)
    (isVictory r) (isLevelTransitioning r) (isLevelComplete r) (input r)
    (lastTime r) (animationId r) (events r) (pendingRespawns r)
    (randCalls r) (clockCalls r).

Definition set_bombs (v : list Bomb) (r : GameEngine) : GameEngine :=
  mkGameEngine
    (grid r) (player r) v (explosions r) (powerUps r) (enemies r) (level r)
    (score r) (lives r) (gameTime r) (isPaused r) (isGameOver r)
    (isVictory r) (isLevelTransitioning r) (isLevelComplete r) (input r)
    (lastTime r) (animationId r) (events r) (pendingRespawns r)
    (randCalls r) (clockCalls r).

Definition set_explosions (v : list Explosion) (r : GameEngine) : GameEngine :=
  mkGameEngine
    (grid r) (player r) (bombs r) v (powerUps r) (enemies r) (level r)
    (score r) (lives r) (gameTime r) (isPaused r) (isGameOver r)
    (isVictory r) (isLevelTransitioning r) (isLevelComplete r) (input r)
    (lastTime r) (animationId r) (events r) (pendingRespawns r)
    (randCalls r) (clockCalls r).

Definition set_powerUps (v : list PowerUp) (r : GameEngine) : GameEngine :=
  mkGameEngine
    (grid r) (player r) (bombs r) (explosions r) v (enemies r) (level r)
    (score r) (lives r) (gameTime r) (isPaused r) (isGameOver r)
    (isVictory r) (isLevelTransitioning r) (isLevelComplete r) (input r)
    (lastTime r) (animationId r) (events r) (pendingRespawns r)
    (randCalls r) (clockCalls r).

Definition set_enemies (v : list Enemy) (r : GameEngine) : GameEngine :=
  mkGameEngine
    (grid r) (player r) (bombs r) (explosions r) (powerUps r) v (level r)
    (score r) (lives r) (gameTime r) (isPaused r) (isGameOver r)
    (isVictory r) (isLevelTransitioning r) (isLevelComplete r) (input r)
    (lastTime r) (animationId r) (events r) (pendingRespawns r)
    (randCalls r) (clockCalls r).

Definition set_score (v : Z) (r : GameEngine) : GameEngine :=
  mkGameEngine
    (grid r) (player r) (bombs r) (explosions r) (powerUps r) (enemies r)
    (level r) v (lives r) (gameTime r) (isPaused r) (isGameOver r)
    (isVictory r) (isLevelTransitioning r) (isLevelComplete r) (input r)
    (lastTime r) (animationId r) (events r) (pendingRespawns r)
    (randCalls r) (clockCalls r).

Definition set_lives (v : Z) (r : GameEngine) : GameEngine :=
  mkGameEngine
    (grid r) (player r) (bombs r) (explosions r) (powerUps r) (enemies r)
    (level r) (score r) v (gameTime r) (isPaused r) (isGameOver r)
    (isVictory r) (isLevelTransitioning r) (isLevelComplete r) (input r)
    (lastTime r) (animationId r) (events r) (pendingRespawns r)
    (randCalls r) (clockCalls r).

Definition set_gameTime (v : Z) (r : GameEngine) : GameEngine :=
  mkGameEngine
    (grid r) (player r) (bombs r) (explosions r) (powerUps r) (enemies r)
    (level r) (score r) (lives r) v (isPaused r) (isGameOver r)
    (isVictory r) (isLevelTransitioning r) (isLevelComplete r) (input r)
    (lastTime r) (animationId r) (events r) (pendingRespawns r)
    (randCalls r) (clockCalls r).

Definition set_isPaused (v : bool) (r : GameEngine) : GameEngine :=
  mkGameEngine
    (grid r) (player r) (bombs r) (explosions r) (powerUps r) (enemies r)
    (level r) (score r) (lives r) (gameTime r) v (isGameOver r)
    (isVictory r) (isLevelTransitioning r) (isLevelComplete r) (input r)
    (lastTime r) (animationId r) (events r) (pendingRespawns r)
    (randCalls r) (clockCalls r).

Definition set_isGameOver (v : bool) (r : GameEngine) : GameEngine :=
  mkGameEngine
    (grid r) (player r) (bombs r) (explosions r) (powerUps r) (enemies r)
    (level r) (score r) (lives r) (gameTime r) (isPaused r) v (isVictory r)
    (isLevelTransitioning r) (isLevelComplete r) (input r) (lastTime r)
    (animationId r) (events r) (pendingRespawns r) (randCalls r)
    (clockCalls r).

Definition set_isLevelComplete (v : bool) (r : GameEngine) : GameEngine :=
  mkGameEngine
    (grid r) (player r) (bombs r) (explosions r) (powerUps r) (enemies r)
    (level r) (score r) (lives r) (gameTime r) (isPaused r) (isGameOver r)
    (isVictory r) (isLevelTransitioning r) v (input r) (lastTime r)
    (animationId r) (events r) (pendingRespawns r) (randCalls r)
    (clockCalls r).

Definition set_input (v : Input) (r : GameEngine) : GameEngine :=
  mkGameEngine
    (grid r) (player r) (bombs r) (explosions r) (powerUps r) (enemies r)
    (level r) (score r) (lives r) (gameTime r) (isPaused r) (isGameOver r)
    (isVictory r) (isLevelTransitioning r) (isLevelComplete r) v
    (lastTime r) (animationId r) (events r) (pendingRespawns r)
    (randCalls r) (clockCalls r).

Definition set_lastTime (v : Q) (r : GameEngine) : GameEngine :=
  mkGameEngine
    (grid r) (player r) (bombs r) (explosions r) (powerUps r) (enemies r)
    (level r) (score r) (lives r) (gameTime r) (isPaused r) (isGameOver r)
    (isVictory r) (isLevelTransitioning r) (isLevelComplete r) (input r) v
    (animationId r) (events r) (pendingRespawns r) (randCalls r)
    (clockCalls r).

Definition set_animationId (v : bool) (r : GameEngine) : GameEngine :=
  mkGameEngine
    (grid r) (player r) (bombs r) (explosions r) (powerUps r) (enemies r)
    (level r) (score r) (lives r) (gameTime r) (isPaused r) (isGameOver r)
    (isVictory r) (isLevelTransitioning r) (isLevelComplete r) (input r)
    (lastTime r) v (events r) (pendingRespawns r) (randCalls r)
    (clockCalls r).

Definition set_events (v : list Event) (r : GameEngine) : GameEngine :=
  mkGameEngine
    (grid r) (player r) (bombs r) (explosions r) (powerUps r) (enemies r)
    (level r) (score r) (lives r) (gameTime r) (isPaused r) (isGameOver r)
    (isVictory r) (isLevelTransitioning r) (isLevelComplete r) (input r)
    (lastTime r) (animationId r) v (pendingRespawns r) (randCalls r)
    (clockCalls r).

Definition set_pendingRespawns (v : nat) (r : GameEngine) : GameEngine :=
  mkGameEngine
    (grid r) (player r) (bombs r) (explosions r) (powerUps r) (enemies r)
    (level r) (score r) (lives r) (gameTime r) (isPaused r) (isGameOver r)
    (isVictory r) (isLevelTransitioning r) (isLevelComplete r) (input r)
    (lastTime r) (animationId r) (events r) v (randCalls r) (clockCalls r).

Definition set_randCalls (v : nat) (r : GameEngine) : GameEngine :=
  mkGameEngine
    (grid r) (player r) (bombs r) (explosions r) (powerUps r) (enemies r)
    (level r) (score r) (lives r) (gameTime r) (isPaused r) (isGameOver r)
    (isVictory r) (isLevelTransitioning r) (isLevelComplete r) (input r)
    (lastTime r) (animationId r) (events r) (pendingRespawns r) v
    (clockCalls r).

Definition set_clockCalls (v : nat) (r : GameEngine) : GameEngine :=
  mkGameEngine
    (grid r) (player r) (bombs r) (explosions r) (powerUps r) (enemies r)
    (level r) (score r) (lives r) (gameTime r) (isPaused r) (isGameOver r)
    (isVictory r) (isLevelTransitioning r) (isLevelComplete r) (input r)
    (lastTime r) (animationId r) (events r) (pendingRespawns r)
    (randCalls r) v.


(* ===================================================================== *)
(** ** Numbers *)

Definition Qltb (a b : Q) : bool := negb (Qle_bool b a).
Definition Qleb (a b : Q) : bool := Qle_bool a b.
Definition Qneqb (a b : Q) : bool := negb (Qeq_bool a b).
Definition Qmaxb (a b : Q) : Q := if Qle_bool a b then b else a.
Definition Qminb (a b : Q) : Q := if Qle_bool a b then a else b.

(** [Math.floor(v / TILE_SIZE)] and [Math.round(v)]. *)
Definition tileOf (v : Q) : Z := Qfloor (v / inject_Z TILE_SIZE).
Definition round (v : Q) : Z := Qfloor (v + (1 # 2)).
Definition px (cells : Z) : Q := inject_Z (cells * TILE_SIZE).

Definition lookupZ {A} (l : list A) (i : Z) : option A :=
  if i <? 0 then None else l !! Z.to_nat i.

(** [for (let i = n - 1; i >= 0; i--) body(i)] *)
Fixpoint downFrom {S} (n : nat) (body : nat -> S -> S) (st : S) : S :=
  match n with
  | O => st
  | S i => downFrom i body (body i st)
  end.

Definition bombAt (c r : Z) (b : Bomb) : bool := (b_col b =? c) && (b_row b =? r).

(* ===================================================================== *)
(** ** [class GameEngine] *)

Section Engine.

(** The n-th call of [Math.random()] and of [performance.now()]. *)
Variable rand : nat -> Q.
Variable clock : nat -> Q.

Definition random (st : GameEngine) : Q * GameEngine :=
  (rand (randCalls st), set_randCalls (S (randCalls st)) st).

Definition performanceNow (st : GameEngine) : Q * GameEngine :=
  (clock (clockCalls st), set_clockCalls (S (clockCalls st)) st).

Definition emit (e : Event) (st : GameEngine) : GameEngine :=
  set_events (events st ++ [e]) st.

Definition getStats (st : GameEngine) : GameStats :=
  mkGameStats (score st) (lives st) (level st) (gameTime st).

(** [createPlayer] *)
Definition createPlayer : Player :=
  mkPlayer (inject_Z TILE_SIZE) (inject_Z TILE_SIZE) 1 1 DOWN false 0 1 2
           PLAYER_SPEED_BASE 0 false 0.

(** *** Movement and collision *)

(** [isPointBlocked] *)
Definition isPointBlocked (st : GameEngine) (x y : Q) : bool :=
  let c := tileOf x in
  let r := tileOf y in
  if (r <? 0) || (GRID_ROWS <=? r) || (c <? 0) || (GRID_COLS <=? c) then true
  else if notEmpty (tileAt (grid st) r c) then true
  else some (bombAt c r) (bombs st).

(** The rectangle test of [checkCollision] between the player's hitbox and a
    bomb's tile; [plx], [ply] are [this.player.x] and [this.player.y] at the
    time of the call. *)
Definition overlaps (plx ply : Q) (bomb : Bomb) : bool :=
  let padding := 8%Q in
  let rx := (plx + padding)%Q in
  let ry := (ply + padding)%Q in
  let rw := (inject_Z TILE_SIZE - padding * 2)%Q in
  let bx := px (b_col bomb) in
  let by_ := px (b_row bomb) in
  let bw := inject_Z TILE_SIZE in
  Qltb rx (bx + bw) && Qltb bx (rx + rw) &&
  Qltb ry (by_ + bw) && Qltb by_ (ry + rw).

(** [checkCollision]: the two nested loops return [true] at the first
    blocking corner, so the result is an [existsb] over the corners. *)
Definition checkCollision (st : GameEngine) (plx ply : Q)
    (x y w h : Q) (isPlayer : bool) : bool :=
  let corners :=
    [ (tileOf x, tileOf y); (tileOf (x + w), tileOf y);
      (tileOf x, tileOf (y + h)); (tileOf (x + w), tileOf (y + h)) ] in
  some (fun p : Z * Z =>
      let '(c, r) := p in
      if (r <? 0) || (GRID_ROWS <=? r) || (c <? 0) || (GRID_COLS <=? c)
      then true
      else if notEmpty (tileAt (grid st) r c) then true
      else some (fun bomb =>
               bombAt c r bomb && negb (isPlayer && overlaps plx ply bomb))
             (bombs st))
    corners.

(** [moveEntity], returning the entity's new position. When the entity is
    the player, [this.player] inside [checkCollision] is the entity itself,
    with the coordinates written so far. *)
Definition moveEntity (st : GameEngine) (isPlayer : bool)
    (x y dx dy speed : Q) : Q * Q :=
  let padding := 8%Q in
  let size := (inject_Z TILE_SIZE - padding * 2)%Q in
  let self (ex ey : Q) : Q * Q :=
    if isPlayer then (ex, ey) else (pl_x (player st), pl_y (player st)) in
  let nextX := (x + dx * speed)%Q in
  let nextY := (y + dy * speed)%Q in
  (* Horizontal Movement *)
  let '(x1, y1) :=
    if negb (checkCollision st (fst (self x y)) (snd (self x y))
               (nextX + padding) (y + padding) size size isPlayer)
    then (nextX, y)
    else if isPlayer && Qneqb dx 0 then
      let leadingEdgeX :=
        if Qltb 0 dx then (nextX + padding + size)%Q else (nextX + padding)%Q in
      let topBlocked := isPointBlocked st leadingEdgeX (y + padding) in
      let bottomBlocked := isPointBlocked st leadingEdgeX (y + padding + size) in
      if topBlocked && negb bottomBlocked then (x, (y + speed)%Q)
      else if negb topBlocked && bottomBlocked then (x, (y - speed)%Q)
      else (x, y)
    else (x, y) in
  (* Vertical Movement *)
  let '(x2, y2) :=
    if negb (checkCollision st (fst (self x1 y1)) (snd (self x1 y1))
               (x1 + padding) (nextY + padding) size size isPlayer)
    then (x1, nextY)
    else if isPlayer && Qneqb dy 0 then
      let leadingEdgeY :=
        if Qltb 0 dy then (nextY + padding + size)%Q else (nextY + padding)%Q in
      let leftBlocked := isPointBlocked st (x1 + padding) leadingEdgeY in
      let rightBlocked := isPointBlocked st (x1 + padding + size) leadingEdgeY in
      if leftBlocked && negb rightBlocked then ((x1 + speed)%Q, y1)
      else if negb leftBlocked && rightBlocked then ((x1 - speed)%Q, y1)
      else (x1, y1)
    else (x1, y1) in
  (* Bounds Check *)
  (Qmaxb 0 (Qminb x2 (inject_Z (CANVAS_WIDTH - TILE_SIZE))),
   Qmaxb 0 (Qminb y2 (inject_Z (CANVAS_HEIGHT - TILE_SIZE)))).

(** *** Player death *)

(** The callback handed to [setTimeout] by [killPlayer]. *)
Definition respawn (st : GameEngine) : GameEngine :=
  let '(t, st) := performanceNow st in
  let p := player st in
  let p := set_pl_x (inject_Z TILE_SIZE) p in
  let p := set_pl_y (inject_Z TILE_SIZE) p in
  let p := set_pl_isDead false p in
  let p := set_pl_invulnerableUntil (t + 3000)%Q p in
  let st := set_player p st in
  emit (StatsUpdate (getStats st)) st.

(** [killPlayer] *)
Definition killPlayer (st : GameEngine) : GameEngine :=
  let '(t, st) := performanceNow st in
  if Qltb t (pl_invulnerableUntil (player st)) || pl_isDead (player st) then st
  else
    let st := set_lives (lives st - 1) st in
    let st := set_player (set_pl_isDead true (player st)) st in
    if lives st <=? 0 then
      emit (GameOver false) (set_isGameOver true st)
    else
      set_pendingRespawns (S (pendingRespawns st)) st.

(** *** Bombs and explosions *)

(** The player's derived grid cell, [Math.floor((v + TILE_SIZE / 2) / TILE_SIZE)]. *)
Definition centerTile (v : Q) : Z := tileOf (v + inject_Z (TILE_SIZE / 2)).

(** [placeBomb] *)
Definition placeBomb (st : GameEngine) : GameEngine :=
  if pl_maxBombs (player st) <=? pl_bombsCount (player st) then st
  else
    let c := centerTile (pl_x (player st)) in
    let r := centerTile (pl_y (player st)) in
    if some (bombAt c r) (bombs st) then st
    else
      let '(id, st) := random st in
      let st :=
        set_bombs (bombs st ++
                   [mkBomb id c r 2000 (pl_bombRange (player st)) "player"]) st in
      set_player
        (set_pl_bombsCount (pl_bombsCount (player st) + 1) (player st)) st.

Definition setTile (g : Grid) (r c : Z) (t : TileType) : Grid :=
  alter (fun line => <[Z.to_nat c := t]> line) (Z.to_nat r) g.

(** The kind of the power-up dropped for the draw [rnd]. *)
Definition powerUpKind (rnd : Q) : PowerUpType :=
  let type := BOMB_UP in
  let type := if Qltb 0.60 rnd then FIRE_UP else type in
  let type := if Qltb 0.80 rnd then SPEED_UP else type in
  let type := if Qltb 0.90 rnd then TIME_BONUS else type in
  let type := if Qltb 0.96 rnd then SUPER_BOMB else type in
  type.

(** [destroyBlock] *)
Definition destroyBlock (c r : Z) (st : GameEngine) : GameEngine :=
  let st := set_grid (setTile (grid st) r c EMPTY) st in
  let st := set_score (score st + 10) st in
  let '(chance, st) := random st in
  if Qltb chance 0.35 then
    let '(rnd, st) := random st in
    let '(id, st) := random st in
    let '(bob, st) := random st in
    set_powerUps (powerUps st ++
                  [mkPowerUp id c r (powerUpKind rnd) (bob * 10)%Q]) st
  else st.

(** One blast ray of [explodeBomb]: the [for (let i = 1; i <= bomb.range; i++)]
    loop for the direction [(dx, dy)]. [n] counts the iterations left, [i] is
    the loop variable. The result is the cells the ray appends to [cells] and
    the state it leaves. *)
Fixpoint blastRay (n : nat) (i : Z) (bomb : Bomb) (dx dy : Z) (dir : Direction)
    (st : GameEngine) : list Cell * GameEngine :=
  match n with
  | O => ([], st)
  | S n' =>
    let c := b_col bomb + dx * i in
    let r := b_row bomb + dy * i in
    if (r <? 0) || (GRID_ROWS <=? r) || (c <? 0) || (GRID_COLS <=? c)
    then ([], st)
    else
      let tile := tileAt (grid st) r c in
      match tile with
      | Some WALL_HARD => ([], st)
      | _ =>
        let cell := mkCell c r (i =? b_range bomb) dir in
        match findIndex (bombAt c r) (bombs st) with
        | Some hitBombIdx =>
            ([cell],
             set_bombs (alter (set_b_timer 0) hitBombIdx (bombs st)) st)
        | None =>
            match tile with
            | Some WALL_SOFT => ([cell], destroyBlock c r st)
            | _ =>
                let '(cells, st') := blastRay n' (i + 1) bomb dx dy dir st in
                (cell :: cells, st')
            end
        end
      end
  end.

Definition directions : list (Z * Z * Direction) :=
  [ (0, -1, UP); (0, 1, DOWN); (-1, 0, LEFT); (1, 0, RIGHT) ].

Definition ray (bomb : Bomb) (d : Z * Z * Direction) (st : GameEngine)
    : list Cell * GameEngine :=
  let '(dx, dy, dir) := d in
  blastRay (Z.to_nat (b_range bomb)) 1 bomb dx dy dir st.

(** [directions.forEach(...)], collecting the cells of the rays in order. *)
Fixpoint rays (bomb : Bomb) (ds : list (Z * Z * Direction)) (st : GameEngine)
    : list Cell * GameEngine :=
  match ds with
  | [] => ([], st)
  | d :: ds' =>
      let '(cells, st1) := ray bomb d st in
      let '(more, st2) := rays bomb ds' st1 in
      (cells ++ more, st2)
  end.

(** [explodeBomb] *)
Definition explodeBomb (bomb : Bomb) (st : GameEngine) : GameEngine :=
  let origin := mkCell (b_col bomb) (b_row bomb) false NONE in
  let '(cells, st) := rays bomb directions st in
  let '(id, st) := random st in
  set_explosions
    (explosions st ++
     [mkExplosion id (mkGridPoint (b_col bomb) (b_row bomb))
                  (origin :: cells) EXPLOSION_DURATION_MS]) st.

(** The body of the loop "3. Update Bombs" for index [i]. *)
Definition bombStep (dt : Q) (i : nat) (st : GameEngine) : GameEngine :=
  match bombs st !! i with
  | None => st
  | Some b =>
    let bomb := set_b_timer (b_timer b - dt)%Q b in
    let st := set_bombs (<[i := bomb]> (bombs st)) st in
    if Qleb (b_timer bomb) 0 then
      let st := explodeBomb bomb st in
      let st := set_bombs (delete i (bombs st)) st in
      if String.eqb (b_ownerId bomb) "player" then
        set_player
          (set_pl_bombsCount (pl_bombsCount (player st) - 1) (player st)) st
      else st
    else st
  end.

Definition updateBombs (dt : Q) (st : GameEngine) : GameEngine :=
  downFrom (length (bombs st)) (bombStep dt) st.

(** The body of [this.enemies.forEach(enemy => ...)] inside "4. Update
    Explosions": the damage one explosion cell does to one enemy. *)
Definition hitEnemy (t : Q) (cell : Cell) (enemy : Enemy) (st : GameEngine)
    : Enemy * GameEngine :=
  let enemyCol := centerTile (en_x enemy) in
  let enemyRow := centerTile (en_y enemy) in
  if (enemyCol =? c_col cell) && (enemyRow =? c_row cell)
     && negb (en_isDead enemy) then
    if en_isBoss enemy && Qltb (t - en_lastHitTime enemy) 1000 then (enemy, st)
    else
      let enemy := set_en_hp (en_hp enemy - 1) enemy in
      let enemy := set_en_lastHitTime t enemy in
      if en_hp enemy <=? 0 then
        let enemy := set_en_isDead true enemy in
        let st := set_score (score st + (if en_isBoss enemy then 500 else 100)) st in
        let st := set_gameTime (gameTime st + (if en_isBoss enemy then 30 else 10)) st in
        (enemy, st)
      else (enemy, st)
  else (enemy, st).

Fixpoint hitEnemies (t : Q) (cell : Cell) (es : list Enemy) (st : GameEngine)
    : list Enemy * GameEngine :=
  match es with
  | [] => ([], st)
  | e :: es' =>
      let '(e', st1) := hitEnemy t cell e st in
      let '(rest, st2) := hitEnemies t cell es' st1 in
      (e' :: rest, st2)
  end.

(** The body of [exp.cells.forEach(cell => ...)]. *)
Definition cellDamage (t : Q) (st : GameEngine) (cell : Cell) : GameEngine :=
  let playerCenterCol := centerTile (pl_x (player st)) in
  let playerCenterRow := centerTile (pl_y (player st)) in
  let st :=
    if (playerCenterCol =? c_col cell) && (playerCenterRow =? c_row cell)
    then killPlayer st else st in
  let '(es, st) := hitEnemies t cell (enemies st) st in
  set_enemies es st.

(** The body of the loop "4. Update Explosions" for index [i]. *)
Definition explosionStep (t dt : Q) (i : nat) (st : GameEngine) : GameEngine :=
  match explosions st !! i with
  | None => st
  | Some e =>
    let exp := set_ex_timer (ex_timer e - dt)%Q e in
    let st := set_explosions (<[i := exp]> (explosions st)) st in
    let st := fold_left (cellDamage t) (ex_cells exp) st in
    if Qleb (ex_timer exp) 0 then set_explosions (delete i (explosions st)) st
    else st
  end.

Definition updateExplosions (t dt : Q) (st : GameEngine) : GameEngine :=
  downFrom (length (explosions st)) (explosionStep t dt) st.

(** *** Enemy AI *)

Definition reactionTime (st : GameEngine) (enemy : Enemy) : Q :=
  let reactionBase :=
    if 5 <=? level st then 1500 - (level st - 4) * 200 else 1500 in
  if en_isBoss enemy then 400%Q else inject_Z (Z.max 400 reactionBase).

(** The step towards a pixel target used by both branches of [updateEnemyAI]:
    [0] within one pixel, otherwise the sign of the difference. *)
Definition stepTowards (from to : Q) : Q :=
  if Qltb 1 (Qabs (from - to)) then (if Qltb from to then 1%Q else (-1)%Q)
  else 0%Q.

Definition walkerCandidates (gridCol gridRow : Z) : list GridPoint :=
  [ mkGridPoint (gridCol + 1) gridRow; mkGridPoint (gridCol - 1) gridRow;
    mkGridPoint gridCol (gridRow + 1); mkGridPoint gridCol (gridRow - 1);
    mkGridPoint (gridCol + 2) gridRow; mkGridPoint (gridCol - 2) gridRow;
    mkGridPoint gridCol (gridRow + 2); mkGridPoint gridCol (gridRow - 2) ].

(** [updateEnemyAI]; the enemy object is passed and returned. *)
Definition updateEnemyAI (dt : Q) (enemy : Enemy) (st : GameEngine)
    : Enemy * GameEngine :=
  let enemy := set_en_recalcPathTimer (en_recalcPathTimer enemy - dt)%Q enemy in
  match en_path enemy with
  | nextStep :: rest =>
    if some (bombAt (col nextStep) (row nextStep)) (bombs st) then
      (set_en_path [] enemy, st)
    else
      let targetX := px (col nextStep) in
      let targetY := px (row nextStep) in
      let distSq :=
        ((en_x enemy - targetX) * (en_x enemy - targetX) +
         (en_y enemy - targetY) * (en_y enemy - targetY))%Q in
      if Qltb distSq 16 then
        let enemy := set_en_x targetX enemy in
        let enemy := set_en_y targetY enemy in
        let enemy := set_en_path rest enemy in
        match rest with
        | [] => (set_en_recalcPathTimer 0 enemy, st)
        | _ => (enemy, st)
        end
      else
        let dx := stepTowards (en_x enemy) targetX in
        let dy := stepTowards (en_y enemy) targetY in
        let '(dx, dy) :=
          if Qneqb dx 0 && Qneqb dy 0 then
            if Qltb (Qabs (en_y enemy - targetY)) (Qabs (en_x enemy - targetX))
            then (dx, 0%Q) else (0%Q, dy)
          else (dx, dy) in
        let '(x', y') :=
          moveEntity st false (en_x enemy) (en_y enemy) dx dy (en_speed enemy) in
        (set_en_y y' (set_en_x x' enemy), st)
  | [] =>
    let gridCol := round (en_x enemy / inject_Z TILE_SIZE) in
    let gridRow := round (en_y enemy / inject_Z TILE_SIZE) in
    let centerX := px gridCol in
    let centerY := px gridRow in
    let distSq :=
      ((en_x enemy - centerX) * (en_x enemy - centerX) +
       (en_y enemy - centerY) * (en_y enemy - centerY))%Q in
    if Qltb 4 distSq then
      let dx := stepTowards (en_x enemy) centerX in
      let dy := stepTowards (en_y enemy) centerY in
      let '(x', y') :=
        moveEntity st false (en_x enemy) (en_y enemy) dx dy (en_speed enemy) in
      (set_en_y y' (set_en_x x' enemy), st)
    else
      let enemy := set_en_x centerX enemy in
      let enemy := set_en_y centerY enemy in
      if Qleb (en_recalcPathTimer enemy) 0 then
        let delay := if en_isBoss enemy then 500%Q else 300%Q in
        let '(jitter, st) := random st in
        let enemy :=
          set_en_recalcPathTimer
            (reactionTime st enemy + delay + jitter * 200)%Q enemy in
        let start := mkGridPoint gridCol gridRow in
        let '(target, st) :=
          match en_type enemy with
          | CHASER =>
              (Some (mkGridPoint (pl_gridX (player st)) (pl_gridY (player st))),
               st)
          | WALKER =>
              let valid :=
                List.filter (fun n =>
                    (0 <=? col n) && (col n <? GRID_COLS) &&
                    (0 <=? row n) && (row n <? GRID_ROWS) &&
                    negb (notEmpty (tileAt (grid st) (row n) (col n))) &&
                    negb (some (bombAt (col n) (row n)) (bombs st)))
                  (walkerCandidates gridCol gridRow) in
              match valid with
              | [] => (None, st)
              | _ =>
                  let '(pick, st) := random st in
                  (lookupZ valid
                     (Qfloor (pick * inject_Z (Z.of_nat (length valid)))), st)
              end
          end in
        match target with
        | None => (enemy, st)
        | Some target =>
            let bombPoints :=
              map (fun b => mkGridPoint (b_col b) (b_row b)) (bombs st) in
            match AI.findPath start target (grid st) bombPoints with
            | Some (first :: more) =>
                if (col first =? gridCol) && (row first =? gridRow)
                then (set_en_path more enemy, st)
                else (set_en_path (first :: more) enemy, st)
            | _ => (enemy, st)
            end
        end
      else (enemy, st)
  end.

Fixpoint updateEnemies (dt : Q) (es : list Enemy) (st : GameEngine)
    : list Enemy * GameEngine :=
  match es with
  | [] => ([], st)
  | e :: es' =>
      let '(e', st1) := updateEnemyAI dt e st in
      let '(rest, st2) := updateEnemies dt es' st1 in
      (e' :: rest, st2)
  end.

(** *** Power-ups *)

(** [applyPowerUp] *)
Definition applyPowerUp (p : PowerUp) (st : GameEngine) : GameEngine :=
  let st := set_score (score st + 50) st in
  match pu_type p with
  | BOMB_UP =>
      set_player (set_pl_maxBombs (pl_maxBombs (player st) + 1) (player st)) st
  | FIRE_UP =>
      set_player (set_pl_bombRange (pl_bombRange (player st) + 1) (player st)) st
  | SPEED_UP =>
      set_player
        (set_pl_speed (Qminb (pl_speed (player st) + 1) 9) (player st)) st
  | SUPER_BOMB => set_player (set_pl_bombRange 12 (player st)) st
  | TIME_BONUS => set_gameTime (gameTime st + 30) st
  end.

(** The body of the loop "6. Check PowerUps" for index [i]. *)
Definition powerUpStep (i : nat) (st : GameEngine) : GameEngine :=
  match powerUps st !! i with
  | None => st
  | Some p =>
      if (pl_gridX (player st) =? pu_col p) && (pl_gridY (player st) =? pu_row p)
      then
        let st := applyPowerUp p st in
        set_powerUps (delete i (powerUps st)) st
      else st
  end.

(** *** The tick *)

(** The direction vector computed from the held keys at the start of
    [update], including the scaling applied when both components are set. *)
Definition inputVector (i : Input) : Q * Q :=
  let '(dx, dy) :=
    if in_up i then (0%Q, (-1)%Q)
    else if in_down i then (0%Q, 1%Q)
    else if in_left i then ((-1)%Q, 0%Q)
    else if in_right i then (1%Q, 0%Q)
    else (0%Q, 0%Q) in
  if Qneqb dx 0 && Qneqb dy 0 then
    let invSqrt2 := 0.7071%Q in
    ((dx * invSqrt2)%Q, (dy * invSqrt2)%Q)
  else (dx, dy).

(** "1. Player Movement" *)
Definition updatePlayer (dt : Q) (st : GameEngine) : GameEngine :=
  let '(dx, dy) := inputVector (input st) in
  let p := player st in
  let p :=
    if Qneqb dx 0 || Qneqb dy 0 then
      let '(x', y') :=
        moveEntity st true (pl_x p) (pl_y p) dx dy (pl_speed p) in
      let p := set_pl_y y' (set_pl_x x' p) in
      let p := set_pl_isMoving true p in
      let p := set_pl_animFrame (pl_animFrame p + dt * 0.01)%Q p in
      if Qltb (Qabs dy) (Qabs dx) then
        set_pl_direction (if Qltb 0 dx then RIGHT else LEFT) p
      else
        set_pl_direction (if Qltb 0 dy then DOWN else UP) p
    else
      let p := set_pl_isMoving false p in
      let p := set_pl_x (inject_Z (round (pl_x p))) p in
      set_pl_y (inject_Z (round (pl_y p))) p in
  let p := set_pl_gridX (centerTile (pl_x p)) p in
  let p := set_pl_gridY (centerTile (pl_y p)) p in
  set_player p st.

(** "2. Bomb Placement" *)
Definition updatePlacement (st : GameEngine) : GameEngine :=
  if in_bomb (input st) && negb (in_bombPressed (input st)) then
    let i := input st in
    let st :=
      set_input (mkInput (in_up i) (in_down i) (in_left i) (in_right i)
                         (in_bomb i) true) st in
    placeBomb st
  else st.

(** "5. Update Enemies", up to and including the level-complete check. *)
Definition checkLevelComplete (st : GameEngine) : GameEngine :=
  let st := set_enemies (List.filter (fun e => negb (en_isDead e)) (enemies st)) st in
  if (length (enemies st) =? 0)%nat && negb (isVictory st)
     && negb (isLevelTransitioning st) && negb (isLevelComplete st)
  then emit LevelComplete (set_isLevelComplete true st)
  else st.

Definition updateAI (dt : Q) (st : GameEngine) : GameEngine :=
  if negb (isLevelComplete st) then
    let '(es, st) := updateEnemies dt (enemies st) st in
    set_enemies es st
  else st.

(** "6. Check PowerUps" *)
Definition updatePowerUps (st : GameEngine) : GameEngine :=
  downFrom (length (powerUps st)) powerUpStep st.

(** "7. Check Player-Enemy Collision". [Math.hypot(a, b) < TILE_SIZE * 0.7]
    is compared on the squares. *)
Definition touches (p : Player) (e : Enemy) : bool :=
  let a := (pl_x p - en_x e)%Q in
  let b := (pl_y p - en_y e)%Q in
  let reach := (inject_Z TILE_SIZE * 0.7)%Q in
  Qltb (a * a + b * b) (reach * reach).

Definition updateContact (t : Q) (st : GameEngine) : GameEngine :=
  if Qltb (pl_invulnerableUntil (player st)) t then
    fold_left (fun st e => if touches (player st) e then killPlayer st else st)
              (enemies st) st
  else st.

(** "Stats Update": the countdown and the snapshot. *)
Definition updateCountdown (t dt : Q) (st : GameEngine) : GameEngine :=
  if negb (Qfloor (t / 1000) =? Qfloor ((t - dt) / 1000)) then
    let st := set_gameTime (gameTime st - 1) st in
    if gameTime st <=? 0 then killPlayer st else st
  else st.

Definition pushStats (st : GameEngine) : GameEngine :=
  emit (StatsUpdate (mkGameStats (score st) (lives st) (level st)
                                 (Z.max 0 (gameTime st)))) st.

(** [update] *)
Definition update (dt : Q) (st : GameEngine) : GameEngine :=
  let '(t, st) := performanceNow st in
  let st := updatePlayer dt st in
  let st := updatePlacement st in
  let st := updateBombs dt st in
  let st := updateExplosions t dt st in
  let st := checkLevelComplete st in
  let st := updateAI dt st in
  let st := updatePowerUps st in
  let st := updateContact t st in
  let st := updateCountdown t dt st in
  pushStats st.

(** [loop]; [draw] reads the state only. [animationId] records whether a
    frame request handle is held. *)
Definition loop (timestamp : Q) (st : GameEngine) : GameEngine :=
  if negb (animationId st) && isPaused st then st
  else
    let deltaTime := (timestamp - lastTime st)%Q in
    let st := set_lastTime timestamp st in
    let st :=
      if negb (isPaused st) && negb (isGameOver st) && negb (isVictory st)
         && negb (isLevelComplete st)
      then update deltaTime st else st in
    set_animationId true st.

(** [startGame]; the audio calls are left out. *)
Definition startGame (st : GameEngine) : GameEngine :=
  let st := set_isPaused false st in
  let '(t, st) := performanceNow st in
  let st := set_lastTime t st in
  loop t st.

(** [pauseGame] *)
Definition pauseGame (paused : bool) (st : GameEngine) : GameEngine :=
  set_isPaused paused st.

(** [setVirtualInput] *)
Definition setVirtualInput (key : string) (pressed : bool) (st : GameEngine)
    : GameEngine :=
  let i := input st in
  let i := if String.eqb key "UP" then
             mkInput pressed (in_down i) (in_left i) (in_right i) (in_bomb i)
                     (in_bombPressed i) else i in
  let i := if String.eqb key "DOWN" then
             mkInput (in_up i) pressed (in_left i) (in_right i) (in_bomb i)
                     (in_bombPressed i) else i in
  let i := if String.eqb key "LEFT" then
             mkInput (in_up i) (in_down i) pressed (in_right i) (in_bomb i)
                     (in_bombPressed i) else i in
  let i := if String.eqb key "RIGHT" then
             mkInput (in_up i) (in_down i) (in_left i) pressed (in_bomb i)
                     (in_bombPressed i) else i in
  let i := if String.eqb key "BOMB" then
             mkInput (in_up i) (in_down i) (in_left i) (in_right i) pressed
                     (if pressed then in_bombPressed i else false) else i in
  set_input i st.

(** [handleKeyDown] and [handleKeyUp], on the event's [key]. *)
Definition keyIs (key : string) (names : list string) : bool :=
  some (String.eqb key) names.

Definition handleKeyDown (key : string) (st : GameEngine) : GameEngine :=
  let i := input st in
  set_input
    (if keyIs key ["ArrowUp"; "w"; "W"]%string then
       mkInput true (in_down i) (in_left i) (in_right i) (in_bomb i)
               (in_bombPressed i)
     else if keyIs key ["ArrowDown"; "s"; "S"]%string then
       mkInput (in_up i) true (in_left i) (in_right i) (in_bomb i)
               (in_bombPressed i)
     else if keyIs key ["ArrowLeft"; "a"; "A"]%string then
       mkInput (in_up i) (in_down i) true (in_right i) (in_bomb i)
               (in_bombPressed i)
     else if keyIs key ["ArrowRight"; "d"; "D"]%string then
       mkInput (in_up i) (in_down i) (in_left i) true (in_bomb i)
               (in_bombPressed i)
     else if keyIs key [" "]%string then
       mkInput (in_up i) (in_down i) (in_left i) (in_right i) true
               (in_bombPressed i)
     else i) st.

Definition handleKeyUp (key : string) (st : GameEngine) : GameEngine :=
  let i := input st in
  set_input
    (if keyIs key ["ArrowUp"; "w"; "W"]%string then
       mkInput false (in_down i) (in_left i) (in_right i) (in_bomb i)
               (in_bombPressed i)
     else if keyIs key ["ArrowDown"; "s"; "S"]%string then
       mkInput (in_up i) false (in_left i) (in_right i) (in_bomb i)
               (in_bombPressed i)
     else if keyIs key ["ArrowLeft"; "a"; "A"]%string then
       mkInput (in_up i) (in_down i) false (in_right i) (in_bomb i)
               (in_bombPressed i)
     else if keyIs key ["ArrowRight"; "d"; "D"]%string then
       mkInput (in_up i) (in_down i) (in_left i) false (in_bomb i)
               (in_bombPressed i)
     else if keyIs key [" "]%string then
       mkInput (in_up i) (in_down i) (in_left i) (in_right i) false false
     else i) st.

(** What can happen to a running engine between the start of a level and the
    call that leaves it: an animation frame, a call of [startGame], a change
    of the held controls, a pause toggle, or the respawn timer set by
    [killPlayer] expiring. *)
Inductive Action :=
  | Frame (timestamp : Q)
  | StartGame
  | KeyDown (key : string)
  | KeyUp (key : string)
  | VirtualInput (key : string) (pressed : bool)
  | Pause (paused : bool)
  | RespawnTimeout.

Definition act (a : Action) (st : GameEngine) : GameEngine :=
  match a with
  | Frame timestamp => loop timestamp st
  | StartGame => startGame st
  | KeyDown key => handleKeyDown key st
  | KeyUp key => handleKeyUp key st
  | VirtualInput key pressed => setVirtualInput key pressed st
  | Pause paused => pauseGame paused st
  | RespawnTimeout =>
      match pendingRespawns st with
      | O => st
      | S n => respawn (set_pendingRespawns n st)
      end
  end.

Definition run (actions : list Action) (st : GameEngine) : GameEngine :=
  fold_left (fun st a => act a st) actions st.

End Engine.


(* ===================================================================== *)
(** ** [class GameEngine]: levels and runs *)

Definition ENEMY_SPEED_BASE : Q := 2.

Definition set_level (v : Z) (r : GameEngine) : GameEngine :=
  mkGameEngine
    (grid r) (player r) (bombs r) (explosions r) (powerUps r) (enemies r) v
    (score r) (lives r) (gameTime r) (isPaused r) (isGameOver r)
    (isVictory r) (isLevelTransitioning r) (isLevelComplete r) (input r)
    (lastTime r) (animationId r) (events r) (pendingRespawns r)
    (randCalls r) (clockCalls r).

Definition set_isVictory (v : bool) (r : GameEngine) : GameEngine :=
  mkGameEngine
    (grid r) (player r) (bombs r) (explosions r) (powerUps r) (enemies r)
    (level r) (score r) (lives r) (gameTime r) (isPaused r) (isGameOver r) v
    (isLevelTransitioning r) (isLevelComplete r) (input r) (lastTime r)
    (animationId r) (events r) (pendingRespawns r) (randCalls r)
    (clockCalls r).

Definition set_isLevelTransitioning (v : bool) (r : GameEngine) : GameEngine :=
  mkGameEngine
    (grid r) (player r) (bombs r) (explosions r) (powerUps r) (enemies r)
    (level r) (score r) (lives r) (gameTime r) (isPaused r) (isGameOver r)
    (isVictory r) v (isLevelComplete r) (input r) (lastTime r)
    (animationId r) (events r) (pendingRespawns r) (randCalls r)
    (clockCalls r).

(** [0, 1, ..., n - 1], the values of a [for (let i = 0; i < n; i++)] loop. *)
Definition indices (n : Z) : list Z := map Z.of_nat (seq 0 (Z.to_nat n)).

Section Levels.

Variable rand : nat -> Q.
Variable clock : nat -> Q.

(** The body of the two nested loops of "1. Generate Grid" in [initLevel]:
    the tile pushed for row [r] and column [c]. [Math.random()] is called
    only for a cell that is neither on the border, nor a pillar, nor in the
    spawn zone ([!isSpawn && Math.random() < ...] short-circuits). *)
Definition generateTile (lvl r c : Z) (st : GameEngine)
    : TileType * GameEngine :=
  if (r =? 0) || (c =? 0) || (r =? GRID_ROWS - 1) || (c =? GRID_COLS - 1)
  then (WALL_HARD, st)
  else if (r mod 2 =? 0) && (c mod 2 =? 0) then (WALL_HARD, st)
  else
    let isSpawn :=
      ((r =? 1) && (c =? 1)) || ((r =? 1) && (c =? 2)) ||
      ((r =? 2) && (c =? 1)) in
    let density := (0.25 + inject_Z (lvl - 1) * 0.04)%Q in
    if isSpawn then (EMPTY, st)
    else
      let '(draw, st) := random rand st in
      if Qltb draw (Qminb density 0.6) then (WALL_SOFT, st) else (EMPTY, st).

Fixpoint generateRow (lvl r : Z) (cs : list Z) (st : GameEngine)
    : list TileType * GameEngine :=
  match cs with
  | [] => ([], st)
  | c :: cs' =>
      let '(t, st1) := generateTile lvl r c st in
      let '(line, st2) := generateRow lvl r cs' st1 in
      (t :: line, st2)
  end.

Fixpoint generateRows (lvl : Z) (rs : list Z) (st : GameEngine)
    : list (list TileType) * GameEngine :=
  match rs with
  | [] => ([], st)
  | r :: rs' =>
      let '(line, st1) := generateRow lvl r (indices GRID_COLS) st in
      let '(g, st2) := generateRows lvl rs' st1 in
      (line :: g, st2)
  end.

Definition generateGrid (lvl : Z) (st : GameEngine)
    : list (list TileType) * GameEngine :=
  generateRows lvl (indices GRID_ROWS) st.

(** [spawnEnemy]: the [while (attempts < 50)] loop, [n] attempts being
    left. The calls of [Math.random()] are made in the order of the source:
    row, column, then for an accepted cell the boss draw (from level 3 on),
    the kind draw (unless boss), and the [id], [direction] and [animOffset]
    of the object literal. *)
Fixpoint spawnAttempts (n : nat) (lvl : Z) (st : GameEngine)
    : bool * GameEngine :=
  match n with
  | O => (false, st)
  | S n' =>
    let '(a, st) := random rand st in
    let r := Qfloor (a * inject_Z (GRID_ROWS - 2)) + 1 in
    let '(b, st) := random rand st in
    let c := Qfloor (b * inject_Z (GRID_COLS - 2)) + 1 in
    let dist := Z.abs (r - 1) + Z.abs (c - 1) in
    if negb (notEmpty (tileAt (grid st) r c)) && (8 <? dist) then
      let '(isBoss, st) :=
        if 3 <=? lvl then
          let '(draw, st) := random rand st in (Qltb draw 0.2, st)
        else (false, st) in
      let hp := if isBoss then 3 else 1 in
      let '(type, st) :=
        if isBoss then (CHASER, st)
        else
          let '(draw, st) := random rand st in
          (if Qltb 0.6 draw then CHASER else WALKER, st) in
      let speedMult :=
        if 5 <=? lvl then (1 + inject_Z (lvl - 4) * 0.08)%Q else 1%Q in
      let baseSpeed :=
        if isBoss then (ENEMY_SPEED_BASE * 1.15)%Q else ENEMY_SPEED_BASE in
      let speed := (baseSpeed * speedMult)%Q in
      let '(id, st) := random rand st in
      let '(turn, st) := random rand st in
      let '(anim, st) := random rand st in
      (true,
       set_enemies
         (enemies st ++
          [mkEnemy id (px c) (px r) type isBoss hp hp 0
                   (if Qltb 0.5 turn then LEFT else DOWN) None None [] 0
                   false speed (anim * 100)%Q]) st)
    else spawnAttempts n' lvl st
  end.

Definition spawnEnemy (lvl : Z) (st : GameEngine) : bool * GameEngine :=
  spawnAttempts 50 lvl st.

(** The loop [while (enemiesSpawned < totalEnemies)] of [initLevel]. The
    source puts no bound on it; [fuel] bounds the number of [spawnEnemy]
    calls, and [None] says that the loop has not ended within that many. *)
Fixpoint spawnUntil (fuel : nat) (lvl enemiesSpawned totalEnemies : Z)
    (st : GameEngine) : option GameEngine :=
  if enemiesSpawned <? totalEnemies then
    match fuel with
    | O => None
    | S fuel' =>
        let '(ok, st) := spawnEnemy lvl st in
        spawnUntil fuel' lvl
          (if ok then enemiesSpawned + 1 else enemiesSpawned) totalEnemies st
    end
  else Some st.

(** [initLevel]; the audio call is left out. *)
Definition initLevel (fuel : nat) (lvl : Z) (st : GameEngine)
    : option GameEngine :=
  let st := set_level lvl st in
  let st := set_gameTime (120 + lvl * 15) st in
  let st := set_grid [] st in
  let st := set_bombs [] st in
  let st := set_explosions [] st in
  let st := set_powerUps [] st in
  let st := set_enemies [] st in
  let st := set_isLevelTransitioning false st in
  let st := set_isLevelComplete false st in
  let '(g, st) := generateGrid lvl st in
  let st := set_grid g st in
  let p := set_pl_y (inject_Z TILE_SIZE)
             (set_pl_x (inject_Z TILE_SIZE) (player st)) in
  let '(t, st) := performanceNow clock st in
  let st :=
    set_player (set_pl_invulnerableUntil (t + INVULNERABILITY_MS)%Q p) st in
  let totalEnemies := 2 + Z.min lvl 8 in
  spawnUntil fuel lvl 0 totalEnemies st.

(** The state [restartGame] and the constructor hand to [initLevel(1)]. *)
Definition freshRun (st : GameEngine) : GameEngine :=
  let st := set_level 1 st in
  let st := set_score 0 st in
  let st := set_lives 5 st in
  let st := set_player createPlayer st in
  let st := set_isGameOver false st in
  let st := set_isVictory false st in
  let st := set_isLevelTransitioning false st in
  set_isLevelComplete false st.

(** [restartGame] *)
Definition restartGame (fuel : nat) (st : GameEngine) : option GameEngine :=
  match initLevel fuel 1 (freshRun st) with
  | Some st => Some (startGame rand clock st)
  | None => None
  end.

(** [proceedToNextLevel] *)
Definition proceedToNextLevel (fuel : nat) (st : GameEngine)
    : option GameEngine :=
  let st := set_isLevelComplete false st in
  let st := set_isLevelTransitioning false st in
  let st := set_lives (lives st + 1) st in
  if 10 <=? level st then
    Some (emit (GameOver true) (set_isVictory true st))
  else
    match initLevel fuel (level st + 1) st with
    | Some st =>
        let st := set_player (set_pl_isMoving false (player st)) st in
        let st := emit (StatsUpdate (getStats st)) st in
        Some (startGame rand clock st)
    | None => None
    end.

End Levels.
(* ===================================================================== *)
(** * Vocabulary of the statements *)

(** The cell [(c, r)] lies on the board: the negation of the bounds test
    that guards every grid access. *)
Definition inGrid (c r : Z) : bool :=
  negb ((c <? 0) || (GRID_COLS <=? c) || (r <? 0) || (GRID_ROWS <=? r)).

Module AIVocabulary.
Import AI.

(** Induction along the [parent] links. *)
Fixpoint PathNode_links_ind (P : PathNode -> Prop)
    (Hroot : forall x y g h f, P (mkPathNode x y g h f None))
    (Hlink : forall x y g h f p, P p -> P (mkPathNode x y g h f (Some p)))
    (n : PathNode) : P n :=
  match n with
  | mkPathNode x y g h f None => Hroot x y g h f
  | mkPathNode x y g h f (Some p) =>
      Hlink x y g h f p (PathNode_links_ind P Hroot Hlink p)
  end.

(** A node is well linked when the chain of its [parent] links ends in the
    start cell and every other node of the chain passed the walkability test. *)
Fixpoint wellLinked (walk : Z -> Z -> bool) (start : GridPoint) (n : PathNode)
    : Prop :=
  match node_parent n with
  | None => mkGridPoint (node_x n) (node_y n) = start
  | Some p => walk (node_x n) (node_y n) = true /\ wellLinked walk start p
  end.

(** Every cell of the 15 x 13 board. *)
Definition allCells : list GridPoint :=
  flat_map (fun c => map (fun r => mkGridPoint (Z.of_nat c) (Z.of_nat r))
                         (seq 0 (Z.to_nat GRID_ROWS)))
           (seq 0 (Z.to_nat GRID_COLS)).

(** The search from the corner [(0, 0)] when every cell of the board is
    walkable, and the test that it ends in a path of Manhattan length. *)
Definition cornerSearch (target : GridPoint) : option (list GridPoint) :=
  search inGrid target MAX_ITERATIONS
         [startNode (mkGridPoint 0 0) target] [].

Definition manhattanOptimal (target : GridPoint) : bool :=
  match cornerSearch target with
  | Some path =>
      Z.of_nat (length path) =? Z.abs (col target) + Z.abs (row target) + 1
  | None => false
  end.

End AIVocabulary.

(** A board without any wall. *)
Definition emptyGrid : Grid :=
  replicate (Z.to_nat GRID_ROWS) (replicate (Z.to_nat GRID_COLS) EMPTY).

(** The board [initLevel] builds when no soft wall is drawn: the border and
    the pillars at even rows and columns are hard walls. *)
Definition arenaGrid : Grid :=
  map (fun r => map (fun c =>
         if (r =? 0) || (c =? 0) || (r =? GRID_ROWS - 1) || (c =? GRID_COLS - 1)
         then WALL_HARD
         else if (r mod 2 =? 0) && (c mod 2 =? 0) then WALL_HARD
         else EMPTY)
       (map Z.of_nat (seq 0 (Z.to_nat GRID_COLS))))
      (map Z.of_nat (seq 0 (Z.to_nat GRID_ROWS))).

(** ** Observations on the engine state *)

Definition isLevelCompleteEvent (e : Event) : bool :=
  match e with LevelComplete => true | _ => false end.

(** How many times [onLevelComplete] has been called. *)
Definition levelCompleteCalls (st : GameEngine) : nat :=
  length (List.filter isLevelCompleteEvent (events st)).

Definition invulnerableUntil (st : GameEngine) : Q :=
  pl_invulnerableUntil (player st).

(** [quiet st st']: going from [st] to [st'] leaves alone the lives, the
    clock, the invulnerability deadline and everything the level-complete
    transition depends on. *)
Definition keepsLevel (st st' : GameEngine) : Prop :=
  isLevelComplete st' = isLevelComplete st /\
  isVictory st' = isVictory st /\
  isLevelTransitioning st' = isLevelTransitioning st /\
  levelCompleteCalls st' = levelCompleteCalls st.

Definition keepsLife (st st' : GameEngine) : Prop :=
  lives st' = lives st /\
  clockCalls st' = clockCalls st /\
  invulnerableUntil st' = invulnerableUntil st.

Definition quiet (st st' : GameEngine) : Prop :=
  keepsLevel st st' /\ keepsLife st st'.

(** ** Blast geometry *)

(** The cell a ray of [bomb] in direction [(dx, dy)] reaches at distance [i],
    as [explodeBomb] records it. *)
Definition rayCell (bomb : Bomb) (dx dy : Z) (dir : Direction) (i : Z) : Cell :=
  mkCell (b_col bomb + dx * i) (b_row bomb + dy * i) (i =? b_range bomb) dir.

(** The cells at distances [i], [i + 1], ..., [i + n - 1]. *)
Definition raySpan (bomb : Bomb) (dx dy : Z) (dir : Direction) (i : Z) (n : nat)
    : list Cell :=
  map (fun k => rayCell bomb dx dy dir (i + Z.of_nat k)) (seq 0 n).

(** Open space: the cell at distance [i] is on the board, [EMPTY] and holds
    no bomb. *)
Definition openAt (st : GameEngine) (bomb : Bomb) (dx dy : Z) (i : Z) : Prop :=
  let c := b_col bomb + dx * i in
  let r := b_row bomb + dy * i in
  inGrid c r = true /\ tileAt (grid st) r c = Some EMPTY /\
  some (bombAt c r) (bombs st) = false.

(** ** Concrete boards and oracles used in examples *)

Definition noInput : Input := mkInput false false false false false false.

(** A level on [arenaGrid] with the player on the spawn cell, five lives and
    no invulnerability left. *)
Definition arena : GameEngine :=
  mkGameEngine arenaGrid createPlayer [] [] [] []
               1 0 5 135 false false false false false noInput 0 false [] 0 0 0.

Definition randHalf : nat -> Q := fun _ => 0.5%Q.
Definition clockAt (t : Q) : nat -> Q := fun _ => t.

(** A walker standing still on the cell [(c, r)]. *)
Definition walkerAt (c r : Z) : Enemy :=
  mkEnemy 0 (px c) (px r) WALKER false 1 1 0 LEFT None None [] 1000 false 2 0.

(** The player of [arena] moved to the pixel position [(x, y)]. *)
Definition playerAt (x y : Q) : Player :=
  set_pl_y y (set_pl_x x createPlayer).

(** ** Invulnerability *)

(** [calm clock st st']: the step from [st] to [st'] only reads the clock
    forward, keeps the invulnerability deadline, and costs no life provided
    every clock reading it makes lies before that deadline. *)
Definition calm (clock : nat -> Q) (st st' : GameEngine) : Prop :=
  (clockCalls st <= clockCalls st')%nat /\
  invulnerableUntil st' = invulnerableUntil st /\
  ((forall k, (clockCalls st <= k < clockCalls st')%nat ->
              (clock k < invulnerableUntil st)%Q) ->
   lives st' = lives st).

(** A state in which the player stands on a burning cell and next to an
    enemy, with the invulnerability lasting until [deadline]. *)
Definition underFire (deadline : Q) : GameEngine :=
  let blast :=
    mkExplosion 0 (mkGridPoint 1 1)
                [mkCell 1 1 false NONE; mkCell 2 1 true RIGHT] 600 in
  set_explosions [blast]
    (set_enemies [set_en_x 60 (walkerAt 1 1)]
       (set_player (set_pl_invulnerableUntil deadline createPlayer) arena)).

(** ** Level completion *)

(** The state in which [update] reaches the level-complete check: after the
    player, bomb and explosion phases. *)
Definition beforeLevelCheck (rand clock : nat -> Q) (dt : Q) (st : GameEngine)
    : GameEngine :=
  let '(t, st) := performanceNow clock st in
  updateExplosions clock t dt
    (updateBombs rand dt (updatePlacement rand (updatePlayer dt st))).

(** The condition tested by the check: no enemy is left once the dead ones
    are filtered out, and none of the three flags is set. *)
Definition levelDone (st : GameEngine) : bool :=
  (length (List.filter (fun e => negb (en_isDead e)) (enemies st)) =? 0)%nat
  && negb (isVictory st) && negb (isLevelTransitioning st)
  && negb (isLevelComplete st).

(** Three enemies on burning cells, one life point each. *)
Definition lastStand : GameEngine :=
  let blast :=
    mkExplosion 0 (mkGridPoint 5 5)
                [mkCell 5 5 false NONE; mkCell 6 5 false RIGHT;
                 mkCell 7 5 true RIGHT] 600 in
  set_explosions [blast]
    (set_enemies [walkerAt 5 5; walkerAt 6 5; walkerAt 7 5] arena).

(** ** Chain reactions *)

Definition cellOf (b : Bomb) : GridPoint := mkGridPoint (b_col b) (b_row b).

(** [zeroed b b']: [b'] is [b], possibly with its timer forced to zero. *)
Definition zeroed (b b' : Bomb) : Prop := b' = b \/ b' = set_b_timer 0 b.

(** The cells of the four rays [explodeBomb] computes for [bomb] from [st]. *)
Definition blastCells (rand : nat -> Q) (bomb : Bomb) (st : GameEngine)
    : list Cell :=
  fst (rays rand bomb directions st).

(** The blast of the [i]-th bomb when the loop "3. Update Bombs" reaches it
    in state [st]: its timer has been decremented in place before
    [explodeBomb] is called. *)
Definition blastOf (rand : nat -> Q) (dt : Q) (i : nat) (st : GameEngine)
    : list Cell :=
  match bombs st !! i with
  | Some b =>
      let bomb := set_b_timer (b_timer b - dt)%Q b in
      blastCells rand bomb (set_bombs (<[i := bomb]> (bombs st)) st)
  | None => []
  end.

(** Between [st] and [st'] an explosion centred on [c] has been pushed. *)
Definition appendsExplosionAt (c : GridPoint) (st st' : GameEngine) : Prop :=
  exists l1 e l2,
    explosions st' = explosions st ++ l1 ++ e :: l2 /\ ex_center e = c.

(** The state in which [update] enters the loop "3. Update Bombs". *)
Definition beforeBombs (rand clock : nat -> Q) (dt : Q) (st : GameEngine)
    : GameEngine :=
  updatePlacement rand (updatePlayer dt (snd (performanceNow clock st))).

(** Two bombs in a row: the older one at (1,1) about to go off, the younger
    one at (2,1) within its range. *)
Definition twoBombs : GameEngine :=
  set_bombs [mkBomb 0 1 1 10 2 "player"; mkBomb 0 2 1 1000 2 "player"]
    (set_enemies [walkerAt 13 11]
       (set_player (set_pl_bombsCount 2 (set_pl_maxBombs 2 (playerAt 48 240)))
          arena)).

(** What a stretch of the blast does to the bomb list: timers are forced
    to zero and nothing else, and for every cell it covers, the first bomb
    found on that cell has its timer at zero afterwards. *)
Definition blasted (st st' : GameEngine) (cells : list Cell) : Prop :=
  Forall2 zeroed (bombs st) (bombs st') /\
  explosions st' = explosions st /\
  forall cell j,
    In cell cells ->
    findIndex (bombAt (c_col cell) (c_row cell)) (bombs st) = Some j ->
    exists b, bombs st !! j = Some b /\
              bombs st' !! j = Some (set_b_timer 0 b).

(** ** Proof steps shared by the frame lemmas *)

Ltac break_if :=
  match goal with
  | |- context [if ?b then _ else _] => destruct b eqn:?
  | |- context [match ?x with Some _ => _ | None => _ end] => destruct x eqn:?
  | |- context [match ?x with [] => _ | _ :: _ => _ end] => destruct x eqn:?
  end.

Ltac frame :=
  unfold quiet, keepsLevel, keepsLife, levelCompleteCalls, invulnerableUntil;
  cbn; repeat split; reflexivity.

(** ** Paths *)

(** Consecutive cells of a path are one step apart (Manhattan distance 1). *)
Fixpoint unitSteps (path : list GridPoint) : Prop :=
  match path with
  | a :: (b :: _) as rest => AI.heuristic a b = 1 /\ unitSteps rest
  | _ => True
  end.

(** Every [parent] link of a node joins two cells one step apart. *)
Fixpoint stepLinked (n : PathNode) : Prop :=
  match node_parent n with
  | None => True
  | Some p =>
      Z.abs (node_x n - node_x p) + Z.abs (node_y n - node_y p) = 1 /\
      stepLinked p
  end.

(** The bomb list as [updateEnemyAI] hands it to [findPath]. *)
Definition bombPoints (st : GameEngine) : list GridPoint :=
  map (fun b => mkGridPoint (b_col b) (b_row b)) (bombs st).

(** ** Movement *)

(** The "Bounds Check" at the end of [moveEntity]. *)
Definition clampToCanvas (x y : Q) : Q * Q :=
  (Qmaxb 0 (Qminb x (inject_Z (CANVAS_WIDTH - TILE_SIZE))),
   Qmaxb 0 (Qminb y (inject_Z (CANVAS_HEIGHT - TILE_SIZE)))).

(** The collision test [moveEntity] makes for an enemy standing at [(x, y)]:
    the hitbox is the tile inset by the padding of 8. *)
Definition enemyHitboxBlocked (st : GameEngine) (x y : Q) : bool :=
  checkCollision st (pl_x (player st)) (pl_y (player st))
                 (x + 8)%Q (y + 8)%Q
                 (inject_Z TILE_SIZE - 8 * 2)%Q (inject_Z TILE_SIZE - 8 * 2)%Q
                 false.

(** ** Lives, defeat and progress *)

Definition isDefeatEvent (e : Event) : bool :=
  match e with GameOver false => true | _ => false end.

(** How many times [onGameOver(false)] has been called. *)
Definition defeatCalls (st : GameEngine) : nat :=
  length (List.filter isDefeatEvent (events st)).

(** Nothing has happened to the player's life. *)
Definition sameVitals (st st' : GameEngine) : Prop :=
  lives st' = lives st /\
  pl_isDead (player st') = pl_isDead (player st) /\
  isGameOver st' = isGameOver st /\
  defeatCalls st' = defeatCalls st /\
  pendingRespawns st' = pendingRespawns st.

(** The player, alive in [st], has died once: one life less; with no life
    left the run is over and [onGameOver(false)] has been called once,
    otherwise one respawn has been scheduled. *)
Definition lostLife (st st' : GameEngine) : Prop :=
  pl_isDead (player st) = false /\
  pl_isDead (player st') = true /\
  lives st' = lives st - 1 /\
  if lives st' <=? 0
  then isGameOver st' = true /\
       defeatCalls st' = S (defeatCalls st) /\
       pendingRespawns st' = pendingRespawns st
  else isGameOver st' = isGameOver st /\
       defeatCalls st' = defeatCalls st /\
       pendingRespawns st' = S (pendingRespawns st).

Definition hurt (st st' : GameEngine) : Prop :=
  sameVitals st st' \/ lostLife st st'.

(** [erodes g g']: cell by cell, [g'] has the tile of [g], or an [EMPTY]
    tile where [g] has a [WALL_SOFT]. *)
Definition erodes (g g' : Grid) : Prop :=
  forall r c,
    tileAt g' r c = tileAt g r c \/
    (tileAt g r c = Some WALL_SOFT /\ tileAt g' r c = Some EMPTY).

Definition progress (st st' : GameEngine) : Prop :=
  score st <= score st' /\ level st' = level st /\
  erodes (grid st) (grid st').


(** ** The bomb list *)

(** No two bombs lie on the same cell. *)
Definition bombsApart (st : GameEngine) : Prop :=
  NoDup (map cellOf (bombs st)).

(** The player's bomb counter agrees with the bomb list: every bomb is the
    player's, the counter is the number of bombs on the board, and it does
    not exceed [maxBombs]. *)
Definition arsenalSound (st : GameEngine) : Prop :=
  Forall (fun b => b_ownerId b = "player"%string) (bombs st) /\
  pl_bombsCount (player st) = Z.of_nat (length (bombs st)) /\
  pl_bombsCount (player st) <= pl_maxBombs (player st).

(** ** Enemies *)

(** [fades e e']: [e'] is the enemy [e] later in the level: the same
    identity and kind, and no more hit points. *)
Definition fades (e e' : Enemy) : Prop :=
  en_id e' = en_id e /\ en_type e' = en_type e /\
  en_isBoss e' = en_isBoss e /\ en_maxHp e' = en_maxHp e /\
  en_speed e' = en_speed e /\ en_hp e' <= en_hp e.

(** [thinned es es']: the list [es'] has no more enemies than [es], and each
    of them is one of [es] later in the level. *)
Definition thinned (es es' : list Enemy) : Prop :=
  (length es' <= length es)%nat /\
  Forall (fun e' => exists e, In e es /\ fades e e') es'.

(** ** Level generation *)

(** The contract of [Math.random()]. *)
Definition randomInRange (rand : nat -> Q) : Prop :=
  forall n, (0 <= rand n)%Q /\ (rand n < 1)%Q.

Definition isBorder (r c : Z) : bool :=
  (r =? 0) || (c =? 0) || (r =? GRID_ROWS - 1) || (c =? GRID_COLS - 1).

Definition isPillar (r c : Z) : bool := (r mod 2 =? 0) && (c mod 2 =? 0).

Definition isSpawnCell (r c : Z) : bool :=
  ((r =? 1) && (c =? 1)) || ((r =? 1) && (c =? 2)) || ((r =? 2) && (c =? 1)).

(** The cells for which [initLevel] draws a random number. *)
Definition isFreeCell (r c : Z) : bool :=
  negb (isBorder r c) && negb (isPillar r c) && negb (isSpawnCell r c).

(** The tiles a cell of a fresh level can hold: a hard wall on the border
    and on the pillars, nothing on the three spawn cells, nothing or a soft
    wall elsewhere. *)
Definition tileFits (r c : Z) (t : TileType) : Prop :=
  if isBorder r c || isPillar r c then t = WALL_HARD
  else if isSpawnCell r c then t = EMPTY
  else t = EMPTY \/ t = WALL_SOFT.

(** The tiles of a level on which every draw fell below the wall density:
    a soft wall on every free cell. *)
Definition tileCrowded (r c : Z) (t : TileType) : Prop :=
  if isSpawnCell r c then True else t <> EMPTY.

(** A board of [GRID_ROWS] rows of [GRID_COLS] tiles, each satisfying [P]. *)
Definition boardOf (P : Z -> Z -> TileType -> Prop) (g : Grid) : Prop :=
  Forall2 (fun r line => Forall2 (P r) (indices GRID_COLS) line)
          (indices GRID_ROWS) g.

(** The test [dist > 8] of [spawnEnemy]. *)
Definition farFromSpawn (r c : Z) : bool :=
  8 <? Z.abs (r - 1) + Z.abs (c - 1).

(** What [spawnEnemy] pushes at level [lvl] on the board [g]: an enemy
    standing on an empty interior cell more than 8 steps from the spawn cell,
    alive, at full health (3 for a boss, 1 otherwise), with no path; a boss
    only from level 3 on, and then a chaser; at least the base speed. *)
Definition spawned (lvl : Z) (g : Grid) (e : Enemy) : Prop :=
  (exists r c,
     1 <= r <= GRID_ROWS - 2 /\ 1 <= c <= GRID_COLS - 2 /\
     en_x e = px c /\ en_y e = px r /\
     tileAt g r c = Some EMPTY /\ farFromSpawn r c = true) /\
  en_isDead e = false /\ en_path e = [] /\
  en_hp e = en_maxHp e /\ en_hp e = (if en_isBoss e then 3 else 1) /\
  (en_isBoss e = true -> 3 <= lvl /\ en_type e = CHASER) /\
  (ENEMY_SPEED_BASE <= en_speed e)%Q.

(** What a call of [spawnEnemy] returning [res] has done to [st]: only the
    enemy list and the count of random draws differ; on success one enemy
    has been pushed, on failure none. *)
Definition spawnResult (lvl : Z) (st : GameEngine) (res : bool * GameEngine)
    : Prop :=
  let st' := snd res in
  st' = set_enemies (enemies st') (set_randCalls (randCalls st') st) /\
  if fst res
  then exists e, enemies st' = enemies st ++ [e] /\ spawned lvl (grid st) e
  else enemies st' = enemies st.

(** An oracle whose draws are all below the lowest wall density. *)
Definition randLow : nat -> Q := fun _ => 0.1%Q.

(** A board with no room for an enemy: no empty cell lies more than 8 steps
    from the spawn cell. *)
Definition noRoom (g : Grid) : Prop :=
  forall r c, tileAt g r c = Some EMPTY -> farFromSpawn r c = false.

(** ** Runs that have ended *)

(** The flags for which [loop] skips [update]. *)
Definition halted (st : GameEngine) : bool :=
  isGameOver st || isVictory st || isLevelComplete st.

(** The world of the level, the counters of the run and the random source
    are the same in [st'] as in [st]. *)
Definition sameWorld (st st' : GameEngine) : Prop :=
  grid st' = grid st /\ bombs st' = bombs st /\
  explosions st' = explosions st /\ powerUps st' = powerUps st /\
  enemies st' = enemies st /\ score st' = score st /\
  lives st' = lives st /\ gameTime st' = gameTime st /\
  level st' = level st /\ isGameOver st' = isGameOver st /\
  isVictory st' = isVictory st /\ isLevelComplete st' = isLevelComplete st /\
  randCalls st' = randCalls st.

(** ** Controls *)

(** The keys [handleKeyDown] and [handleKeyUp] have a case for, and the
    names [setVirtualInput] has one for. *)
Definition mappedKeys : list string :=
  ["ArrowUp"; "w"; "W"; "ArrowDown"; "s"; "S"; "ArrowLeft"; "a"; "A";
   "ArrowRight"; "d"; "D"; " "]%string.

Definition virtualKeys : list string :=
  ["UP"; "DOWN"; "LEFT"; "RIGHT"; "BOMB"]%string.

(** The bomb key has been held for a tick: the latch [bombPressed] is set. *)
Definition latched (i : Input) : Input :=
  if in_bomb i && negb (in_bombPressed i)
  then mkInput (in_up i) (in_down i) (in_left i) (in_right i) (in_bomb i) true
  else i.

(** ** Power-ups *)

(** [dropsOn st st']: between [st] and [st'] the board has only eroded, and
    every power-up of [st'] was there in [st] or lies on a cell whose soft
    wall has gone in between. *)
Definition dropsOn (st st' : GameEngine) : Prop :=
  erodes (grid st) (grid st') /\
  forall p, In p (powerUps st') ->
    In p (powerUps st) \/
    (tileAt (grid st) (pu_row p) (pu_col p) = Some WALL_SOFT /\
     tileAt (grid st') (pu_row p) (pu_col p) = Some EMPTY).

(** [upgraded p p']: the player [p'] has at least the equipment of [p], up
    to the caps the power-ups apply (speed 9, the super bomb's range 12). *)
Definition upgraded (p p' : Player) : Prop :=
  pl_maxBombs p <= pl_maxBombs p' /\
  Z.min (pl_bombRange p) 12 <= pl_bombRange p' /\
  (Qminb (pl_speed p) 9 <= pl_speed p')%Q /\
  ((pl_speed p <= 9)%Q -> (pl_speed p' <= 9)%Q).

(** [grazed t e e']: [e'] is the enemy [e] after the tick whose clock
    reading is [t]; if it is a boss, it is unhurt, or it has lost exactly
    one hit point and its last hit is stamped [t]. *)
Definition grazed (t : Q) (e e' : Enemy) : Prop :=
  fades e e' /\
  (en_isBoss e = true ->
   (en_hp e' = en_hp e /\ en_lastHitTime e' = en_lastHitTime e) \/
   (en_hp e' = en_hp e - 1 /\ en_lastHitTime e' = t)).

(** ** The blast of one bomb *)





(** ** States and oracles of the examples *)

(** A clock whose first reading is [t0] and whose later readings are [t1]. *)
Definition clockThen (t0 t1 : Q) : nat -> Q :=
  fun n => match n with O => t0 | S _ => t1 end.

(** The last life and the last enemy under one bomb: the player stands on a
    bomb of range 2 whose fuse is about to end, with one life left and no
    invulnerability; the only enemy stands on the next cell. *)
Definition lastLifeLastEnemy : GameEngine :=
  set_bombs [mkBomb 0 1 1 10 2 "player"]
    (set_enemies [walkerAt 2 1]
       (set_lives 1
          (set_player (set_pl_bombsCount 1 createPlayer) arena))).

(** The state in which [update] reaches "7. Check Player-Enemy Collision". *)
Definition beforeContact (rand clock : nat -> Q) (dt : Q) (st : GameEngine)
    : GameEngine :=
  updatePowerUps
    (updateAI rand dt (checkLevelComplete (beforeLevelCheck rand clock dt st))).
(* ===================================================================== *)
(** * Properties *)

(** ** Array helpers *)

Lemma findIndex_Some {A} (p : A -> bool) (l : list A) (i : nat) :
  findIndex p l = Some i ->
  exists a, l !! i = Some a /\ p a = true /\
            forall j b, (j < i)%nat -> l !! j = Some b -> p b = false.
Proof.
  revert i. induction l as [|a l IH]; simpl; intros i H; [discriminate|].
  destruct (p a) eqn:Hp.
  - injection H as <-. exists a. repeat split; auto. intros j b Hj. lia.
  - destruct (findIndex p l) as [k|] eqn:Hk; simpl in H; [|discriminate].
    injection H as <-. destruct (IH k eq_refl) as (a' & Hl & Hpa & Hmin).
    exists a'. repeat split; auto.
    intros [|j] b Hj Hb; simpl in Hb.
    + congruence.
    + apply (Hmin j b); [lia|exact Hb].
Qed.

Lemma findIndex_None {A} (p : A -> bool) (l : list A) :
  findIndex p l = None -> existsb p l = false.
Proof.
  induction l as [|a l IH]; simpl; auto.
  destruct (p a); [discriminate|].
  destruct (findIndex p l); simpl; [discriminate|auto].
Qed.

Lemma existsb_findIndex {A} (p : A -> bool) (l : list A) :
  existsb p l = false -> findIndex p l = None.
Proof.
  induction l as [|a l IH]; simpl; auto.
  destruct (p a); simpl; [discriminate|].
  intros H. rewrite (IH H). reflexivity.
Qed.

Lemma inGrid_bounds c r :
  inGrid c r = true ->
  (r <? 0) || (GRID_ROWS <=? r) || (c <? 0) || (GRID_COLS <=? c) = false.
Proof.
  unfold inGrid. intros H. apply negb_true_iff in H.
  repeat (apply orb_false_elim in H; destruct H as [H ?]).
  rewrite H, H0, H1, H2. reflexivity.
Qed.

Lemma tileAt_setTile g r c t old :
  tileAt g r c = Some old -> tileAt (setTile g r c t) r c = Some t.
Proof.
  unfold tileAt, setTile. destruct (_ || _); [discriminate|].
  destruct (g !! Z.to_nat r) as [line|] eqn:Hl; [|discriminate].
  intros Hc. rewrite list_lookup_alter_eq, Hl. cbn.
  apply list_lookup_insert_eq. eapply lookup_lt_Some. exact Hc.
Qed.

(** ** Pathfinding *)

Module AIFacts.
Import AI AIVocabulary.

Lemma backLinks_wellLinked walk start n :
  wellLinked walk start n ->
  exists rest,
    rev (backLinks n) = start :: rest /\
    Forall (fun p => walk (col p) (row p) = true) rest.
Proof.
  induction n as [x y g h f|x y g h f p IH] using PathNode_links_ind;
    simpl; intros H.
  - exists []. split; [now rewrite <- H|constructor].
  - destruct H as [Hw Hp]. destruct (IH Hp) as (rest & Hrev & Hall).
    exists (rest ++ [mkGridPoint x y]). split.
    + change (backLinks (mkPathNode x y g h f (Some p)))
        with (mkGridPoint x y :: backLinks p).
      simpl. rewrite Hrev. reflexivity.
    + apply Forall_app. split; [exact Hall|]. constructor; [exact Hw|constructor].
Qed.

Lemma visit_wellLinked walk start target closedSet current openSet nb :
  wellLinked walk start current ->
  Forall (wellLinked walk start) openSet ->
  Forall (wellLinked walk start) (visit walk target closedSet current openSet nb).
Proof.
  intros Hc Ho. unfold visit. destruct nb as [nx ny].
  destruct (inClosed closedSet nx ny); [exact Ho|].
  destruct (walk nx ny) eqn:Hw; simpl; [|exact Ho].
  destruct (findIndex _ openSet) as [i|] eqn:Hi.
  - destruct (findIndex_Some _ _ _ Hi) as (a & Ha & Hp & _).
    rewrite Ha. destruct (_ <? _); [|exact Ho].
    apply Forall_insert; [exact Ho|].
    apply andb_prop in Hp. destruct Hp as [Hx Hy].
    apply Z.eqb_eq in Hx, Hy. simpl. rewrite Hx, Hy. auto.
  - apply Forall_app. split; [exact Ho|].
    constructor; [|constructor]. simpl. auto.
Qed.

Lemma search_wellLinked walk start target fuel :
  forall openSet closedSet path,
    Forall (wellLinked walk start) openSet ->
    search walk target fuel openSet closedSet = Some path ->
    exists rest,
      path = start :: rest /\
      Forall (fun p => walk (col p) (row p) = true) rest.
Proof.
  induction fuel as [|fuel IH]; intros openSet closedSet path Ho Hs.
  - destruct openSet; discriminate.
  - destruct openSet as [|n0 tl] eqn:Eo; [discriminate|].
    rewrite <- Eo in *. clear Eo n0 tl.
    assert (Hs' :
      match openSet !! lowestIndex openSet with
      | None => None
      | Some current =>
        if (node_x current =? col target) && (node_y current =? row target)
        then Some (rev (backLinks current))
        else
          search walk target fuel
            (fold_left
               (visit walk target
                  ((node_x current, node_y current) :: closedSet) current)
               (neighbors current) (delete (lowestIndex openSet) openSet))
            ((node_x current, node_y current) :: closedSet)
      end = Some path).
    { destruct openSet; [discriminate|exact Hs]. }
    clear Hs. destruct (openSet !! lowestIndex openSet) as [current|] eqn:Hcur;
      [|discriminate].
    assert (Hc : wellLinked walk start current).
    { eapply Forall_lookup_1; eauto. }
    destruct (_ && _).
    + injection Hs' as <-. apply backLinks_wellLinked. exact Hc.
    + eapply IH; [|exact Hs'].
      assert (Hd : Forall (wellLinked walk start)
                     (delete (lowestIndex openSet) openSet)).
      { apply Forall_delete. exact Ho. }
      revert Hd. generalize (delete (lowestIndex openSet) openSet).
      generalize (neighbors current).
      intros nbs. induction nbs as [|nb nbs IHn]; simpl; intros l Hl; auto.
      apply IHn. apply visit_wellLinked; auto.
Qed.

(** The search depends on the grid and the bombs only through the
    walkability test. *)
Lemma search_ext walk1 walk2 target fuel :
  (forall c r, walk1 c r = walk2 c r) ->
  forall openSet closedSet,
    search walk1 target fuel openSet closedSet =
    search walk2 target fuel openSet closedSet.
Proof.
  intros Hw. induction fuel as [|fuel IH]; intros openSet closedSet.
  - reflexivity.
  - destruct openSet as [|n0 tl]; [reflexivity|].
    cbn [search]. destruct (_ !! _) as [current|]; [|reflexivity].
    destruct (_ && _); [reflexivity|].
    rewrite IH. f_equal.
    generalize (delete (lowestIndex (n0 :: tl)) (n0 :: tl)).
    generalize (neighbors current).
    intros nbs. induction nbs as [|nb nbs IHn]; simpl; intros l; auto.
    rewrite IHn. f_equal.
    unfold visit. destruct nb as [nx ny]. rewrite Hw. reflexivity.
Qed.

Lemma findPath_eq start target grid bombs :
  findPath start target grid bombs =
  search (fun c r => isWalkable c r grid bombs false) target MAX_ITERATIONS
         [startNode start target] [].
Proof. reflexivity. Qed.

Lemma search_at_target walk target fuel n closedSet :
  node_x n = col target -> node_y n = row target ->
  search walk target (S fuel) [n] closedSet = Some (rev (backLinks n)).
Proof.
  intros Hx Hy. cbn [search lowestIndex lowestFrom lookup list_lookup].
  rewrite Hx, Hy, !Z.eqb_refl. reflexivity.
Qed.

(** C10. When start and target are the same cell, [findPath] returns the
    one-cell path [[start]] for every grid and every bomb list: the start
    cell is returned without any walkability test, so also when it is a wall
    or holds a bomb. *)
Theorem findPath_start_is_target (start : GridPoint) (grid : Grid)
    (bombs : list GridPoint) :
  findPath start start grid bombs = Some [start].
Proof.
  rewrite findPath_eq.
  replace MAX_ITERATIONS with (S (Nat.pred MAX_ITERATIONS)) by reflexivity.
  rewrite search_at_target by reflexivity.
  destruct start; reflexivity.
Qed.

Lemma isWalkable_no_bomb c r grid bombs :
  isWalkable c r grid bombs false = true -> ~ In (mkGridPoint c r) bombs.
Proof.
  unfold isWalkable. intros H Hin.
  destruct (_ || _); [discriminate|].
  destruct (notEmpty _); [discriminate|].
  cbn [negb andb] in H.
  destruct (some _ bombs) eqn:Hs; [discriminate|].
  unfold some in Hs.
  assert (Ht : existsb (fun b => (col b =? c) && (row b =? r)) bombs = true).
  { apply existsb_exists. exists (mkGridPoint c r). split; [exact Hin|].
    cbn. now rewrite !Z.eqb_refl. }
  congruence.
Qed.

(** C3 (as the code has it). A path returned by [findPath] begins with the
    start cell, and no cell after that first one is occupied by one of the
    supplied bombs. The start cell itself is never tested. *)
Theorem findPath_avoids_bombs_after_start (start target : GridPoint)
    (grid : Grid) (bombs : list GridPoint) (path : list GridPoint) :
  findPath start target grid bombs = Some path ->
  exists rest,
    path = start :: rest /\ forall p, In p rest -> ~ In p bombs.
Proof.
  rewrite findPath_eq. generalize MAX_ITERATIONS. intros fuel H.
  apply (search_wellLinked _ start) in H.
  - destruct H as (rest & -> & Hall). exists rest. split; [reflexivity|].
    intros p Hp. rewrite Forall_forall in Hall.
    apply list_elem_of_In in Hp. specialize (Hall p Hp).
    destruct p as [c r]. eapply isWalkable_no_bomb. exact Hall.
  - constructor; [|constructor]. cbn. destruct start; reflexivity.
Qed.

Lemma findPath_avoids_bombs_after_start_witness :
  exists rest,
    [mkGridPoint 1 1; mkGridPoint 2 1; mkGridPoint 3 1] =
      mkGridPoint 1 1 :: rest /\
    forall p, In p rest -> ~ In p [mkGridPoint 1 1].
Proof.
  apply (findPath_avoids_bombs_after_start (mkGridPoint 1 1) (mkGridPoint 3 1)
           arenaGrid [mkGridPoint 1 1]).
  vm_compute. reflexivity.
Defined.

(** C3, counterexample. An enemy standing on a bomb at (1,1) asks for a path
    to (3,1): the returned path starts with the occupied cell (1,1). *)
Lemma findPath_returns_bomb_cell :
  findPath (mkGridPoint 1 1) (mkGridPoint 3 1) arenaGrid [mkGridPoint 1 1] =
    Some [mkGridPoint 1 1; mkGridPoint 2 1; mkGridPoint 3 1] /\
  In (mkGridPoint 1 1) [mkGridPoint 1 1; mkGridPoint 2 1; mkGridPoint 3 1] /\
  In (mkGridPoint 1 1) [mkGridPoint 1 1].
Proof.
  split; [vm_compute; reflexivity|]. split; left; reflexivity.
Qed.

Lemma manhattanOptimal_allCells : forallb manhattanOptimal allCells = true.
Proof. vm_compute. reflexivity. Qed.

Lemma inGrid_allCells dx dy :
  inGrid dx dy = true -> In (mkGridPoint dx dy) allCells.
Proof.
  unfold inGrid, GRID_COLS, GRID_ROWS. intros H.
  apply negb_true_iff in H. repeat (apply orb_false_elim in H; destruct H as [H ?]).
  apply Z.ltb_ge in H. apply Z.leb_gt in H0. apply Z.ltb_ge in H1.
  apply Z.leb_gt in H2.
  unfold allCells. apply in_flat_map. exists (Z.to_nat dx). split.
  - apply in_seq. unfold GRID_COLS. lia.
  - apply in_map_iff. exists (Z.to_nat dy). split.
    + f_equal; lia.
    + apply in_seq. unfold GRID_ROWS. lia.
Qed.

Lemma isWalkable_open grid :
  (forall c r, inGrid c r = true -> tileAt grid r c = Some EMPTY) ->
  forall c r, isWalkable c r grid [] false = inGrid c r.
Proof.
  intros Hg c r. unfold isWalkable, inGrid.
  destruct (_ || _) eqn:Hb; [reflexivity|].
  rewrite Hg; [reflexivity|]. unfold inGrid. now rewrite Hb.
Qed.

Lemma manhattanOptimal_eq target :
  manhattanOptimal target =
  match search inGrid target MAX_ITERATIONS
               [startNode (mkGridPoint 0 0) target] [] with
  | Some path =>
      Z.of_nat (length path) =? Z.abs (col target) + Z.abs (row target) + 1
  | None => false
  end.
Proof. reflexivity. Qed.

(** C6. On a board whose cells are all [EMPTY] and with no bombs, [findPath]
    from (0,0) to any cell (dx,dy) of the board returns a path, and the path
    has |dx| + |dy| + 1 cells. *)
Theorem findPath_open_grid_manhattan (grid : Grid) (dx dy : Z) :
  (forall c r, inGrid c r = true -> tileAt grid r c = Some EMPTY) ->
  inGrid dx dy = true ->
  exists path,
    findPath (mkGridPoint 0 0) (mkGridPoint dx dy) grid [] = Some path /\
    Z.of_nat (length path) = Z.abs dx + Z.abs dy + 1.
Proof.
  intros Hg Hin.
  pose proof manhattanOptimal_allCells as Hall.
  rewrite forallb_forall in Hall.
  specialize (Hall _ (inGrid_allCells dx dy Hin)).
  rewrite manhattanOptimal_eq in Hall.
  rewrite findPath_eq.
  rewrite (search_ext _ inGrid); [|apply isWalkable_open; exact Hg].
  revert Hall. generalize MAX_ITERATIONS. intros fuel Hall.
  destruct (search _ _ _ _ _) as [path|]; [|discriminate].
  exists path. split; [reflexivity|].
  apply Z.eqb_eq in Hall. exact Hall.
Qed.

Lemma tileAt_emptyGrid c r :
  inGrid c r = true -> tileAt emptyGrid r c = Some EMPTY.
Proof.
  unfold inGrid, GRID_COLS, GRID_ROWS. intros H.
  apply negb_true_iff in H. repeat (apply orb_false_elim in H; destruct H as [H ?]).
  apply Z.ltb_ge in H. apply Z.leb_gt in H0. apply Z.ltb_ge in H1.
  apply Z.leb_gt in H2.
  unfold tileAt, emptyGrid.
  destruct (r <? 0) eqn:Hr; [lia|]. destruct (c <? 0) eqn:Hc; [lia|].
  cbn [orb].
  rewrite lookup_replicate_2 by (unfold GRID_ROWS; lia).
  apply lookup_replicate_2. unfold GRID_COLS. lia.
Qed.

Lemma findPath_open_grid_manhattan_witness :
  exists path,
    findPath (mkGridPoint 0 0) (mkGridPoint 14 12) emptyGrid [] = Some path /\
    Z.of_nat (length path) = Z.abs 14 + Z.abs 12 + 1.
Proof.
  apply (findPath_open_grid_manhattan emptyGrid 14 12).
  - apply tileAt_emptyGrid.
  - reflexivity.
Defined.

End AIFacts.

(* ===================================================================== *)
(** ** Frame properties of the engine's phases *)

Section Frames.

Variable rand : nat -> Q.
Variable clock : nat -> Q.

Lemma quiet_refl st : quiet st st.
Proof. repeat split. Qed.

Lemma quiet_trans st1 st2 st3 : quiet st1 st2 -> quiet st2 st3 -> quiet st1 st3.
Proof.
  unfold quiet, keepsLevel, keepsLife.
  intros (H1 & H2) (H3 & H4). repeat split; intuition congruence.
Qed.

Lemma keepsLevel_refl st : keepsLevel st st.
Proof. repeat split. Qed.

Lemma keepsLevel_trans st1 st2 st3 :
  keepsLevel st1 st2 -> keepsLevel st2 st3 -> keepsLevel st1 st3.
Proof. unfold keepsLevel. intuition congruence. Qed.

Lemma quiet_random st : quiet st (snd (random rand st)).
Proof. frame. Qed.

Lemma quiet_set_bombs v st : quiet st (set_bombs v st).
Proof. frame. Qed.

Lemma quiet_set_enemies v st : quiet st (set_enemies v st).
Proof. frame. Qed.

Lemma quiet_placeBomb st : quiet st (placeBomb rand st).
Proof. unfold placeBomb. repeat break_if; frame. Qed.

Lemma quiet_updatePlacement st : quiet st (updatePlacement rand st).
Proof.
  unfold updatePlacement. break_if; [|apply quiet_refl].
  eapply quiet_trans; [|apply quiet_placeBomb]. frame.
Qed.

Lemma quiet_updatePlayer dt st : quiet st (updatePlayer dt st).
Proof.
  unfold updatePlayer. destruct (inputVector _) as [dx dy].
  break_if; [destruct (moveEntity _ _ _ _ _ _ _); break_if|]; frame.
Qed.

Lemma quiet_destroyBlock c r st : quiet st (destroyBlock rand c r st).
Proof. unfold destroyBlock. cbn. break_if; frame. Qed.

Lemma quiet_blastRay n : forall i bomb dx dy dir st,
  quiet st (snd (blastRay rand n i bomb dx dy dir st)).
Proof.
  induction n as [|n IH]; intros; cbn [blastRay]; [apply quiet_refl|].
  break_if; [apply quiet_refl|].
  destruct (tileAt _ _ _) as [[| |]|] eqn:Ht;
    try (apply quiet_refl);
    (destruct (findIndex _ _); [frame|]);
    try (apply quiet_destroyBlock);
    specialize (IH (i + 1) bomb dx dy dir st);
    destruct (blastRay _ _ _ _ _ _ _ _); exact IH.
Qed.

Lemma quiet_rays bomb ds : forall st, quiet st (snd (rays rand bomb ds st)).
Proof.
  induction ds as [|[[dx dy] dir] ds IH]; intros st; cbn [rays];
    [apply quiet_refl|].
  unfold ray.
  pose proof (quiet_blastRay (Z.to_nat (b_range bomb)) 1 bomb dx dy dir st) as H1.
  destruct (blastRay _ _ _ _ _ _ _ _) as [cells st1].
  specialize (IH st1). destruct (rays _ _ _ _) as [more st2].
  eapply quiet_trans; eauto.
Qed.

Lemma quiet_explodeBomb bomb st : quiet st (explodeBomb rand bomb st).
Proof.
  unfold explodeBomb.
  pose proof (quiet_rays bomb directions st) as H.
  destruct (rays _ _ _ _) as [cells st1].
  eapply quiet_trans; [exact H|]. frame.
Qed.

Lemma quiet_bombStep dt i st : quiet st (bombStep rand dt i st).
Proof.
  unfold bombStep. destruct (_ !! _) as [b|]; [|apply quiet_refl].
  break_if; [|frame].
  eapply quiet_trans; [apply quiet_set_bombs|].
  eapply quiet_trans; [apply quiet_explodeBomb|].
  break_if; frame.
Qed.

Lemma quiet_downFrom (body : nat -> GameEngine -> GameEngine) n :
  (forall i st, quiet st (body i st)) ->
  forall st, quiet st (downFrom n body st).
Proof.
  intros Hb. induction n as [|n IH]; intros st; cbn; [apply quiet_refl|].
  eapply quiet_trans; [apply Hb|apply IH].
Qed.

Lemma quiet_updateBombs dt st : quiet st (updateBombs rand dt st).
Proof. apply quiet_downFrom. intros. apply quiet_bombStep. Qed.

Lemma quiet_hitEnemy t cell e st : quiet st (snd (hitEnemy t cell e st)).
Proof. unfold hitEnemy. repeat break_if; frame. Qed.

Lemma quiet_hitEnemies t cell es : forall st,
  quiet st (snd (hitEnemies t cell es st)).
Proof.
  induction es as [|e es IH]; intros st; cbn [hitEnemies]; [apply quiet_refl|].
  pose proof (quiet_hitEnemy t cell e st) as H1.
  destruct (hitEnemy _ _ _ _) as [e' st1].
  specialize (IH st1). destruct (hitEnemies _ _ _ _) as [rest st2].
  eapply quiet_trans; eauto.
Qed.

Lemma quiet_updateEnemyAI dt e st : quiet st (snd (updateEnemyAI rand dt e st)).
Proof.
  unfold updateEnemyAI, random.
  repeat (lazy beta iota;
    first [ match goal with
            | |- context [match ?x with WALKER => _ | CHASER => _ end] =>
                destruct x eqn:?
            end
          | break_if
          | match goal with
            | |- context [let '(_, _) := ?p in _] => destruct p eqn:?
            end ]);
  cbn [snd]; frame.
Qed.

Lemma quiet_updateEnemies dt es : forall st,
  quiet st (snd (updateEnemies rand dt es st)).
Proof.
  induction es as [|e es IH]; intros st; cbn [updateEnemies]; [apply quiet_refl|].
  pose proof (quiet_updateEnemyAI dt e st) as H1.
  destruct (updateEnemyAI _ _ _ _) as [e' st1].
  specialize (IH st1). destruct (updateEnemies _ _ _ _) as [rest st2].
  eapply quiet_trans; eauto.
Qed.

Lemma quiet_updateAI dt st : quiet st (updateAI rand dt st).
Proof.
  unfold updateAI. break_if; [|apply quiet_refl].
  pose proof (quiet_updateEnemies dt (enemies st) st) as H.
  destruct (updateEnemies _ _ _ _) as [es st1].
  eapply quiet_trans; [exact H|apply quiet_set_enemies].
Qed.

Lemma quiet_applyPowerUp p st : quiet st (applyPowerUp p st).
Proof. unfold applyPowerUp. destruct (pu_type p); frame. Qed.

Lemma quiet_powerUpStep i st : quiet st (powerUpStep i st).
Proof.
  unfold powerUpStep. destruct (_ !! _) as [p|]; [|apply quiet_refl].
  break_if; [|apply quiet_refl].
  eapply quiet_trans; [apply quiet_applyPowerUp|frame].
Qed.

Lemma quiet_updatePowerUps st : quiet st (updatePowerUps st).
Proof. apply quiet_downFrom. intros. apply quiet_powerUpStep. Qed.

Lemma levelCompleteCalls_emit e st :
  levelCompleteCalls (emit e st) =
  (levelCompleteCalls st + (if isLevelCompleteEvent e then 1 else 0))%nat.
Proof.
  unfold levelCompleteCalls, emit. cbn.
  rewrite List.filter_app, length_app. cbn.
  destruct (isLevelCompleteEvent e); reflexivity.
Qed.

Lemma quiet_pushStats st : quiet st (pushStats st).
Proof.
  unfold pushStats. repeat split.
  rewrite levelCompleteCalls_emit. cbn. lia.
Qed.

End Frames.

(* ===================================================================== *)
(** ** Bomb placement *)

Section Placement.

Variable rand : nat -> Q.

Lemma some_bombAt c r bs :
  some (bombAt c r) bs = true <->
  exists b, In b bs /\ b_col b = c /\ b_row b = r.
Proof.
  unfold some. rewrite existsb_exists. unfold bombAt.
  split; intros (b & Hin & H); exists b; split; auto.
  - apply andb_prop in H. destruct H as [H1 H2].
    apply Z.eqb_eq in H1, H2. auto.
  - destruct H as [-> ->]. now rewrite !Z.eqb_refl.
Qed.


End Placement.


(* ===================================================================== *)
(** ** Input handling *)

(** The held keys are read by one [if / else if] chain, so a tick moves
    along one axis only: with a vertical and a
    horizontal key held together the horizontal key is ignored, the direction
    is (0, -1) for up and (0, 1) for down, and the scaling by 0.7071 is never
    applied. For every input at least one component is zero. *)
Theorem inputVector_single_axis (i : Input) :
  (fst (inputVector i) = 0%Q \/ snd (inputVector i) = 0%Q) /\
  (in_up i || in_down i = true -> in_left i || in_right i = true ->
   inputVector i = (0%Q, if in_up i then (-1)%Q else 1%Q)).
Proof.
  destruct i as [[] [] [] [] b bp]; cbn; split; auto; discriminate.
Qed.

Lemma inputVector_single_axis_witness :
  inputVector (mkInput true false false true false false) = (0%Q, (-1)%Q).
Proof.
  apply (proj2 (inputVector_single_axis
                  (mkInput true false false true false false)));
    reflexivity.
Defined.

(** C4. The code on a diagonal input, where the claim asks for a diagonal
    move with both components scaled by 1/sqrt 2. Up and right are held
    together. The direction vector is (0, -1): its horizontal component is
    zero and nothing is scaled. Run through
    [update] from the pixel position (48, 144), i.e. the cell (1, 3) whose
    neighbours above and to the right are both free, the player ends at
    (48, 139): a full step of 5 up and no step to the right. *)
Lemma diagonal_input_moves_one_axis :
  let held := mkInput true false false true false false in
  let st := set_input held (set_player (playerAt 48 144) arena) in
  inputVector held = (0%Q, (-1)%Q) /\
  pl_x (player (update randHalf (clockAt 5000) 16 st)) = 48%Q /\
  pl_y (player (update randHalf (clockAt 5000) 16 st)) = 139%Q /\
  tileAt arenaGrid 2 1 = Some EMPTY /\ tileAt arenaGrid 3 2 = Some EMPTY.
Proof. vm_compute. repeat split; reflexivity. Qed.

(* ===================================================================== *)
(** ** The level countdown *)

Section Countdown.

Variable clock : nat -> Q.

(** C2 (as the code has it). When a whole second elapses and the countdown
    thereby reaches zero, [killPlayer] runs. If the player is already dead or
    still invulnerable at that clock reading, lives and [isGameOver] stay as
    they are. Otherwise one life is lost and the player is marked dead, and
    [isGameOver] is set exactly when that was the last life. *)
Theorem countdown_zero_costs_a_life (t dt : Q) (st : GameEngine) :
  Qfloor (t / 1000) <> Qfloor ((t - dt) / 1000) ->
  gameTime st <= 1 ->
  let st' := updateCountdown clock t dt st in
  gameTime st' = gameTime st - 1 /\
  if Qltb (clock (clockCalls st)) (invulnerableUntil st) || pl_isDead (player st)
  then lives st' = lives st /\ isGameOver st' = isGameOver st
  else lives st' = lives st - 1 /\ pl_isDead (player st') = true /\
       isGameOver st' = (lives st <=? 1) || isGameOver st.
Proof.
  intros Hsec Hzero. unfold updateCountdown.
  apply Z.eqb_neq in Hsec. rewrite Hsec. cbn [negb].
  assert (Hle : (gameTime (set_gameTime (gameTime st - 1) st) <=? 0) = true).
  { cbn. apply Z.leb_le. lia. }
  rewrite Hle. unfold killPlayer, performanceNow, invulnerableUntil. cbn.
  destruct (Qltb _ _ || _); cbn; [auto|].
  destruct (lives st - 1 <=? 0) eqn:Hl; cbn.
  - assert (Hl' : (lives st <=? 1) = true) by (apply Z.leb_le; apply Z.leb_le in Hl; lia).
    rewrite Hl'. auto.
  - assert (Hl' : (lives st <=? 1) = false) by (apply Z.leb_gt; apply Z.leb_gt in Hl; lia).
    rewrite Hl'. auto.
Qed.

End Countdown.

Lemma countdown_zero_costs_a_life_witness :
  let st := set_gameTime 1 arena in
  let st' := updateCountdown (clockAt 5000) 5000 16 st in
  gameTime st' = 0 /\ lives st' = 4 /\ pl_isDead (player st') = true /\
  isGameOver st' = false.
Proof.
  pose proof (countdown_zero_costs_a_life (clockAt 5000) 5000 16
                (set_gameTime 1 arena)) as H.
  cbv zeta in H |- *.
  destruct H as [Ht Hrest].
  - vm_compute. discriminate.
  - vm_compute. discriminate.
  - split; [exact Ht|]. exact Hrest.
Defined.

(** C2, counterexample. Five lives, one second left, an enemy far from the
    player, the player alive and no longer invulnerable. The tick that
    crosses the whole second brings the countdown to zero; the player loses
    one life and the run does not enter [GameOver]. *)
Lemma countdown_zero_without_game_over :
  let st := set_enemies [walkerAt 13 11] (set_gameTime 1 arena) in
  let st' := update randHalf (clockAt 5000) 16 st in
  pl_isDead (player st) = false /\
  gameTime st' = 0 /\ lives st' = 4 /\ isGameOver st' = false /\
  events st' = [StatsUpdate (mkGameStats 0 4 1 0)].
Proof. vm_compute. repeat split; reflexivity. Qed.

(* ===================================================================== *)
(** ** Blast rays *)

Section Blast.

Variable rand : nat -> Q.

Lemma raySpan_S bomb dx dy dir i n :
  raySpan bomb dx dy dir i (S n) =
  rayCell bomb dx dy dir i :: raySpan bomb dx dy dir (i + 1) n.
Proof.
  unfold raySpan. cbn [seq map]. rewrite Z.add_0_r. f_equal.
  rewrite <- seq_shift, map_map. apply map_ext. intros k. f_equal. lia.
Qed.

Lemma raySpan_snoc bomb dx dy dir i n :
  raySpan bomb dx dy dir i (S n) =
  raySpan bomb dx dy dir i n ++ [rayCell bomb dx dy dir (i + Z.of_nat n)].
Proof.
  unfold raySpan. rewrite seq_S, map_app. reflexivity.
Qed.

Lemma length_raySpan bomb dx dy dir i n :
  length (raySpan bomb dx dy dir i n) = n.
Proof. unfold raySpan. now rewrite length_map, length_seq. Qed.

(** A ray crosses open space one cell at a time and leaves the state alone. *)
Lemma blastRay_open_prefix bomb dx dy dir st m : forall n i,
  (forall k, (k < m)%nat -> openAt st bomb dx dy (i + Z.of_nat k)) ->
  blastRay rand (m + n) i bomb dx dy dir st =
  (raySpan bomb dx dy dir i m ++
     fst (blastRay rand n (i + Z.of_nat m) bomb dx dy dir st),
   snd (blastRay rand n (i + Z.of_nat m) bomb dx dy dir st)).
Proof.
  induction m as [|m IH]; intros n i Hopen.
  - cbn [plus raySpan seq map app]. rewrite Z.add_0_r.
    now destruct (blastRay _ _ _ _ _ _ _ _).
  - destruct (Hopen 0%nat ltac:(lia)) as (Hin & Htile & Hbomb).
    rewrite Z.add_0_r in Hin, Htile, Hbomb.
    cbn [plus blastRay]. rewrite (inGrid_bounds _ _ Hin), Htile.
    rewrite (existsb_findIndex _ _ Hbomb).
    rewrite IH.
    + rewrite raySpan_S. replace (i + 1 + Z.of_nat m) with (i + Z.of_nat (S m)) by lia.
      reflexivity.
    + intros k Hk. replace (i + 1 + Z.of_nat k) with (i + Z.of_nat (S k)) by lia.
      apply Hopen. lia.
Qed.

(** One blast ray of a bomb with range R, in any direction [(dx, dy)] and
    from any state.
    - In open space (the R cells ahead are on the board, [EMPTY] and free of
      bombs) the ray covers exactly the cells at distances 1..R and changes
      nothing; with the origin cell that makes R + 1 cells.
    - If the first cell that is not open lies at distance k <= R and is a
      [WALL_HARD], the ray covers the cells at distances 1..k-1 only.
    - If it is a [WALL_SOFT] (without a bomb on it), the ray covers the cells
      at distances 1..k, ends there, and [destroyBlock] has turned that cell
      into [EMPTY] and added 10 to the score. *)
Theorem blast_ray_stops_at_walls (st : GameEngine) (bomb : Bomb)
    (dx dy : Z) (dir : Direction) :
  let R := Z.to_nat (b_range bomb) in
  let origin := mkCell (b_col bomb) (b_row bomb) false NONE in
  ((forall i, 1 <= i <= b_range bomb -> openAt st bomb dx dy i) ->
   ray rand bomb (dx, dy, dir) st = (raySpan bomb dx dy dir 1 R, st) /\
   length (origin :: fst (ray rand bomb (dx, dy, dir) st)) = S R) /\
  (forall k : nat,
     1 <= Z.of_nat k <= b_range bomb ->
     (forall i, 1 <= i < Z.of_nat k -> openAt st bomb dx dy i) ->
     let c := b_col bomb + dx * Z.of_nat k in
     let r := b_row bomb + dy * Z.of_nat k in
     (tileAt (grid st) r c = Some WALL_HARD ->
      ray rand bomb (dx, dy, dir) st =
        (raySpan bomb dx dy dir 1 (k - 1), st)) /\
     (inGrid c r = true -> tileAt (grid st) r c = Some WALL_SOFT ->
      some (bombAt c r) (bombs st) = false ->
      let st' := snd (ray rand bomb (dx, dy, dir) st) in
      fst (ray rand bomb (dx, dy, dir) st) = raySpan bomb dx dy dir 1 k /\
      st' = destroyBlock rand c r st /\
      tileAt (grid st') r c = Some EMPTY /\
      score st' = score st + 10)).
Proof.
  intros R origin. split.
  - intros Hopen.
    assert (Hray : ray rand bomb (dx, dy, dir) st =
                   (raySpan bomb dx dy dir 1 R, st)).
    { unfold ray. replace (Z.to_nat (b_range bomb)) with (R + 0)%nat by (subst R; lia).
      rewrite blastRay_open_prefix.
      - cbn [blastRay fst snd]. now rewrite app_nil_r.
      - intros k Hk. apply Hopen. subst R. lia. }
    split; [exact Hray|]. rewrite Hray. cbn [fst length].
    now rewrite length_raySpan.
  - intros k Hk Hopen c r.
    assert (Hsplit : Z.to_nat (b_range bomb) =
                     ((k - 1) + S (Z.to_nat (b_range bomb) - k))%nat) by lia.
    assert (Hpre : forall j, (j < k - 1)%nat ->
                     openAt st bomb dx dy (1 + Z.of_nat j)).
    { intros j Hj. apply Hopen. lia. }
    assert (Hat : 1 + Z.of_nat (k - 1) = Z.of_nat k) by lia.
    split.
    + intros Hhard. unfold ray. rewrite Hsplit.
      rewrite blastRay_open_prefix by exact Hpre.
      rewrite Hat. cbn [blastRay]. fold c r.
      destruct (_ || _); cbn [fst snd]; [now rewrite app_nil_r|].
      rewrite Hhard. cbn [fst snd]. now rewrite app_nil_r.
    + intros Hin Hsoft Hfree. cbv zeta. unfold ray. rewrite Hsplit.
      rewrite blastRay_open_prefix by exact Hpre.
      rewrite Hat. cbn [blastRay]. fold c r.
      rewrite (inGrid_bounds _ _ Hin), Hsoft.
      rewrite (existsb_findIndex _ _ Hfree). cbn [fst snd].
      split.
      * assert (Hspan : raySpan bomb dx dy dir 1 k =
                        raySpan bomb dx dy dir 1 (k - 1) ++
                        [rayCell bomb dx dy dir (Z.of_nat k)]).
        { destruct k as [|k']; [lia|]. rewrite raySpan_snoc.
          replace (S k' - 1)%nat with k' by lia. do 3 f_equal. lia. }
        rewrite Hspan. reflexivity.
      * split; [reflexivity|].
        unfold destroyBlock, random. cbn.
        destruct (Qltb _ _); cbn;
          (split; [eapply tileAt_setTile; exact Hsoft|reflexivity]).
Qed.

End Blast.

Lemma blast_ray_stops_at_walls_witness :
  let bomb := mkBomb 0 1 1 2000 2 "player" in
  let soft := set_grid (setTile arenaGrid 1 3 WALL_SOFT) arena in
  ray randHalf bomb (1, 0, RIGHT) arena =
    ([mkCell 2 1 false RIGHT; mkCell 3 1 true RIGHT], arena) /\
  ray randHalf bomb (0, -1, UP) arena = ([], arena) /\
  fst (ray randHalf bomb (1, 0, RIGHT) soft) =
    [mkCell 2 1 false RIGHT; mkCell 3 1 true RIGHT] /\
  tileAt (grid (snd (ray randHalf bomb (1, 0, RIGHT) soft))) 1 3 = Some EMPTY /\
  score (snd (ray randHalf bomb (1, 0, RIGHT) soft)) = 10.
Proof.
  intros bomb soft.
  split; [|split].
  - apply (proj1 (blast_ray_stops_at_walls randHalf arena bomb 1 0 RIGHT)).
    intros i Hi. assert (Hcase : i = 1 \/ i = 2) by (cbn in Hi; lia).
    destruct Hcase as [-> | ->]; vm_compute; auto.
  - apply (proj1 (proj2 (blast_ray_stops_at_walls randHalf arena bomb 0 (-1) UP)
                   1%nat ltac:(cbn; lia) ltac:(intros i Hi; lia))).
    vm_compute. reflexivity.
  - pose proof (proj2 (proj2 (blast_ray_stops_at_walls randHalf soft bomb 1 0 RIGHT)
                   2%nat ltac:(cbn; lia)
                   ltac:(intros i Hi; assert (i = 1) as -> by lia;
                         vm_compute; auto))
                  ltac:(reflexivity) ltac:(reflexivity) ltac:(reflexivity))
      as (Hcells & _ & Htile & Hscore).
    split; [exact Hcells|]. split; [exact Htile|exact Hscore].
Defined.

(* ===================================================================== *)
(** ** Invulnerability *)

Section Invulnerability.

Variable rand : nat -> Q.
Variable clock : nat -> Q.

Lemma Qltb_lt a b : Qltb a b = true <-> (a < b)%Q.
Proof.
  unfold Qltb. rewrite negb_true_iff. split.
  - intros H. apply Qnot_le_lt. intros Hle.
    apply Qle_bool_iff in Hle. congruence.
  - intros H. destruct (Qle_bool b a) eqn:Hb; [|reflexivity].
    apply Qle_bool_iff in Hb. exfalso. exact (Qlt_not_le _ _ H Hb).
Qed.

Lemma calm_refl st : calm clock st st.
Proof. repeat split; auto. Qed.

Lemma calm_trans st1 st2 st3 :
  calm clock st1 st2 -> calm clock st2 st3 -> calm clock st1 st3.
Proof.
  intros (Hc1 & Hi1 & Hl1) (Hc2 & Hi2 & Hl2). repeat split.
  - lia.
  - congruence.
  - intros H. rewrite Hl2, Hl1; auto.
    + intros k Hk. apply H. lia.
    + intros k Hk. rewrite Hi1. apply H. lia.
Qed.

Lemma quiet_calm st st' : quiet st st' -> calm clock st st'.
Proof.
  intros (_ & Hl & Hc & Hi). repeat split; auto. lia.
Qed.

Lemma calm_killPlayer st : calm clock st (killPlayer clock st).
Proof.
  unfold killPlayer, performanceNow.
  destruct (Qltb _ _) eqn:Hinv; cbn [orb].
  - repeat split; cbn; auto.
  - destruct (pl_isDead _); [repeat split; cbn; auto|].
    cbn. destruct (_ <=? _); (repeat split; cbn; auto);
      intros H; specialize (H (clockCalls st) ltac:(lia));
      apply Qltb_lt in H; unfold invulnerableUntil in H; cbn in Hinv; congruence.
Qed.

Lemma calm_fold {A} (f : GameEngine -> A -> GameEngine) (l : list A) :
  (forall st a, calm clock st (f st a)) ->
  forall st, calm clock st (fold_left f l st).
Proof.
  intros Hf. induction l as [|a l IH]; intros st; cbn; [apply calm_refl|].
  eapply calm_trans; [apply Hf|apply IH].
Qed.

Lemma calm_downFrom (body : nat -> GameEngine -> GameEngine) n :
  (forall i st, calm clock st (body i st)) ->
  forall st, calm clock st (downFrom n body st).
Proof.
  intros Hb. induction n as [|n IH]; intros st; cbn; [apply calm_refl|].
  eapply calm_trans; [apply Hb|apply IH].
Qed.

Lemma calm_cellDamage t st cell : calm clock st (cellDamage clock t st cell).
Proof.
  unfold cellDamage. cbv zeta.
  match goal with
  | |- context [hitEnemies t cell (enemies ?s) ?s] => set (st1 := s)
  end.
  assert (H1 : calm clock st st1).
  { subst st1. destruct (_ && _); [apply calm_killPlayer|apply calm_refl]. }
  pose proof (quiet_hitEnemies t cell (enemies st1) st1) as H2.
  destruct (hitEnemies _ _ _ _) as [es st2]. cbn [snd] in H2.
  eapply calm_trans; [exact H1|].
  eapply calm_trans; [apply quiet_calm; exact H2|].
  apply quiet_calm. apply quiet_set_enemies.
Qed.

Lemma quiet_set_explosions v st : quiet st (set_explosions v st).
Proof. repeat split. Qed.

Lemma calm_explosionStep t dt i st :
  calm clock st (explosionStep clock t dt i st).
Proof.
  unfold explosionStep. destruct (_ !! _) as [e|]; [|apply calm_refl].
  eapply calm_trans; [apply quiet_calm, quiet_set_explosions|].
  match goal with
  | |- calm _ ?s (if _ then set_explosions _ ?s' else ?s') =>
      assert (H : calm clock s s') by (apply calm_fold; intros; apply calm_cellDamage)
  end.
  destruct (Qleb _ _); [|exact H].
  eapply calm_trans; [exact H|apply quiet_calm, quiet_set_explosions].
Qed.

Lemma calm_updateExplosions t dt st :
  calm clock st (updateExplosions clock t dt st).
Proof. apply calm_downFrom. intros. apply calm_explosionStep. Qed.

Lemma calm_checkLevelComplete st : calm clock st (checkLevelComplete st).
Proof.
  unfold checkLevelComplete. destruct (_ && _); repeat split; cbn; auto.
Qed.

Lemma calm_updateContact t st : calm clock st (updateContact clock t st).
Proof.
  unfold updateContact. destruct (Qltb _ _); [|apply calm_refl].
  apply calm_fold. intros s e.
  destruct (touches _ _); [apply calm_killPlayer|apply calm_refl].
Qed.

Lemma calm_updateCountdown t dt st :
  calm clock st (updateCountdown clock t dt st).
Proof.
  unfold updateCountdown. destruct (negb _); [|apply calm_refl].
  destruct (_ <=? _).
  - eapply calm_trans; [|apply calm_killPlayer]. repeat split; cbn; auto.
  - repeat split; cbn; auto.
Qed.

Lemma calm_update dt st : calm clock st (update rand clock dt st).
Proof.
  unfold update, performanceNow.
  eapply calm_trans; [|apply quiet_calm, quiet_pushStats].
  eapply calm_trans; [|apply calm_updateCountdown].
  eapply calm_trans; [|apply calm_updateContact].
  eapply calm_trans; [|apply quiet_calm, quiet_updatePowerUps].
  eapply calm_trans; [|apply quiet_calm, quiet_updateAI].
  eapply calm_trans; [|apply calm_checkLevelComplete].
  eapply calm_trans; [|apply calm_updateExplosions].
  eapply calm_trans; [|apply quiet_calm, quiet_updateBombs].
  eapply calm_trans; [|apply quiet_calm, quiet_updatePlacement].
  eapply calm_trans; [|apply quiet_calm, quiet_updatePlayer].
  repeat split; cbn; auto.
Qed.

(** In a tick during which every reading of the clock lies strictly
    before the player's [invulnerableUntil], the number of lives is not
    changed: neither an enemy within reach nor an explosion cell under the
    player costs a life. *)
Theorem invulnerable_tick_keeps_lives (dt : Q) (st : GameEngine) :
  (forall k,
     (clockCalls st <= k < clockCalls (update rand clock dt st))%nat ->
     (clock k < invulnerableUntil st)%Q) ->
  lives (update rand clock dt st) = lives st.
Proof. intros H. apply (calm_update dt st). exact H. Qed.

End Invulnerability.

Lemma invulnerable_tick_keeps_lives_witness :
  lives (update randHalf (clockAt 5000) 16 (underFire 6000)) = 5.
Proof.
  apply (invulnerable_tick_keeps_lives randHalf (clockAt 5000) 16
           (underFire 6000)).
  intros k _. vm_compute. reflexivity.
Defined.

(** Without the invulnerability the same tick costs a life. *)
Example underFire_costs_a_life :
  lives (update randHalf (clockAt 5000) 16 (underFire 0)) = 4.
Proof. vm_compute. reflexivity. Qed.

(* ===================================================================== *)
(** ** Level completion *)

Section LevelCompletion.

Variable rand : nat -> Q.
Variable clock : nat -> Q.

Lemma quiet_keepsLevel st st' : quiet st st' -> keepsLevel st st'.
Proof. now intros [H _]. Qed.

Lemma keepsLevel_killPlayer st : keepsLevel st (killPlayer clock st).
Proof.
  unfold killPlayer, performanceNow.
  destruct (_ || _); [repeat split|].
  cbn. destruct (_ <=? _); [|repeat split].
  repeat split. rewrite levelCompleteCalls_emit. cbn. unfold levelCompleteCalls.
  cbn. lia.
Qed.

Lemma keepsLevel_fold {A} (f : GameEngine -> A -> GameEngine) (l : list A) :
  (forall st a, keepsLevel st (f st a)) ->
  forall st, keepsLevel st (fold_left f l st).
Proof.
  intros Hf. induction l as [|a l IH]; intros st; cbn; [apply keepsLevel_refl|].
  eapply keepsLevel_trans; [apply Hf|apply IH].
Qed.

Lemma keepsLevel_downFrom (body : nat -> GameEngine -> GameEngine) n :
  (forall i st, keepsLevel st (body i st)) ->
  forall st, keepsLevel st (downFrom n body st).
Proof.
  intros Hb. induction n as [|n IH]; intros st; cbn; [apply keepsLevel_refl|].
  eapply keepsLevel_trans; [apply Hb|apply IH].
Qed.

Lemma keepsLevel_cellDamage t st cell :
  keepsLevel st (cellDamage clock t st cell).
Proof.
  unfold cellDamage. cbv zeta.
  match goal with
  | |- context [hitEnemies t cell (enemies ?s) ?s] => set (st1 := s)
  end.
  assert (H1 : keepsLevel st st1).
  { subst st1. destruct (_ && _); [apply keepsLevel_killPlayer|apply keepsLevel_refl]. }
  pose proof (quiet_hitEnemies t cell (enemies st1) st1) as H2.
  destruct (hitEnemies _ _ _ _) as [es st2]. cbn [snd] in H2.
  eapply keepsLevel_trans; [exact H1|].
  eapply keepsLevel_trans; [apply quiet_keepsLevel; exact H2|].
  repeat split.
Qed.

Lemma keepsLevel_explosionStep t dt i st :
  keepsLevel st (explosionStep clock t dt i st).
Proof.
  unfold explosionStep. destruct (_ !! _) as [e|]; [|apply keepsLevel_refl].
  eapply keepsLevel_trans; [apply quiet_keepsLevel, quiet_set_explosions|].
  match goal with
  | |- keepsLevel ?s (if _ then set_explosions _ ?s' else ?s') =>
      assert (H : keepsLevel s s')
        by (apply keepsLevel_fold; intros; apply keepsLevel_cellDamage)
  end.
  destruct (Qleb _ _); [|exact H].
  eapply keepsLevel_trans; [exact H|repeat split].
Qed.

Lemma keepsLevel_updateExplosions t dt st :
  keepsLevel st (updateExplosions clock t dt st).
Proof. apply keepsLevel_downFrom. intros. apply keepsLevel_explosionStep. Qed.

Lemma keepsLevel_updateContact t st :
  keepsLevel st (updateContact clock t st).
Proof.
  unfold updateContact. destruct (Qltb _ _); [|apply keepsLevel_refl].
  apply keepsLevel_fold. intros s e.
  destruct (touches _ _); [apply keepsLevel_killPlayer|apply keepsLevel_refl].
Qed.

Lemma keepsLevel_updateCountdown t dt st :
  keepsLevel st (updateCountdown clock t dt st).
Proof.
  unfold updateCountdown. destruct (negb _); [|apply keepsLevel_refl].
  destruct (_ <=? _).
  - eapply keepsLevel_trans; [|apply keepsLevel_killPlayer]. repeat split.
  - repeat split.
Qed.

Lemma keepsLevel_beforeLevelCheck dt st :
  keepsLevel st (beforeLevelCheck rand clock dt st).
Proof.
  unfold beforeLevelCheck, performanceNow.
  eapply keepsLevel_trans; [|apply keepsLevel_updateExplosions].
  eapply keepsLevel_trans; [|apply quiet_keepsLevel, quiet_updateBombs].
  eapply keepsLevel_trans; [|apply quiet_keepsLevel, quiet_updatePlacement].
  eapply keepsLevel_trans; [|apply quiet_keepsLevel, quiet_updatePlayer].
  repeat split.
Qed.

(** The phases of [update] that follow the check. *)
Lemma keepsLevel_afterLevelCheck t dt st :
  keepsLevel st
    (pushStats (updateCountdown clock t dt (updateContact clock t
       (updatePowerUps (updateAI rand dt st))))).
Proof.
  eapply keepsLevel_trans; [|apply quiet_keepsLevel, quiet_pushStats].
  eapply keepsLevel_trans; [|apply keepsLevel_updateCountdown].
  eapply keepsLevel_trans; [|apply keepsLevel_updateContact].
  eapply keepsLevel_trans; [|apply quiet_keepsLevel, quiet_updatePowerUps].
  apply quiet_keepsLevel, quiet_updateAI.
Qed.

Lemma update_split dt st :
  update rand clock dt st =
  let t := clock (clockCalls st) in
  pushStats (updateCountdown clock t dt (updateContact clock t
    (updatePowerUps (updateAI rand dt
       (checkLevelComplete (beforeLevelCheck rand clock dt st)))))).
Proof. reflexivity. Qed.

(** The check itself: one call of [onLevelComplete] when [levelDone] holds,
    none otherwise; the flag is set together with the call. *)
Lemma checkLevelComplete_fires st :
  levelCompleteCalls (checkLevelComplete st) =
    (levelCompleteCalls st + (if levelDone st then 1 else 0))%nat /\
  isLevelComplete (checkLevelComplete st) =
    levelDone st || isLevelComplete st /\
  isVictory (checkLevelComplete st) = isVictory st /\
  isLevelTransitioning (checkLevelComplete st) = isLevelTransitioning st.
Proof.
  unfold checkLevelComplete, levelDone. cbn.
  destruct (_ && _).
  - rewrite levelCompleteCalls_emit. cbn. repeat split.
  - cbn. repeat split. unfold levelCompleteCalls. cbn. lia.
Qed.

Lemma update_fires dt st :
  levelCompleteCalls (update rand clock dt st) =
    (levelCompleteCalls st +
     (if levelDone (beforeLevelCheck rand clock dt st) then 1 else 0))%nat /\
  isLevelComplete (update rand clock dt st) =
    levelDone (beforeLevelCheck rand clock dt st) || isLevelComplete st /\
  isVictory (update rand clock dt st) = isVictory st /\
  isLevelTransitioning (update rand clock dt st) = isLevelTransitioning st.
Proof.
  rewrite update_split. cbv zeta.
  destruct (keepsLevel_afterLevelCheck (clock (clockCalls st)) dt
              (checkLevelComplete (beforeLevelCheck rand clock dt st)))
    as (Hc & Hv & Ht & Hn).
  destruct (checkLevelComplete_fires (beforeLevelCheck rand clock dt st))
    as (Fn & Fc & Fv & Ft).
  destruct (keepsLevel_beforeLevelCheck dt st) as (Bc & Bv & Bt & Bn).
  rewrite Hn, Hc, Hv, Ht, Fn, Fc, Fv, Ft, Bn, Bc, Bv, Bt. repeat split.
Qed.

Lemma keepsLevel_respawn st : keepsLevel st (respawn clock st).
Proof.
  unfold respawn, performanceNow. repeat split.
  rewrite levelCompleteCalls_emit. cbn. unfold levelCompleteCalls. cbn. lia.
Qed.

Lemma keepsLevel_setVirtualInput key pressed st :
  keepsLevel st (setVirtualInput key pressed st).
Proof. repeat split. Qed.

Lemma keepsLevel_handleKeyDown key st : keepsLevel st (handleKeyDown key st).
Proof. repeat split. Qed.

Lemma keepsLevel_handleKeyUp key st : keepsLevel st (handleKeyUp key st).
Proof. repeat split. Qed.

(** Once the level is complete, [loop] does not run [update]: the flag
    stays and [onLevelComplete] is not called again. *)
Lemma loop_after_complete timestamp st :
  isLevelComplete st = true -> keepsLevel st (loop rand clock timestamp st).
Proof.
  intros Hc. unfold loop. destruct (_ && _); [apply keepsLevel_refl|].
  cbv zeta.
  change (isLevelComplete (set_lastTime timestamp st)) with (isLevelComplete st).
  rewrite Hc, !andb_false_r. repeat split.
Qed.

Lemma loop_before_complete timestamp st :
  isLevelComplete st = false ->
  levelCompleteCalls (loop rand clock timestamp st) =
    (levelCompleteCalls st +
     (if isLevelComplete (loop rand clock timestamp st) then 1 else 0))%nat.
Proof.
  intros Hc. unfold loop.
  destruct (negb (animationId st) && isPaused st); [rewrite Hc; lia|].
  cbv zeta.
  match goal with
  | |- context [if ?g then update _ _ _ _ else _] => destruct g
  end.
  - destruct (update_fires (timestamp - lastTime st)%Q
                (set_lastTime timestamp st)) as (Fn & Fc & _).
    change (levelCompleteCalls (set_animationId true ?s))
      with (levelCompleteCalls s).
    change (isLevelComplete (set_animationId true ?s))
      with (isLevelComplete s).
    rewrite Fn, Fc.
    change (isLevelComplete (set_lastTime timestamp st))
      with (isLevelComplete st).
    change (levelCompleteCalls (set_lastTime timestamp st))
      with (levelCompleteCalls st).
    rewrite Hc, orb_false_r. reflexivity.
  - change (isLevelComplete (set_animationId true (set_lastTime timestamp st)))
      with (isLevelComplete st).
    rewrite Hc. unfold levelCompleteCalls. cbn. lia.
Qed.

Lemma act_after_complete a st :
  isLevelComplete st = true -> keepsLevel st (act rand clock a st).
Proof.
  intros Hc. destruct a; cbn [act].
  - apply loop_after_complete. exact Hc.
  - unfold startGame, performanceNow.
    eapply keepsLevel_trans; [|apply loop_after_complete; exact Hc].
    repeat split.
  - apply keepsLevel_handleKeyDown.
  - apply keepsLevel_handleKeyUp.
  - apply keepsLevel_setVirtualInput.
  - repeat split.
  - destruct (pendingRespawns st); [apply keepsLevel_refl|].
    eapply keepsLevel_trans; [|apply keepsLevel_respawn]. repeat split.
Qed.

Lemma act_before_complete a st :
  isLevelComplete st = false ->
  levelCompleteCalls (act rand clock a st) =
    (levelCompleteCalls st +
     (if isLevelComplete (act rand clock a st) then 1 else 0))%nat.
Proof.
  intros Hc.
  assert (Hkeep : forall st', keepsLevel st st' ->
            levelCompleteCalls st' =
            (levelCompleteCalls st + (if isLevelComplete st' then 1 else 0))%nat).
  { intros st' (H1 & _ & _ & H4). rewrite H1, Hc, H4. lia. }
  destruct a; cbn [act].
  - apply loop_before_complete. exact Hc.
  - unfold startGame, performanceNow. cbv zeta.
    match goal with
    | |- context [loop rand clock ?t ?s] =>
        rewrite (loop_before_complete t s Hc)
    end.
    reflexivity.
  - apply Hkeep, keepsLevel_handleKeyDown.
  - apply Hkeep, keepsLevel_handleKeyUp.
  - apply Hkeep, keepsLevel_setVirtualInput.
  - apply Hkeep. repeat split.
  - destruct (pendingRespawns st); [apply Hkeep, keepsLevel_refl|].
    apply Hkeep. eapply keepsLevel_trans; [|apply keepsLevel_respawn]. repeat split.
Qed.

Lemma run_after_complete actions : forall st,
  isLevelComplete st = true -> keepsLevel st (run rand clock actions st).
Proof.
  induction actions as [|a actions IH]; intros st Hc; cbn;
    [apply keepsLevel_refl|].
  pose proof (act_after_complete a st Hc) as Ha.
  eapply keepsLevel_trans; [exact Ha|].
  apply IH. destruct Ha as [-> _]. exact Hc.
Qed.

(** The level-complete callback.
    - [loop] runs no tick, and so makes no call, while the game is paused
      or one of [isGameOver], [isVictory], [isLevelComplete] is set.
    - A tick calls [onLevelComplete] once if, when the check is reached, no
      enemy is left after the dead ones are removed and none of [isVictory],
      [isLevelTransitioning], [isLevelComplete] is set, and not at all
      otherwise; however many enemies died in that tick, it is one call.
    - From a state in which the level is not complete, any sequence of
      frames, [startGame] calls, key events, pauses and respawn timeouts
      calls it at most once,
      and exactly once if the level is complete at the end.
    - From a state in which the level is complete, no such sequence calls it
      again, and the flag stays set. *)
Theorem level_complete_fires_once :
  (forall dt st,
     levelCompleteCalls (update rand clock dt st) =
     (levelCompleteCalls st +
      (if levelDone (beforeLevelCheck rand clock dt st) then 1 else 0))%nat) /\
  (forall actions st,
     isLevelComplete st = false ->
     levelCompleteCalls (run rand clock actions st) =
     (levelCompleteCalls st +
      (if isLevelComplete (run rand clock actions st) then 1 else 0))%nat) /\
  (forall actions st,
     isLevelComplete st = true ->
     levelCompleteCalls (run rand clock actions st) = levelCompleteCalls st /\
     isLevelComplete (run rand clock actions st) = true) /\
  (forall timestamp st,
     isPaused st || isGameOver st || isVictory st || isLevelComplete st = true ->
     levelCompleteCalls (loop rand clock timestamp st) = levelCompleteCalls st).
Proof.
  split; [|split; [|split]]; cycle 3.
  - intros timestamp st Hflag. unfold loop.
    destruct (negb (animationId st) && isPaused st); [reflexivity|].
    cbv zeta.
    change (isPaused (set_lastTime timestamp st)) with (isPaused st).
    change (isGameOver (set_lastTime timestamp st)) with (isGameOver st).
    change (isVictory (set_lastTime timestamp st)) with (isVictory st).
    change (isLevelComplete (set_lastTime timestamp st))
      with (isLevelComplete st).
    destruct (isPaused st), (isGameOver st), (isVictory st),
      (isLevelComplete st); try discriminate; reflexivity.
  - intros dt st. apply update_fires.
  - intros actions. induction actions as [|a actions IH]; intros st Hc.
    + cbn. rewrite Hc. lia.
    + cbn [run fold_left]. fold (run rand clock actions (act rand clock a st)).
      pose proof (act_before_complete a st Hc) as Ha.
      destruct (isLevelComplete (act rand clock a st)) eqn:Hc1.
      * destruct (run_after_complete actions _ Hc1) as (Rc & _ & _ & Rn).
        rewrite Rn, Rc, Hc1, Ha. reflexivity.
      * rewrite (IH _ Hc1), Ha. lia.
  - intros actions st Hc.
    destruct (run_after_complete actions st Hc) as (Rc & _ & _ & Rn).
    split; congruence.
Qed.

End LevelCompletion.

Lemma level_complete_fires_once_witness :
  levelCompleteCalls
    (run randHalf (clockAt 5000) [Frame 16; Frame 32; Frame 48] lastStand) = 1%nat /\
  enemies (update randHalf (clockAt 5000) 16 lastStand) = [] /\
  levelCompleteCalls (update randHalf (clockAt 5000) 16 lastStand) = 1%nat.
Proof.
  pose proof (level_complete_fires_once randHalf (clockAt 5000))
    as (Htick & Hrun & _ & _).
  split; [|split].
  - rewrite (Hrun [Frame 16; Frame 32; Frame 48] lastStand eq_refl).
    vm_compute. reflexivity.
  - vm_compute. reflexivity.
  - rewrite Htick. vm_compute. reflexivity.
Defined.

(* ===================================================================== *)
(** ** Chain reactions *)

Section ChainReaction.

Variable rand : nat -> Q.

Lemma zeroed_refl b : zeroed b b.
Proof. now left. Qed.

Lemma zeroed_trans b1 b2 b3 : zeroed b1 b2 -> zeroed b2 b3 -> zeroed b1 b3.
Proof.
  intros [->| ->] [->| ->]; unfold zeroed; auto.
Qed.

Lemma zeroed_zero b b' : zeroed (set_b_timer 0 b) b' -> b' = set_b_timer 0 b.
Proof. intros [->| ->]; reflexivity. Qed.

Lemma zeroed_set_zero b b' : zeroed b b' -> set_b_timer 0 b' = set_b_timer 0 b.
Proof. intros [->| ->]; reflexivity. Qed.

Lemma zeroed_cell b b' : zeroed b b' -> cellOf b' = cellOf b.
Proof. intros [->| ->]; reflexivity. Qed.

Lemma zeroed_bombAt c r b b' : zeroed b b' -> bombAt c r b' = bombAt c r b.
Proof. intros [->| ->]; reflexivity. Qed.

Lemma zeroed_timer b b' dt :
  (0 <= dt)%Q -> zeroed b b' -> (b_timer b <= dt)%Q -> (b_timer b' <= dt)%Q.
Proof. intros Hdt [->| ->] H; cbn; auto. Qed.

Lemma Forall2_zeroed_refl bs : Forall2 zeroed bs bs.
Proof. induction bs; constructor; auto using zeroed_refl. Qed.

Lemma Forall2_zeroed_trans bs1 bs2 bs3 :
  Forall2 zeroed bs1 bs2 -> Forall2 zeroed bs2 bs3 -> Forall2 zeroed bs1 bs3.
Proof.
  intros H. revert bs3. induction H; intros bs3 H3; inversion H3; subst;
    constructor; eauto using zeroed_trans.
Qed.

Lemma Forall2_zeroed_alter bs i :
  Forall2 zeroed bs (alter (set_b_timer 0) i bs).
Proof.
  revert i. induction bs as [|b bs IH]; intros [|i]; cbn; constructor;
    auto using zeroed_refl, Forall2_zeroed_refl.
  now right.
Qed.

Lemma findIndex_zeroed c r bs bs' :
  Forall2 zeroed bs bs' ->
  findIndex (bombAt c r) bs' = findIndex (bombAt c r) bs.
Proof.
  induction 1 as [|b b' bs bs' Hb _ IH]; cbn; [reflexivity|].
  rewrite (zeroed_bombAt _ _ _ _ Hb), IH. reflexivity.
Qed.

Lemma blasted_destroyBlock c r st :
  bombs (destroyBlock rand c r st) = bombs st /\
  explosions (destroyBlock rand c r st) = explosions st.
Proof. unfold destroyBlock, random. cbn. destruct (Qltb _ _); split; reflexivity. Qed.

Lemma blasted_blastRay n : forall i bomb dx dy dir st,
  blasted st (snd (blastRay rand n i bomb dx dy dir st))
          (fst (blastRay rand n i bomb dx dy dir st)).
Proof.
  induction n as [|n IH]; intros i bomb dx dy dir st; cbn [blastRay].
  - repeat split; [apply Forall2_zeroed_refl|]. intros cell j [].
  - assert (Hnil : blasted st st []).
    { repeat split; [apply Forall2_zeroed_refl|]. intros cell j []. }
    destruct (_ || _); [exact Hnil|].
    set (c := b_col bomb + dx * i). set (r := b_row bomb + dy * i).
    assert (Hhit : forall idx,
      findIndex (bombAt c r) (bombs st) = Some idx ->
      blasted st (set_bombs (alter (set_b_timer 0) idx (bombs st)) st)
              [mkCell c r (i =? b_range bomb) dir]).
    { intros idx Hidx. repeat split; cbn.
      - apply Forall2_zeroed_alter.
      - intros cell j [<-|[]] Hj. cbn in Hj. rewrite Hidx in Hj.
        injection Hj as <-.
        destruct (findIndex_Some _ _ _ Hidx) as (b & Hb & _).
        exists b. split; [exact Hb|].
        rewrite list_lookup_alter_eq, Hb. reflexivity. }
    assert (Hsoft :
      findIndex (bombAt c r) (bombs st) = None ->
      blasted st (destroyBlock rand c r st)
              [mkCell c r (i =? b_range bomb) dir]).
    { intros Hnone. destruct (blasted_destroyBlock c r st) as [Hb He].
      repeat split.
      - rewrite Hb. apply Forall2_zeroed_refl.
      - exact He.
      - intros cell j [<-|[]] Hj. cbn in Hj. congruence. }
    assert (Hnext :
      findIndex (bombAt c r) (bombs st) = None ->
      blasted st (snd (blastRay rand n (i + 1) bomb dx dy dir st))
              (mkCell c r (i =? b_range bomb) dir ::
               fst (blastRay rand n (i + 1) bomb dx dy dir st))).
    { intros Hnone. destruct (IH (i + 1) bomb dx dy dir st) as (Hz & He & Hc).
      repeat split; auto.
      intros cell j [<-|Hin] Hj; [cbn in Hj; congruence|].
      eapply Hc; eauto. }
    destruct (tileAt (grid st) r c) as [[| |]|] eqn:Ht;
      try exact Hnil;
      (destruct (findIndex (bombAt c r) (bombs st)) as [idx|] eqn:Hidx;
       [apply Hhit; reflexivity|]);
      try (apply Hsoft; reflexivity);
      specialize (Hnext eq_refl);
      destruct (blastRay rand n (i + 1) bomb dx dy dir st); exact Hnext.
Qed.

Lemma blasted_app st1 st2 st3 cells1 cells2 :
  blasted st1 st2 cells1 -> blasted st2 st3 cells2 ->
  blasted st1 st3 (cells1 ++ cells2).
Proof.
  intros (Hz1 & He1 & Hc1) (Hz2 & He2 & Hc2). repeat split.
  - eapply Forall2_zeroed_trans; eauto.
  - congruence.
  - intros cell j Hin Hj. apply in_app_or in Hin. destruct Hin as [Hin|Hin].
    + destruct (Hc1 cell j Hin Hj) as (b & Hb & Hb2).
      exists b. split; [exact Hb|].
      destruct (Forall2_lookup_l _ _ _ _ _ Hz2 Hb2) as (b3 & Hb3 & Hz).
      rewrite Hb3. f_equal. apply zeroed_zero. exact Hz.
    + rewrite <- (findIndex_zeroed _ _ _ _ Hz1) in Hj.
      destruct (Hc2 cell j Hin Hj) as (b2 & Hb2 & Hb3).
      destruct (Forall2_lookup_r _ _ _ _ _ Hz1 Hb2) as (b & Hb & Hz).
      exists b. split; [exact Hb|].
      rewrite Hb3. f_equal. apply zeroed_set_zero. exact Hz.
Qed.

Lemma blasted_rays bomb ds : forall st,
  blasted st (snd (rays rand bomb ds st)) (fst (rays rand bomb ds st)).
Proof.
  induction ds as [|[[dx dy] dir] ds IH]; intros st; cbn [rays].
  - repeat split; [apply Forall2_zeroed_refl|]. intros cell j [].
  - unfold ray.
    pose proof (blasted_blastRay (Z.to_nat (b_range bomb)) 1 bomb dx dy dir st)
      as H1.
    destruct (blastRay _ _ _ _ _ _ _ _) as [cells st1].
    specialize (IH st1). destruct (rays _ _ _ _) as [more st2].
    cbn [fst snd] in *. eapply blasted_app; eauto.
Qed.

Lemma explodeBomb_blasted bomb st :
  Forall2 zeroed (bombs st) (bombs (explodeBomb rand bomb st)) /\
  (exists e, explosions (explodeBomb rand bomb st) = explosions st ++ [e] /\
             ex_center e = cellOf bomb) /\
  forall cell j,
    In cell (blastCells rand bomb st) ->
    findIndex (bombAt (c_col cell) (c_row cell)) (bombs st) = Some j ->
    exists b, bombs st !! j = Some b /\
              bombs (explodeBomb rand bomb st) !! j = Some (set_b_timer 0 b).
Proof.
  unfold explodeBomb, blastCells.
  destruct (blasted_rays bomb directions st) as (Hz & He & Hc).
  destruct (rays rand bomb directions st) as [cells st1]. cbn [fst snd] in *.
  unfold random. cbn. rewrite He. split; [exact Hz|].
  split; [eexists; split; reflexivity|exact Hc].
Qed.

Lemma bombAt_cellOf c r b :
  bombAt c r b = true <-> cellOf b = mkGridPoint c r.
Proof.
  unfold bombAt, cellOf. rewrite andb_true_iff, !Z.eqb_eq.
  split; [intros [-> ->]; reflexivity|intros H; injection H; auto].
Qed.

Lemma findIndex_unique bs : forall j b,
  NoDup (map cellOf bs) -> bs !! j = Some b ->
  findIndex (bombAt (b_col b) (b_row b)) bs = Some j.
Proof.
  induction bs as [|a bs IH]; intros j b Hnd Hj; [discriminate|].
  cbn [map] in Hnd. apply NoDup_cons in Hnd. destruct Hnd as [Hnotin Hnd].
  destruct j as [|j]; cbn in Hj.
  - injection Hj as ->. cbn.
    assert (H : bombAt (b_col b) (b_row b) b = true)
      by (apply bombAt_cellOf; reflexivity).
    now rewrite H.
  - cbn. destruct (bombAt (b_col b) (b_row b) a) eqn:Ha.
    + exfalso. apply Hnotin. apply bombAt_cellOf in Ha.
      change (mkGridPoint (b_col b) (b_row b)) with (cellOf b) in Ha.
      rewrite Ha. apply list_elem_of_In, in_map.
      apply list_elem_of_In. eapply list_elem_of_lookup_2. exact Hj.
    + rewrite (IH j b Hnd Hj). reflexivity.
Qed.

Lemma map_cellOf_insert bs i b b' :
  bs !! i = Some b -> cellOf b' = cellOf b ->
  map cellOf (<[i := b']> bs) = map cellOf bs.
Proof.
  revert i. induction bs as [|a bs IH]; intros [|i] Hi Hc; cbn in *;
    try discriminate.
  - injection Hi as ->. now rewrite Hc.
  - f_equal. apply IH; auto.
Qed.

Lemma Qleb_le a b : Qleb a b = true <-> (a <= b)%Q.
Proof. apply Qle_bool_iff. Qed.

(** One step of the bomb loop at an index holding a bomb that goes off. *)
Lemma bombStep_fire dt i st b :
  bombs st !! i = Some b -> (b_timer b - dt <= 0)%Q ->
  let bomb := set_b_timer (b_timer b - dt)%Q b in
  let st1 := set_bombs (<[i := bomb]> (bombs st)) st in
  bombs (bombStep rand dt i st) = delete i (bombs (explodeBomb rand bomb st1)) /\
  explosions (bombStep rand dt i st) = explosions (explodeBomb rand bomb st1).
Proof.
  intros Hb Hle. unfold bombStep. rewrite Hb. cbv zeta.
  assert (Hq : Qleb (b_timer (set_b_timer (b_timer b - dt) b)) 0 = true)
    by (apply Qleb_le; exact Hle).
  rewrite Hq. destruct (String.eqb _ _); split; reflexivity.
Qed.

Lemma bombStep_explosions dt i st :
  exists l, explosions (bombStep rand dt i st) = explosions st ++ l.
Proof.
  unfold bombStep. destruct (bombs st !! i) as [b|]; [|exists []; now rewrite app_nil_r].
  cbv zeta. destruct (Qleb _ _); [|exists []; now rewrite app_nil_r].
  match goal with
  | |- context [explodeBomb rand ?bomb ?s] =>
      destruct (explodeBomb_blasted bomb s) as (_ & (e & He & _) & _)
  end.
  exists [e]. destruct (String.eqb _ _); cbn; rewrite He; reflexivity.
Qed.

(** What one step of the bomb loop does to the bombs at the other indices:
    a bomb below the index stays where it is, a bomb above it stays at or
    above the index; either keeps its fields, except that the timer may have
    been forced to zero. *)
Lemma bombStep_other dt i st j b :
  j <> i -> bombs st !! j = Some b ->
  exists j' b',
    zeroed b b' /\ bombs (bombStep rand dt i st) !! j' = Some b' /\
    ((j < i)%nat -> j' = j) /\ ((i < j)%nat -> (i <= j')%nat).
Proof.
  intros Hne Hj. unfold bombStep.
  destruct (bombs st !! i) as [a|] eqn:Ha.
  2:{ exists j, b. repeat split; auto using zeroed_refl. lia. }
  cbv zeta.
  set (bomb := set_b_timer (b_timer a - dt)%Q a).
  set (st1 := set_bombs (<[i := bomb]> (bombs st)) st).
  assert (Hj1 : bombs st1 !! j = Some b).
  { subst st1. cbn. rewrite list_lookup_insert_ne by auto. exact Hj. }
  destruct (Qleb _ _).
  2:{ exists j, b. repeat split; auto using zeroed_refl. lia. }
  destruct (explodeBomb_blasted bomb st1) as (Hz & _ & _).
  destruct (Forall2_lookup_l _ _ _ _ _ Hz Hj1) as (b' & Hb' & Hzb).
  assert (Hdel : exists j',
            delete i (bombs (explodeBomb rand bomb st1)) !! j' = Some b' /\
            ((j < i)%nat -> j' = j) /\ ((i < j)%nat -> (i <= j')%nat)).
  { destruct (Nat.lt_ge_cases j i) as [Hlt|Hge].
    - exists j. rewrite list_lookup_delete_lt by exact Hlt.
      repeat split; auto. lia.
    - exists (j - 1)%nat. rewrite list_lookup_delete_ge by lia.
      replace (S (j - 1)) with j by lia. repeat split; auto; lia. }
  destruct Hdel as (j' & Hd & H1 & H2).
  exists j', b'. destruct (String.eqb _ _); cbn; repeat split; auto.
Qed.

Lemma downFrom_bombStep_explosions dt n : forall st,
  exists l, explosions (downFrom n (bombStep rand dt) st) = explosions st ++ l.
Proof.
  induction n as [|n IH]; intros st; cbn [downFrom].
  - exists []. now rewrite app_nil_r.
  - destruct (bombStep_explosions dt n st) as (l1 & H1).
    destruct (IH (bombStep rand dt n st)) as (l2 & H2).
    exists (l1 ++ l2). rewrite H2, H1, app_assoc. reflexivity.
Qed.

(** A bomb whose timer is at most [dt] and that the rest of the loop still
    has to visit goes off before the loop ends. *)
Lemma bombLoop_detonates dt n : forall st j b,
  (0 <= dt)%Q -> (j < n)%nat -> bombs st !! j = Some b ->
  (b_timer b <= dt)%Q ->
  appendsExplosionAt (cellOf b) st (downFrom n (bombStep rand dt) st).
Proof.
  induction n as [|n IH]; intros st j b Hdt Hjn Hj Hb; [lia|].
  cbn [downFrom].
  destruct (Nat.eq_dec j n) as [->|Hne].
  - assert (Hle : (b_timer b - dt <= 0)%Q) by lra.
    destruct (bombStep_fire dt n st b Hj Hle) as (_ & He).
    match type of He with
    | _ = explosions (explodeBomb rand ?bomb ?s) =>
        destruct (explodeBomb_blasted bomb s) as (_ & (e & Hex & Hc) & _)
    end.
    destruct (downFrom_bombStep_explosions dt n (bombStep rand dt n st))
      as (l & Hl).
    exists [], e, l. split; [|exact Hc].
    rewrite Hl, He, Hex. cbn. rewrite <- app_assoc. reflexivity.
  - destruct (bombStep_other dt n st j b Hne Hj) as (j' & b' & Hz & Hj' & Hlt & _).
    rewrite (Hlt ltac:(lia)) in Hj'.
    destruct (IH (bombStep rand dt n st) j b' Hdt ltac:(lia) Hj'
                 (zeroed_timer _ _ _ Hdt Hz Hb))
      as (l1 & e & l2 & He & Hc).
    destruct (bombStep_explosions dt n st) as (l0 & H0).
    exists (l0 ++ l1), e, l2. split.
    + rewrite He, H0, <- !app_assoc. reflexivity.
    + rewrite Hc. apply zeroed_cell. exact Hz.
Qed.

(** A bomb with its timer at zero that the loop has already passed is still
    on the list, unchanged, when the loop ends. *)
Lemma bombLoop_passed dt n : forall st j b,
  (n <= j)%nat -> bombs st !! j = Some (set_b_timer 0 b) ->
  In (set_b_timer 0 b) (bombs (downFrom n (bombStep rand dt) st)).
Proof.
  induction n as [|n IH]; intros st j b Hnj Hj.
  - cbn. apply list_elem_of_In. eapply list_elem_of_lookup_2. exact Hj.
  - cbn [downFrom].
    destruct (bombStep_other dt n st j _ ltac:(lia) Hj)
      as (j' & b' & Hz & Hj' & _ & Hge).
    apply zeroed_zero in Hz. subst b'.
    apply (IH _ j'); [lia|exact Hj'].
Qed.

End ChainReaction.

Section ChainReactionTicks.

Variable rand : nat -> Q.
Variable clock : nat -> Q.

Lemma bombs_killPlayer st : bombs (killPlayer clock st) = bombs st.
Proof.
  unfold killPlayer, performanceNow. destruct (_ || _); [reflexivity|].
  cbn. destruct (_ <=? _); reflexivity.
Qed.

Lemma bombs_fold {A} (f : GameEngine -> A -> GameEngine) (l : list A) :
  (forall st a, bombs (f st a) = bombs st) ->
  forall st, bombs (fold_left f l st) = bombs st.
Proof.
  intros Hf. induction l as [|a l IH]; intros st; cbn; [reflexivity|].
  now rewrite IH, Hf.
Qed.

Lemma bombs_downFrom (body : nat -> GameEngine -> GameEngine) n :
  (forall i st, bombs (body i st) = bombs st) ->
  forall st, bombs (downFrom n body st) = bombs st.
Proof.
  intros Hb. induction n as [|n IH]; intros st; cbn; [reflexivity|].
  now rewrite IH, Hb.
Qed.

Lemma bombs_hitEnemies t cell es : forall st,
  bombs (snd (hitEnemies t cell es st)) = bombs st.
Proof.
  induction es as [|e es IH]; intros st; cbn [hitEnemies]; [reflexivity|].
  assert (H1 : bombs (snd (hitEnemy t cell e st)) = bombs st).
  { unfold hitEnemy. repeat break_if; reflexivity. }
  destruct (hitEnemy _ _ _ _) as [e' st1].
  specialize (IH st1). destruct (hitEnemies _ _ _ _) as [rest st2].
  cbn [snd] in *. congruence.
Qed.

Lemma bombs_cellDamage t st cell :
  bombs (cellDamage clock t st cell) = bombs st.
Proof.
  unfold cellDamage. cbv zeta.
  match goal with
  | |- context [hitEnemies t cell (enemies ?s) ?s] => set (st1 := s)
  end.
  assert (H1 : bombs st1 = bombs st).
  { subst st1. destruct (_ && _); [apply bombs_killPlayer|reflexivity]. }
  pose proof (bombs_hitEnemies t cell (enemies st1) st1) as H2.
  destruct (hitEnemies _ _ _ _) as [es st2]. cbn [snd] in H2.
  cbn. congruence.
Qed.

Lemma bombs_updateExplosions t dt st :
  bombs (updateExplosions clock t dt st) = bombs st.
Proof.
  apply bombs_downFrom. intros i s. unfold explosionStep.
  destruct (_ !! _) as [e|]; [|reflexivity]. cbv zeta.
  match goal with
  | |- bombs (if _ then set_explosions _ ?s' else ?s') = _ =>
      assert (H : bombs s' = bombs s)
        by (rewrite bombs_fold; [reflexivity|intros; apply bombs_cellDamage])
  end.
  destruct (Qleb _ _); [|exact H]. cbn. exact H.
Qed.

Lemma bombs_updateEnemies dt es : forall st,
  bombs (snd (updateEnemies rand dt es st)) = bombs st.
Proof.
  induction es as [|e es IH]; intros st; cbn [updateEnemies]; [reflexivity|].
  assert (H1 : bombs (snd (updateEnemyAI rand dt e st)) = bombs st).
  { unfold updateEnemyAI, random.
    repeat (lazy beta iota;
      first [ match goal with
              | |- context [match ?x with WALKER => _ | CHASER => _ end] =>
                  destruct x eqn:?
              end
            | break_if
            | match goal with
              | |- context [let '(_, _) := ?p in _] => destruct p eqn:?
              end ]);
    reflexivity. }
  destruct (updateEnemyAI _ _ _ _) as [e' st1].
  specialize (IH st1). destruct (updateEnemies _ _ _ _) as [rest st2].
  cbn [snd] in *. congruence.
Qed.

Lemma bombs_afterBombs t dt st :
  bombs (pushStats (updateCountdown clock t dt (updateContact clock t
          (updatePowerUps (updateAI rand dt (checkLevelComplete
             (updateExplosions clock t dt st))))))) = bombs st.
Proof.
  unfold pushStats, emit. cbn [bombs set_events].
  assert (H1 : forall s, bombs (updateCountdown clock t dt s) = bombs s).
  { intros s. unfold updateCountdown. destruct (negb _); [|reflexivity].
    cbv zeta. destruct (_ <=? _); [now rewrite bombs_killPlayer|reflexivity]. }
  assert (H2 : forall s, bombs (updateContact clock t s) = bombs s).
  { intros s. unfold updateContact. destruct (Qltb _ _); [|reflexivity].
    apply bombs_fold. intros s' e.
    destruct (touches _ _); [apply bombs_killPlayer|reflexivity]. }
  assert (H3 : forall s, bombs (updatePowerUps s) = bombs s).
  { intros s. apply bombs_downFrom. intros i s'. unfold powerUpStep.
    destruct (_ !! _) as [p|]; [|reflexivity].
    destruct (_ && _); [|reflexivity].
    unfold applyPowerUp. destruct (pu_type p); reflexivity. }
  assert (H4 : forall s, bombs (updateAI rand dt s) = bombs s).
  { intros s. unfold updateAI. destruct (negb _); [|reflexivity].
    pose proof (bombs_updateEnemies dt (enemies s) s) as H.
    destruct (updateEnemies _ _ _ _) as [es s1]. exact H. }
  assert (H5 : forall s, bombs (checkLevelComplete s) = bombs s).
  { intros s. unfold checkLevelComplete. destruct (_ && _); reflexivity. }
  rewrite H1, H2, H3, H4, H5. apply bombs_updateExplosions.
Qed.

(** The phases of a tick that follow the bomb loop leave the bomb list as
    the loop left it. *)
Lemma update_bombs dt st :
  bombs (update rand clock dt st) =
  bombs (updateBombs rand dt (beforeBombs rand clock dt st)).
Proof.
  change (update rand clock dt st) with
    (let t := clock (clockCalls st) in
     pushStats (updateCountdown clock t dt (updateContact clock t
       (updatePowerUps (updateAI rand dt (checkLevelComplete
          (updateExplosions clock t dt
             (updateBombs rand dt (beforeBombs rand clock dt st))))))))).
  apply bombs_afterBombs.
Qed.

(** The phases that precede it only add to the list. *)
Lemma beforeBombs_keeps dt st b :
  In b (bombs st) -> In b (bombs (beforeBombs rand clock dt st)).
Proof.
  intros Hin. unfold beforeBombs, performanceNow. cbn [snd].
  set (st1 := updatePlayer dt _).
  assert (H1 : bombs st1 = bombs st).
  { subst st1. unfold updatePlayer. destruct (inputVector _) as [dx dy].
    reflexivity. }
  unfold updatePlacement. destruct (_ && _); [|now rewrite H1].
  unfold placeBomb. cbn [player set_input bombs].
  destruct (_ <=? _); [cbn; now rewrite H1|].
  destruct (some _ _); [cbn; now rewrite H1|].
  cbn. rewrite H1. apply in_or_app. now left.
Qed.

(** C1 (as the code has it). The bomb loop runs from the last bomb of the
    list to the first. Let the loop reach index [i], holding a bomb [A] that
    goes off, and let the blast computed for [A] cover the cell of another
    bomb [B], at index [j] (no two bombs share a cell). Then [B]'s timer is
    forced to zero. If [B] comes before [A] in the list, the rest of the same
    loop makes [B] explode. If [B] comes after [A], the loop has already
    passed it: [B] is still a live bomb with timer zero when the loop ends,
    and it explodes in the bomb loop of the next tick, whatever non-negative
    time has elapsed. *)
Theorem chain_reaction_follows_loop_order (dt : Q) (st : GameEngine)
    (i j : nat) (A B : Bomb) :
  (0 <= dt)%Q ->
  NoDup (map cellOf (bombs st)) ->
  bombs st !! i = Some A -> bombs st !! j = Some B -> i <> j ->
  (b_timer A - dt <= 0)%Q ->
  (exists cell, In cell (blastOf rand dt i st) /\
                c_col cell = b_col B /\ c_row cell = b_row B) ->
  let afterA := bombStep rand dt i st in
  let afterLoop := downFrom i (bombStep rand dt) afterA in
  In (set_b_timer 0 B) (bombs afterA) /\
  ((j < i)%nat -> appendsExplosionAt (cellOf B) afterA afterLoop) /\
  ((i < j)%nat ->
   In (set_b_timer 0 B) (bombs afterLoop) /\
   forall dt' st',
     (0 <= dt')%Q -> In (set_b_timer 0 B) (bombs st') ->
     let entry := beforeBombs rand clock dt' st' in
     appendsExplosionAt (cellOf B) entry (updateBombs rand dt' entry)).
Proof.
  intros Hdt Hnd HA HB Hij Hfire (cell & Hcell & Hcc & Hcr) afterA afterLoop.
  set (bomb := set_b_timer (b_timer A - dt)%Q A).
  set (st1 := set_bombs (<[i := bomb]> (bombs st)) st).
  assert (HB1 : bombs st1 !! j = Some B).
  { subst st1. cbn. rewrite list_lookup_insert_ne by auto. exact HB. }
  assert (Hnd1 : NoDup (map cellOf (bombs st1))).
  { subst st1. cbn. rewrite (map_cellOf_insert _ _ A); auto. }
  assert (Hzero : bombs (explodeBomb rand bomb st1) !! j =
                  Some (set_b_timer 0 B)).
  { destruct (explodeBomb_blasted rand bomb st1) as (_ & _ & Hhit).
    unfold blastOf in Hcell. rewrite HA in Hcell. cbv zeta in Hcell.
    fold bomb in Hcell. fold st1 in Hcell.
    pose proof (findIndex_unique _ _ _ Hnd1 HB1) as Hidx.
    rewrite <- Hcc, <- Hcr in Hidx.
    destruct (Hhit cell j Hcell Hidx) as (b0 & Hb0 & Hb1).
    rewrite HB1 in Hb0. injection Hb0 as <-. exact Hb1. }
  destruct (bombStep_fire rand dt i st A HA Hfire) as (Hbombs & _).
  fold bomb in Hbombs. fold st1 in Hbombs. fold afterA in Hbombs.
  assert (Hat : exists j', bombs afterA !! j' = Some (set_b_timer 0 B) /\
                  ((j < i)%nat -> j' = j) /\ ((i < j)%nat -> (i <= j')%nat)).
  { rewrite Hbombs. destruct (Nat.lt_ge_cases j i) as [Hlt|Hge].
    - exists j. rewrite list_lookup_delete_lt by exact Hlt.
      repeat split; auto. lia.
    - exists (j - 1)%nat. rewrite list_lookup_delete_ge by lia.
      replace (S (j - 1)) with j by lia. repeat split; auto; lia. }
  destruct Hat as (j' & Hj' & Hbelow & Habove).
  split; [|split].
  - apply list_elem_of_In. eapply list_elem_of_lookup_2. exact Hj'.
  - intros Hlt. rewrite (Hbelow Hlt) in Hj'.
    apply (bombLoop_detonates rand dt i afterA j (set_b_timer 0 B)); auto.
  - intros Hgt. split.
    + apply (bombLoop_passed rand dt i afterA j'); auto.
    + intros dt' st' Hdt' Hin entry.
      assert (Hentry : In (set_b_timer 0 B) (bombs entry))
        by (apply beforeBombs_keeps; exact Hin).
      apply list_elem_of_In, list_elem_of_lookup in Hentry.
      destruct Hentry as (k & Hk).
      apply (bombLoop_detonates rand dt' (length (bombs entry)) entry k
               (set_b_timer 0 B)); auto.
      eapply lookup_lt_Some. exact Hk.
Qed.

End ChainReactionTicks.

Lemma chain_reaction_follows_loop_order_witness :
  let B := mkBomb 0 2 1 984 2 "player" in
  let reached := bombStep randHalf 16 1 twoBombs in
  let afterA := bombStep randHalf 16 0 reached in
  let afterLoop := downFrom 0 (bombStep randHalf 16) afterA in
  let entry := beforeBombs randHalf (clockAt 5000) 16 afterLoop in
  In (set_b_timer 0 B) (bombs afterLoop) /\
  appendsExplosionAt (cellOf B) entry (updateBombs randHalf 16 entry).
Proof.
  intros B reached afterA afterLoop entry.
  pose proof (chain_reaction_follows_loop_order randHalf (clockAt 5000) 16
                reached 0 1 (mkBomb 0 1 1 10 2 "player") B)
    as H.
  cbv zeta in H.
  destruct H as (_ & _ & Hlater).
  - vm_compute. discriminate.
  - vm_compute. apply NoDup_cons. split.
    + rewrite list_elem_of_singleton. discriminate.
    + apply NoDup_singleton.
  - reflexivity.
  - reflexivity.
  - discriminate.
  - vm_compute. discriminate.
  - exists (mkCell 2 1 false RIGHT). vm_compute. auto.
  - destruct (Hlater ltac:(lia)) as (Hstill & Hnext).
    split; [exact Hstill|].
    apply (Hnext 16%Q afterLoop); [vm_compute; discriminate|exact Hstill].
Defined.

(** C1, counterexample. The bomb at (1,1) was placed first and goes off in
    this tick; its blast covers (2,1), where the second bomb lies. At the end
    of the tick the second bomb is still on the list, with its timer at zero,
    and the only explosion is the first bomb's. It explodes in the next
    tick. *)
Lemma chain_reaction_waits_a_tick :
  let s1 := update randHalf (clockAt 5000) 16 twoBombs in
  let s2 := update randHalf (clockAt 5000) 16 s1 in
  bombs twoBombs =
    [mkBomb 0 1 1 10 2 "player"; mkBomb 0 2 1 1000 2 "player"] /\
  bombs s1 = [mkBomb 0 2 1 0 2 "player"] /\
  explosions s1 =
    [mkExplosion 0.5 (mkGridPoint 1 1)
       [mkCell 1 1 false NONE; mkCell 1 2 false DOWN; mkCell 1 3 true DOWN;
        mkCell 2 1 false RIGHT] 584] /\
  bombs s2 = [] /\
  map ex_center (explosions s2) = [mkGridPoint 1 1; mkGridPoint 2 1].
Proof. vm_compute. repeat split; reflexivity. Qed.

(* ===================================================================== *)
(** * Further properties *)

(** ** Shape of the paths returned by [findPath] *)

Module PathFacts.
Import AI AIVocabulary.

Lemma heuristic_sym a b : heuristic a b = heuristic b a.
Proof. unfold heuristic. lia. Qed.

Lemma unitSteps_snoc l a :
  unitSteps l -> (forall z, last l = Some z -> heuristic z a = 1) ->
  unitSteps (l ++ [a]).
Proof.
  induction l as [|x l IH]; intros Hl Hz; [exact I|].
  destruct l as [|y l].
  - cbn. split; [apply Hz; reflexivity|exact I].
  - destruct Hl as [Hxy Hl]. split; [exact Hxy|].
    apply IH; [exact Hl|]. intros z Hlast. apply Hz. exact Hlast.
Qed.

Lemma unitSteps_rev l : unitSteps l -> unitSteps (rev l).
Proof.
  induction l as [|a l IH]; intros Hl; [exact I|].
  cbn [rev]. apply unitSteps_snoc.
  - apply IH. destruct l; [exact I|apply Hl].
  - intros z Hz. destruct l as [|b l]; [discriminate|].
    cbn [rev] in Hz. rewrite last_snoc in Hz. injection Hz as <-.
    rewrite heuristic_sym. apply Hl.
Qed.

Lemma backLinks_unitSteps n : stepLinked n -> unitSteps (backLinks n).
Proof.
  induction n as [x y g h f|x y g h f p IH] using PathNode_links_ind;
    intros H; [exact I|].
  destruct H as [Hstep Hp].
  change (backLinks (mkPathNode x y g h f (Some p)))
    with (mkGridPoint x y :: backLinks p).
  specialize (IH Hp).
  destruct p as [px0 py0 pg ph pf pp]. cbn in Hstep.
  change (backLinks (mkPathNode px0 py0 pg ph pf pp))
    with (mkGridPoint px0 py0 ::
          match pp with None => [] | Some q => backLinks q end) in *.
  split; [exact Hstep|exact IH].
Qed.

Lemma last_rev_backLinks n :
  last (rev (backLinks n)) = Some (mkGridPoint (node_x n) (node_y n)).
Proof.
  destruct n as [x y g h f p].
  change (backLinks (mkPathNode x y g h f p))
    with (mkGridPoint x y ::
          match p with None => [] | Some q => backLinks q end).
  cbn [rev]. apply last_snoc.
Qed.

Lemma In_neighbors_step current nb :
  In nb (neighbors current) ->
  Z.abs (fst nb - node_x current) + Z.abs (snd nb - node_y current) = 1.
Proof.
  unfold neighbors. cbn. intros [<-|[<-|[<-|[<-|[]]]]]; cbn; lia.
Qed.

Section Search.

Variable P : PathNode -> Prop.
Variable walk : Z -> Z -> bool.
Variable target : GridPoint.

(** [P] holds for a node made from a walkable neighbour of a [P] node. *)
Hypothesis P_child : forall current nb g h f,
  P current -> In nb (neighbors current) -> walk (fst nb) (snd nb) = true ->
  P (mkPathNode (fst nb) (snd nb) g h f (Some current)).

Lemma visit_keeps closedSet current openSet nb :
  P current -> In nb (neighbors current) -> Forall P openSet ->
  Forall P (visit walk target closedSet current openSet nb).
Proof.
  intros Hc Hin Ho. unfold visit.
  pose proof (P_child current nb) as Hchild.
  destruct nb as [nx ny]. cbn [fst snd] in Hchild.
  destruct (inClosed closedSet nx ny); [exact Ho|].
  destruct (walk nx ny) eqn:Hw; cbn [negb]; [|exact Ho].
  destruct (findIndex _ openSet) as [i|] eqn:Hi.
  - destruct (findIndex_Some _ _ _ Hi) as (a & Ha & Hp & _).
    rewrite Ha. destruct (_ <? _); [|exact Ho].
    apply Forall_insert; [exact Ho|].
    apply andb_prop in Hp. destruct Hp as [Hx Hy].
    apply Z.eqb_eq in Hx, Hy. rewrite Hx, Hy. auto.
  - apply Forall_app. split; [exact Ho|].
    constructor; [|constructor]. auto.
Qed.

Lemma visits_keep closedSet current nbs : forall openSet,
  P current -> (forall nb, In nb nbs -> In nb (neighbors current)) ->
  Forall P openSet ->
  Forall P (fold_left (visit walk target closedSet current) nbs openSet).
Proof.
  induction nbs as [|nb nbs IH]; intros openSet Hc Hsub Ho; [exact Ho|].
  cbn [fold_left]. apply IH; auto.
  - intros nb' Hin. apply Hsub. now right.
  - apply visit_keeps; auto. apply Hsub. now left.
Qed.

(** What [search] returns is the chain of back links of a [P] node lying on
    the target. *)
Lemma search_returns fuel : forall openSet closedSet path,
  Forall P openSet ->
  search walk target fuel openSet closedSet = Some path ->
  exists n, P n /\ node_x n = col target /\ node_y n = row target /\
            path = rev (backLinks n).
Proof.
  induction fuel as [|fuel IH]; intros openSet closedSet path Ho Hs.
  - destruct openSet; discriminate.
  - destruct openSet as [|n0 tl] eqn:Eo; [discriminate|].
    rewrite <- Eo in *. clear Eo n0 tl.
    assert (Hs' :
      match openSet !! lowestIndex openSet with
      | None => None
      | Some current =>
        if (node_x current =? col target) && (node_y current =? row target)
        then Some (rev (backLinks current))
        else
          search walk target fuel
            (fold_left
               (visit walk target
                  ((node_x current, node_y current) :: closedSet) current)
               (neighbors current) (delete (lowestIndex openSet) openSet))
            ((node_x current, node_y current) :: closedSet)
      end = Some path).
    { destruct openSet; [discriminate|exact Hs]. }
    clear Hs. destruct (openSet !! lowestIndex openSet) as [current|] eqn:Hcur;
      [|discriminate].
    assert (Hc : P current) by (eapply Forall_lookup_1; eauto).
    destruct (_ && _) eqn:Hat.
    + injection Hs' as <-. apply andb_prop in Hat. destruct Hat as [Hx Hy].
      apply Z.eqb_eq in Hx, Hy. exists current. auto.
    + eapply IH; [|exact Hs'].
      apply visits_keep; auto. apply Forall_delete. exact Ho.
Qed.

End Search.

Lemma findPath_returns start target grid bombs path :
  findPath start target grid bombs = Some path ->
  exists n,
    (wellLinked (fun c r => isWalkable c r grid bombs false) start n /\
     stepLinked n) /\
    node_x n = col target /\ node_y n = row target /\
    path = rev (backLinks n).
Proof.
  rewrite AIFacts.findPath_eq. generalize MAX_ITERATIONS. intros fuel H.
  eapply search_returns; [|constructor; [|constructor]|exact H].
  - intros current nb g h f [Hw Hs] Hin Hwalk. cbn. repeat split; auto.
    apply In_neighbors_step. exact Hin.
  - cbn. split; [destruct start; reflexivity|exact I].
Qed.

Lemma findPath_walk start target grid bombs path :
  findPath start target grid bombs = Some path ->
  exists rest,
    path = start :: rest /\ last path = Some target /\ unitSteps path.
Proof.
  intros H. destruct (findPath_returns _ _ _ _ _ H)
    as (n & (Hw & Hs) & Hx & Hy & ->).
  destruct (AIFacts.backLinks_wellLinked _ _ _ Hw) as (rest & Hrev & _).
  exists rest. split; [exact Hrev|]. split.
  - rewrite last_rev_backLinks, Hx, Hy. destruct target; reflexivity.
  - apply unitSteps_rev, backLinks_unitSteps. exact Hs.
Qed.

(** X1. A path returned by [findPath] is a walk from the start to the
    target: its first cell is the start, its last cell is the target, and
    consecutive cells are one step apart. *)
Theorem findPath_walks_from_start_to_target (start target : GridPoint)
    (grid : Grid) (bombs : list GridPoint) (path : list GridPoint) :
  findPath start target grid bombs = Some path ->
  head path = Some start /\ last path = Some target /\ unitSteps path.
Proof.
  intros H. destruct (findPath_walk _ _ _ _ _ H) as (rest & -> & Hl & Hs).
  repeat split; auto.
Qed.

Lemma findPath_walks_from_start_to_target_witness :
  head [mkGridPoint 1 1; mkGridPoint 2 1; mkGridPoint 3 1] =
    Some (mkGridPoint 1 1) /\
  last [mkGridPoint 1 1; mkGridPoint 2 1; mkGridPoint 3 1] =
    Some (mkGridPoint 3 1) /\
  unitSteps [mkGridPoint 1 1; mkGridPoint 2 1; mkGridPoint 3 1].
Proof.
  apply (findPath_walks_from_start_to_target (mkGridPoint 1 1)
           (mkGridPoint 3 1) arenaGrid []).
  vm_compute. reflexivity.
Defined.

Lemma isWalkable_true c r grid bombs :
  isWalkable c r grid bombs false = true ->
  inGrid c r = true /\ tileAt grid r c = Some EMPTY.
Proof.
  unfold isWalkable, inGrid. destruct (_ || _); [discriminate|].
  destruct (tileAt grid r c) as [[| |]|]; cbn; try discriminate. auto.
Qed.

(** X2. Every cell of a returned path after the first lies on the board and
    on an [EMPTY] tile: the search never routes through a wall or off the
    grid. *)
Theorem findPath_stays_on_empty_tiles (start target : GridPoint)
    (grid : Grid) (bombs : list GridPoint) (path : list GridPoint) :
  findPath start target grid bombs = Some path ->
  forall p, In p (tail path) ->
    inGrid (col p) (row p) = true /\
    tileAt grid (row p) (col p) = Some EMPTY.
Proof.
  intros H p Hp. destruct (findPath_returns _ _ _ _ _ H)
    as (n & (Hw & _) & _ & _ & ->).
  destruct (AIFacts.backLinks_wellLinked _ _ _ Hw) as (rest & Hrev & Hall).
  rewrite Hrev in Hp. cbn [tail] in Hp.
  rewrite Forall_forall in Hall. apply list_elem_of_In in Hp.
  eapply isWalkable_true. exact (Hall p Hp).
Qed.

Lemma findPath_stays_on_empty_tiles_witness :
  inGrid (col (mkGridPoint 3 1)) (row (mkGridPoint 3 1)) = true /\
  tileAt arenaGrid (row (mkGridPoint 3 1)) (col (mkGridPoint 3 1))
    = Some EMPTY.
Proof.
  apply (findPath_stays_on_empty_tiles (mkGridPoint 1 1) (mkGridPoint 3 1)
           arenaGrid [] [mkGridPoint 1 1; mkGridPoint 2 1; mkGridPoint 3 1]).
  - vm_compute. reflexivity.
  - simpl. right. left. reflexivity.
Defined.

(** X3. On a grid with its 13 rows (the rows [isWalkable] indexes exist), a
    target that is not the start and is not walkable (off the board, on a
    wall, or under a bomb) yields no path. *)
Theorem findPath_unwalkable_target (start target : GridPoint)
    (grid : Grid) (bombs : list GridPoint) :
  length grid = Z.to_nat GRID_ROWS ->
  target <> start ->
  isWalkable (col target) (row target) grid bombs false = false ->
  findPath start target grid bombs = None.
Proof.
  intros _ Hne Hblocked.
  destruct (findPath start target grid bombs) as [path|] eqn:H; [|reflexivity].
  exfalso. destruct (findPath_returns _ _ _ _ _ H)
    as (n & (Hw & _) & Hx & Hy & ->).
  destruct (AIFacts.backLinks_wellLinked _ _ _ Hw) as (rest & Hrev & Hall).
  pose proof (last_rev_backLinks n) as Hlast. rewrite Hrev, Hx, Hy in Hlast.
  destruct rest as [|q rest].
  - cbn in Hlast. injection Hlast as ->. apply Hne. destruct target; reflexivity.
  - assert (Hin : mkGridPoint (col target) (row target) ∈ q :: rest).
    { change (last (start :: q :: rest)) with (last (q :: rest)) in Hlast.
      apply last_Some in Hlast. destruct Hlast as (l' & ->).
      apply list_elem_of_In, in_or_app. right. now left. }
    rewrite Forall_forall in Hall. specialize (Hall _ Hin). cbn in Hall.
    congruence.
Qed.

Lemma findPath_unwalkable_target_witness :
  findPath (mkGridPoint 1 1) (mkGridPoint 2 2) arenaGrid [] = None.
Proof.
  apply findPath_unwalkable_target.
  - reflexivity.
  - discriminate.
  - vm_compute. reflexivity.
Defined.

Lemma unitSteps_length l : forall a z,
  unitSteps (a :: l) -> last (a :: l) = Some z ->
  heuristic a z <= Z.of_nat (length l).
Proof.
  induction l as [|b l IH]; intros a z Hs Hl.
  - cbn in Hl. injection Hl as <-. unfold heuristic. cbn. lia.
  - destruct Hs as [Hab Hs].
    change (last (a :: b :: l)) with (last (b :: l)) in Hl.
    specialize (IH b z Hs Hl). cbn [length].
    unfold heuristic in *. lia.
Qed.

(** X4. No returned path is shorter than the Manhattan distance allows: it
    has at least |dx| + |dy| + 1 cells. *)
Theorem findPath_at_least_manhattan (start target : GridPoint)
    (grid : Grid) (bombs : list GridPoint) (path : list GridPoint) :
  findPath start target grid bombs = Some path ->
  heuristic start target + 1 <= Z.of_nat (length path).
Proof.
  intros H.
  destruct (findPath_walk start target grid bombs path H)
    as (rest & -> & Hlast & Hsteps).
  pose proof (unitSteps_length rest start target Hsteps Hlast).
  cbn [length]. lia.
Qed.

Lemma findPath_at_least_manhattan_witness :
  heuristic (mkGridPoint 1 1) (mkGridPoint 3 1) + 1 <=
  Z.of_nat (length [mkGridPoint 1 1; mkGridPoint 2 1; mkGridPoint 3 1]).
Proof.
  apply (findPath_at_least_manhattan (mkGridPoint 1 1) (mkGridPoint 3 1)
           arenaGrid []).
  vm_compute. reflexivity.
Defined.

End PathFacts.

(* ===================================================================== *)
(** ** Movement and collision *)

Lemma some_bombPoints c r bs :
  some (fun b => (col b =? c) && (row b =? r))
       (map (fun b => mkGridPoint (b_col b) (b_row b)) bs) =
  some (bombAt c r) bs.
Proof.
  induction bs as [|b bs IH]; [reflexivity|].
  cbn. unfold some in IH. rewrite IH. reflexivity.
Qed.

(** X5. The point test used for corner sliding and the walkability test of
    the pathfinder agree: a pixel is blocked exactly when its tile is not
    walkable for [findPath] called with the engine's bombs. *)
Theorem isPointBlocked_is_not_walkable (st : GameEngine) (x y : Q) :
  isPointBlocked st x y =
  negb (AI.isWalkable (tileOf x) (tileOf y) (grid st) (bombPoints st) false).
Proof.
  unfold isPointBlocked, AI.isWalkable, bombPoints.
  rewrite some_bombPoints.
  destruct (tileOf y <? 0), (GRID_ROWS <=? tileOf y), (tileOf x <? 0),
    (GRID_COLS <=? tileOf x); cbn; try reflexivity.
  destruct (notEmpty _); cbn; [reflexivity|].
  destruct (some _ _); reflexivity.
Qed.

Lemma Qmaxb_0_range v w :
  (0 <= w)%Q -> (0 <= Qmaxb 0 (Qminb v w) <= w)%Q.
Proof.
  intros Hw. unfold Qmaxb, Qminb.
  destruct (Qle_bool v w) eqn:Hvw.
  - apply Qle_bool_iff in Hvw.
    destruct (Qle_bool 0 v) eqn:H0; [apply Qle_bool_iff in H0; split; lra|].
    split; lra.
  - destruct (Qle_bool 0 w) eqn:H0; split; lra.
Qed.

(** X6. Whatever the entity, the direction and the speed, [moveEntity]
    leaves the position on the canvas: 0 <= x <= CANVAS_WIDTH - TILE_SIZE
    and 0 <= y <= CANVAS_HEIGHT - TILE_SIZE. *)
Theorem moveEntity_stays_on_canvas (st : GameEngine) (isPlayer : bool)
    (x y dx dy speed : Q) :
  let p := moveEntity st isPlayer x y dx dy speed in
  (0 <= fst p <= inject_Z (CANVAS_WIDTH - TILE_SIZE))%Q /\
  (0 <= snd p <= inject_Z (CANVAS_HEIGHT - TILE_SIZE))%Q.
Proof.
  unfold moveEntity. cbv zeta.
  repeat match goal with
         | |- context [let '(_, _) := ?e in _] => destruct e as [? ?]
         end.
  cbn [fst snd]. split; apply Qmaxb_0_range; vm_compute; discriminate.
Qed.

(** X7. An enemy is never moved into a blocked spot. For an entity other
    than the player, [moveEntity] ends (before the bounds check) either
    where it started or with one or both coordinates advanced by the
    requested step, and in the latter case the hitbox at the new position
    touches no wall, no bomb and no tile outside the board. *)
Theorem enemy_move_never_enters_blocked (st : GameEngine)
    (x y dx dy speed : Q) :
  exists x' y',
    moveEntity st false x y dx dy speed = clampToCanvas x' y' /\
    (x' = x \/ x' = (x + dx * speed)%Q) /\
    (y' = y \/ y' = (y + dy * speed)%Q) /\
    ((x', y') = (x, y) \/ enemyHitboxBlocked st x' y' = false).
Proof.
  unfold moveEntity, enemyHitboxBlocked, clampToCanvas. cbv zeta.
  cbn [andb fst snd].
  destruct (checkCollision st _ _ (x + dx * speed + 8) _ _ _ false) eqn:Hh;
    cbn [negb];
    match goal with
    | |- context [checkCollision st ?a ?b ?c ?d ?e ?f false] =>
        destruct (checkCollision st a b c d e f false) eqn:Hv
    end; cbn [negb];
    eexists; eexists; (split; [reflexivity|]); repeat split; auto.
Qed.

Lemma some_impl {A} (p q : A -> bool) (l : list A) :
  (forall a, p a = true -> q a = true) ->
  some p l = true -> some q l = true.
Proof.
  intros Hpq. unfold some. rewrite !existsb_exists.
  intros (a & Hin & Hp). exists a. auto.
Qed.

(** X8. The player is blocked no more often than an enemy: a hitbox that
    [checkCollision] rejects for the player is rejected for any other entity
    as well (the player's only privilege is to leave a bomb it overlaps),
    and with no bomb on the board the two tests coincide. *)
Theorem checkCollision_player_privilege (st : GameEngine)
    (plx ply x y w h : Q) :
  (checkCollision st plx ply x y w h true = true ->
   checkCollision st plx ply x y w h false = true) /\
  (bombs st = [] ->
   checkCollision st plx ply x y w h true =
   checkCollision st plx ply x y w h false).
Proof.
  unfold checkCollision. split.
  - apply some_impl. intros [c r] H.
    destruct (_ || _); [reflexivity|]. destruct (notEmpty _); [reflexivity|].
    revert H. apply some_impl. intros b Hb.
    apply andb_prop in Hb. destruct Hb as [-> _]. reflexivity.
  - intros ->. reflexivity.
Qed.

Lemma checkCollision_player_privilege_witness :
  checkCollision arena 48 48 8 56 32 32 false = true /\
  checkCollision arena 48 48 56 56 32 32 true =
  checkCollision arena 48 48 56 56 32 32 false.
Proof.
  split.
  - apply (proj1 (checkCollision_player_privilege arena 48 48 8 56 32 32)).
    vm_compute. reflexivity.
  - apply (proj2 (checkCollision_player_privilege arena 48 48 56 56 32 32)).
    reflexivity.
Defined.

(* ===================================================================== *)
(** ** A frame rule for the tick

    [update] changes the state only through a few elementary steps. A
    relation between states that is reflexive and transitive and that every
    elementary step respects is respected by every phase of the tick, and by
    the tick. *)

Section FrameRule.

Variable rand : nat -> Q.
Variable clock : nat -> Q.
Variable R : GameEngine -> GameEngine -> Prop.

Hypothesis R_refl : forall st, R st st.
Hypothesis R_trans : forall st1 st2 st3, R st1 st2 -> R st2 st3 -> R st1 st3.

(** The elementary steps. *)
Hypothesis step_random : forall st, R st (snd (random rand st)).
Hypothesis step_clock : forall st, R st (snd (performanceNow clock st)).
Hypothesis step_bombs : forall v st, R st (set_bombs v st).
Hypothesis step_explosions : forall v st, R st (set_explosions v st).
Hypothesis step_enemies : forall v st, R st (set_enemies v st).
Hypothesis step_powerUps : forall v st, R st (set_powerUps v st).
Hypothesis step_input : forall v st, R st (set_input v st).
Hypothesis step_bombsCount : forall k st,
  R st (set_player (set_pl_bombsCount k (player st)) st).
Hypothesis step_updatePlayer : forall dt st, R st (updatePlayer dt st).
Hypothesis step_destroyBlock : forall c r st,
  inGrid c r = true -> tileAt (grid st) r c = Some WALL_SOFT ->
  R st (destroyBlock rand c r st).
Hypothesis step_reward : forall a b st,
  0 <= a -> 0 <= b ->
  R st (set_gameTime (gameTime st + b) (set_score (score st + a) st)).
Hypothesis step_applyPowerUp : forall p st, R st (applyPowerUp p st).
Hypothesis step_killPlayer : forall st, R st (killPlayer clock st).
Hypothesis step_levelComplete : forall st,
  R st (emit LevelComplete (set_isLevelComplete true st)).
Hypothesis step_second : forall st, R st (set_gameTime (gameTime st - 1) st).
Hypothesis step_stats : forall s st, R st (emit (StatsUpdate s) st).

Lemma frame_fold {A} (f : GameEngine -> A -> GameEngine) (l : list A) :
  (forall st a, R st (f st a)) -> forall st, R st (fold_left f l st).
Proof.
  intros Hf. induction l as [|a l IH]; intros st; cbn; [apply R_refl|].
  eapply R_trans; [apply Hf|apply IH].
Qed.

Lemma frame_downFrom (body : nat -> GameEngine -> GameEngine) n :
  (forall i st, R st (body i st)) -> forall st, R st (downFrom n body st).
Proof.
  intros Hb. induction n as [|n IH]; intros st; cbn; [apply R_refl|].
  eapply R_trans; [apply Hb|apply IH].
Qed.

Lemma frame_placeBomb st : R st (placeBomb rand st).
Proof.
  unfold placeBomb. destruct (_ <=? _); [apply R_refl|].
  destruct (some _ _); [apply R_refl|].
  pose proof (step_random st) as H1. unfold random in *. cbn [snd] in H1.
  cbv zeta beta iota.
  eapply R_trans; [exact H1|].
  eapply R_trans; [apply step_bombs|]. apply step_bombsCount.
Qed.

Lemma frame_updatePlacement st : R st (updatePlacement rand st).
Proof.
  unfold updatePlacement. destruct (_ && _); [|apply R_refl].
  eapply R_trans; [apply step_input|apply frame_placeBomb].
Qed.

Lemma frame_blastRay n : forall i bomb dx dy dir st,
  R st (snd (blastRay rand n i bomb dx dy dir st)).
Proof.
  induction n as [|n IH]; intros; cbn [blastRay]; [apply R_refl|].
  destruct (_ || _) eqn:Hb; [apply R_refl|].
  assert (Hin : inGrid (b_col bomb + dx * i) (b_row bomb + dy * i) = true).
  { unfold inGrid. apply negb_true_iff.
    repeat (apply orb_false_elim in Hb; destruct Hb as [Hb ?]).
    rewrite Hb, H, H0, H1. reflexivity. }
  destruct (tileAt _ _ _) as [[| |]|] eqn:Ht;
    try (apply R_refl);
    (destruct (findIndex _ _); [apply step_bombs|]);
    try (apply step_destroyBlock; assumption);
    specialize (IH (i + 1) bomb dx dy dir st);
    destruct (blastRay _ _ _ _ _ _ _ _); exact IH.
Qed.

Lemma frame_rays bomb ds : forall st, R st (snd (rays rand bomb ds st)).
Proof.
  induction ds as [|[[dx dy] dir] ds IH]; intros st; cbn [rays];
    [apply R_refl|].
  unfold ray.
  pose proof (frame_blastRay (Z.to_nat (b_range bomb)) 1 bomb dx dy dir st) as H1.
  destruct (blastRay _ _ _ _ _ _ _ _) as [cells st1].
  specialize (IH st1). destruct (rays _ _ _ _) as [more st2].
  eapply R_trans; eauto.
Qed.

Lemma frame_explodeBomb bomb st : R st (explodeBomb rand bomb st).
Proof.
  unfold explodeBomb.
  pose proof (frame_rays bomb directions st) as H.
  destruct (rays _ _ _ _) as [cells st1]. cbn [snd] in H.
  pose proof (step_random st1) as H1. unfold random in *. cbn [snd] in H1.
  cbv zeta beta iota.
  eapply R_trans; [exact H|]. eapply R_trans; [exact H1|].
  apply step_explosions.
Qed.

Lemma frame_bombStep dt i st : R st (bombStep rand dt i st).
Proof.
  unfold bombStep. destruct (_ !! _) as [b|]; [|apply R_refl].
  cbv zeta. destruct (Qleb _ _); [|apply step_bombs].
  eapply R_trans; [apply step_bombs|].
  eapply R_trans; [apply frame_explodeBomb|].
  destruct (String.eqb _ _).
  - eapply R_trans; [apply step_bombs|]. apply step_bombsCount.
  - apply step_bombs.
Qed.

Lemma frame_updateBombs dt st : R st (updateBombs rand dt st).
Proof. apply frame_downFrom. intros. apply frame_bombStep. Qed.

Lemma frame_hitEnemy t cell e st : R st (snd (hitEnemy t cell e st)).
Proof.
  unfold hitEnemy. destruct (_ && _); [|apply R_refl].
  destruct (_ && _); [apply R_refl|]. cbv zeta.
  destruct (_ <=? _); [|apply R_refl]. cbn [snd].
  match goal with
  | |- R st (set_gameTime (_ + ?b) (set_score (_ + ?a) st)) =>
      apply (step_reward a b st)
  end; destruct (en_isBoss _); lia.
Qed.

Lemma frame_hitEnemies t cell es : forall st,
  R st (snd (hitEnemies t cell es st)).
Proof.
  induction es as [|e es IH]; intros st; cbn [hitEnemies]; [apply R_refl|].
  pose proof (frame_hitEnemy t cell e st) as H1.
  destruct (hitEnemy _ _ _ _) as [e' st1].
  specialize (IH st1). destruct (hitEnemies _ _ _ _) as [rest st2].
  eapply R_trans; eauto.
Qed.

Lemma frame_cellDamage t st cell : R st (cellDamage clock t st cell).
Proof.
  unfold cellDamage. cbv zeta.
  match goal with
  | |- context [hitEnemies t cell (enemies ?s) ?s] => set (st1 := s)
  end.
  assert (H1 : R st st1).
  { subst st1. destruct (_ && _); [apply step_killPlayer|apply R_refl]. }
  pose proof (frame_hitEnemies t cell (enemies st1) st1) as H2.
  destruct (hitEnemies _ _ _ _) as [es st2]. cbn [snd] in H2.
  eapply R_trans; [exact H1|]. eapply R_trans; [exact H2|].
  apply step_enemies.
Qed.

Lemma frame_explosionStep t dt i st : R st (explosionStep clock t dt i st).
Proof.
  unfold explosionStep. destruct (_ !! _) as [e|]; [|apply R_refl].
  eapply R_trans; [apply step_explosions|].
  match goal with
  | |- R ?s (if _ then set_explosions _ ?s' else ?s') =>
      assert (H : R s s') by (apply frame_fold; intros; apply frame_cellDamage)
  end.
  destruct (Qleb _ _); [|exact H].
  eapply R_trans; [exact H|apply step_explosions].
Qed.

Lemma frame_updateExplosions t dt st : R st (updateExplosions clock t dt st).
Proof. apply frame_downFrom. intros. apply frame_explosionStep. Qed.

Lemma frame_checkLevelComplete st : R st (checkLevelComplete st).
Proof.
  unfold checkLevelComplete. cbv zeta.
  destruct (_ && _); [|apply step_enemies].
  eapply R_trans; [apply step_enemies|apply step_levelComplete].
Qed.

Lemma frame_updateEnemyAI dt e st : R st (snd (updateEnemyAI rand dt e st)).
Proof.
  pose proof (step_random st) as H1.
  pose proof (step_random (snd (random rand st))) as H2.
  assert (H12 := R_trans _ _ _ H1 H2).
  unfold random in H1, H2, H12. cbn [snd randCalls set_randCalls] in H1, H2, H12.
  unfold updateEnemyAI, random.
  repeat (lazy beta iota;
    first [ match goal with
            | |- context [match ?x with WALKER => _ | CHASER => _ end] =>
                destruct x eqn:?
            end
          | break_if
          | match goal with
            | |- context [let '(_, _) := ?p in _] => destruct p eqn:?
            end ]);
  cbn [snd]; first [apply R_refl | exact H1 | exact H12].
Qed.

Lemma frame_updateEnemies dt es : forall st,
  R st (snd (updateEnemies rand dt es st)).
Proof.
  induction es as [|e es IH]; intros st; cbn [updateEnemies]; [apply R_refl|].
  pose proof (frame_updateEnemyAI dt e st) as H1.
  destruct (updateEnemyAI _ _ _ _) as [e' st1].
  specialize (IH st1). destruct (updateEnemies _ _ _ _) as [rest st2].
  eapply R_trans; eauto.
Qed.

Lemma frame_updateAI dt st : R st (updateAI rand dt st).
Proof.
  unfold updateAI. destruct (negb _); [|apply R_refl].
  pose proof (frame_updateEnemies dt (enemies st) st) as H.
  destruct (updateEnemies _ _ _ _) as [es st1].
  eapply R_trans; [exact H|apply step_enemies].
Qed.

Lemma frame_powerUpStep i st : R st (powerUpStep i st).
Proof.
  unfold powerUpStep. destruct (_ !! _) as [p|]; [|apply R_refl].
  destruct (_ && _); [|apply R_refl].
  eapply R_trans; [apply step_applyPowerUp|apply step_powerUps].
Qed.

Lemma frame_updatePowerUps st : R st (updatePowerUps st).
Proof. apply frame_downFrom. intros. apply frame_powerUpStep. Qed.

Lemma frame_updateContact t st : R st (updateContact clock t st).
Proof.
  unfold updateContact. destruct (Qltb _ _); [|apply R_refl].
  apply frame_fold. intros s e.
  destruct (touches _ _); [apply step_killPlayer|apply R_refl].
Qed.

Lemma frame_updateCountdown t dt st : R st (updateCountdown clock t dt st).
Proof.
  unfold updateCountdown. destruct (negb _); [|apply R_refl].
  cbv zeta. destruct (_ <=? _); [|apply step_second].
  eapply R_trans; [apply step_second|apply step_killPlayer].
Qed.

Lemma frame_pushStats st : R st (pushStats st).
Proof. apply step_stats. Qed.

(** The phases of the tick that follow the enemy AI, the level check, the
    explosion loop and the bomb loop. *)
Lemma frame_afterAI t dt st :
  R st (pushStats (updateCountdown clock t dt (updateContact clock t
          (updatePowerUps st)))).
Proof.
  eapply R_trans; [|apply frame_pushStats].
  eapply R_trans; [|apply frame_updateCountdown].
  eapply R_trans; [|apply frame_updateContact].
  apply frame_updatePowerUps.
Qed.

Lemma frame_afterExplosions t dt st :
  R st (pushStats (updateCountdown clock t dt (updateContact clock t
          (updatePowerUps (updateAI rand dt (checkLevelComplete st)))))).
Proof.
  eapply R_trans; [|apply frame_afterAI].
  eapply R_trans; [|apply frame_updateAI].
  apply frame_checkLevelComplete.
Qed.

Lemma frame_afterBombs t dt st :
  R st (pushStats (updateCountdown clock t dt (updateContact clock t
          (updatePowerUps (updateAI rand dt (checkLevelComplete
             (updateExplosions clock t dt st))))))).
Proof.
  eapply R_trans; [|apply frame_afterExplosions].
  apply frame_updateExplosions.
Qed.

Lemma frame_beforeBombs dt st : R st (beforeBombs rand clock dt st).
Proof.
  unfold beforeBombs.
  eapply R_trans; [|apply frame_updatePlacement].
  eapply R_trans; [|apply step_updatePlayer].
  apply step_clock.
Qed.

(** The frame rule. *)
Lemma frame_update dt st : R st (update rand clock dt st).
Proof.
  unfold update.
  pose proof (step_clock st) as H0. unfold performanceNow in *.
  cbn [snd] in H0. cbv zeta beta iota.
  eapply R_trans; [|apply frame_pushStats].
  eapply R_trans; [|apply frame_updateCountdown].
  eapply R_trans; [|apply frame_updateContact].
  eapply R_trans; [|apply frame_updatePowerUps].
  eapply R_trans; [|apply frame_updateAI].
  eapply R_trans; [|apply frame_checkLevelComplete].
  eapply R_trans; [|apply frame_updateExplosions].
  eapply R_trans; [|apply frame_updateBombs].
  eapply R_trans; [|apply frame_updatePlacement].
  eapply R_trans; [|apply step_updatePlayer].
  exact H0.
Qed.

End FrameRule.

(* ===================================================================== *)
(** ** Lives and defeat *)

Lemma defeatCalls_emit e st :
  defeatCalls (emit e st) =
  (defeatCalls st + (if isDefeatEvent e then 1 else 0))%nat.
Proof.
  unfold defeatCalls, emit. cbn.
  rewrite List.filter_app, length_app. cbn.
  destruct (isDefeatEvent e); reflexivity.
Qed.

Lemma sameVitals_refl st : sameVitals st st.
Proof. repeat split. Qed.

Lemma hurt_trans st1 st2 st3 : hurt st1 st2 -> hurt st2 st3 -> hurt st1 st3.
Proof.
  unfold hurt, sameVitals, lostLife.
  intros [(L1 & D1 & G1 & C1 & P1)|(A1 & D1 & L1 & H1)]
         [(L2 & D2 & G2 & C2 & P2)|(A2 & D2 & L2 & H2)].
  - left. repeat split; congruence.
  - right. rewrite <- D1, <- L1, <- G1, <- C1, <- P1. auto.
  - right. rewrite L2, D2, G2, C2, P2. auto.
  - congruence.
Qed.

Section Lives.

Variable rand : nat -> Q.
Variable clock : nat -> Q.

Lemma hurt_killPlayer st : hurt st (killPlayer clock st).
Proof.
  unfold killPlayer, performanceNow. cbv zeta beta iota.
  destruct (Qltb _ _); cbn [orb]; [left; repeat split|].
  destruct (pl_isDead _) eqn:Hd; [left; repeat split|].
  right. unfold lostLife. cbn in Hd. rewrite Hd.
  cbn [lives set_lives set_player set_clockCalls player].
  destruct (lives st - 1 <=? 0) eqn:Hl.
  - cbn. rewrite Hl. unfold defeatCalls. cbn.
    rewrite List.filter_app, length_app. cbn. repeat split. lia.
  - cbn. rewrite Hl. repeat split.
Qed.

(** During one tick the player dies at most once. *)
Lemma hurt_update dt st : hurt st (update rand clock dt st).
Proof.
  apply frame_update.
  - intros s. left. apply sameVitals_refl.
  - apply hurt_trans.
  - intros s. left. repeat split.
  - intros s. left. repeat split.
  - intros v s. left. repeat split.
  - intros v s. left. repeat split.
  - intros v s. left. repeat split.
  - intros v s. left. repeat split.
  - intros v s. left. repeat split.
  - intros k s. left. repeat split.
  - intros d s. left. unfold updatePlayer.
    destruct (inputVector _) as [dx dy].
    destruct (_ || _); [destruct (moveEntity _ _ _ _ _ _ _); destruct (Qltb _ _)|];
      repeat split.
  - intros c r s _ _. left. unfold destroyBlock, random. cbn.
    destruct (Qltb _ _); repeat split.
  - intros a b s _ _. left. repeat split.
  - intros p s. left. unfold applyPowerUp. destruct (pu_type p); repeat split.
  - apply hurt_killPlayer.
  - intros s. left. repeat split. rewrite defeatCalls_emit. cbn.
    unfold defeatCalls. cbn. lia.
  - intros s. left. repeat split.
  - intros x s. left. repeat split. rewrite defeatCalls_emit. cbn. lia.
Qed.

(** X9. One tick costs at most one life. Either the lives, the player's
    dead flag, [isGameOver], the number of [onGameOver(false)] calls and the
    pending respawns are all as before; or the player was alive, is dead
    afterwards and has lost exactly one life -- and then, if no life is left,
    [isGameOver] is set and [onGameOver(false)] has been called once, else
    exactly one respawn has been scheduled. In particular a player who is
    already dead loses nothing. *)
Theorem tick_costs_at_most_one_life (dt : Q) (st : GameEngine) :
  hurt st (update rand clock dt st) /\
  (pl_isDead (player st) = true ->
   lives (update rand clock dt st) = lives st) /\
  lives st - 1 <= lives (update rand clock dt st) <= lives st.
Proof.
  pose proof (hurt_update dt st) as H. split; [exact H|].
  destruct H as [(L & _)|(A & _ & L & _)]; split; try lia; congruence.
Qed.

(** What the tick does to the defeat callback, from a state that is not
    yet [isGameOver]. *)
Lemma update_defeat dt st :
  isGameOver st = false ->
  defeatCalls (update rand clock dt st) =
    (defeatCalls st + (if isGameOver (update rand clock dt st) then 1 else 0))%nat.
Proof.
  intros Hg. destruct (hurt_update dt st)
    as [(_ & _ & G & C & _)|(_ & _ & _ & H)].
  - rewrite G, Hg, C. lia.
  - destruct (_ <=? _).
    + destruct H as (-> & -> & _). lia.
    + destruct H as (-> & -> & _). rewrite Hg. lia.
Qed.

Lemma loop_defeat timestamp st :
  (isGameOver st = true ->
   isGameOver (loop rand clock timestamp st) = true /\
   defeatCalls (loop rand clock timestamp st) = defeatCalls st) /\
  (isGameOver st = false ->
   defeatCalls (loop rand clock timestamp st) =
     (defeatCalls st +
      (if isGameOver (loop rand clock timestamp st) then 1 else 0))%nat).
Proof.
  unfold loop.
  destruct (negb (animationId st) && isPaused st).
  { split; [auto|]. intros ->. lia. }
  cbv zeta.
  change (isPaused (set_lastTime timestamp st)) with (isPaused st).
  change (isGameOver (set_lastTime timestamp st)) with (isGameOver st).
  change (isVictory (set_lastTime timestamp st)) with (isVictory st).
  change (isLevelComplete (set_lastTime timestamp st)) with (isLevelComplete st).
  split.
  - intros Hg. rewrite Hg, andb_false_r. cbn [andb]. split; [exact Hg|reflexivity].
  - intros Hg.
    destruct (_ && _).
    + change (defeatCalls (set_animationId true ?s)) with (defeatCalls s).
      change (isGameOver (set_animationId true ?s)) with (isGameOver s).
      rewrite (update_defeat _ (set_lastTime timestamp st) Hg). reflexivity.
    + change (isGameOver (set_animationId true (set_lastTime timestamp st)))
        with (isGameOver st).
      rewrite Hg. unfold defeatCalls. cbn. lia.
Qed.

Lemma act_defeat a st :
  (isGameOver st = true ->
   isGameOver (act rand clock a st) = true /\
   defeatCalls (act rand clock a st) = defeatCalls st) /\
  (isGameOver st = false ->
   defeatCalls (act rand clock a st) =
     (defeatCalls st +
      (if isGameOver (act rand clock a st) then 1 else 0))%nat).
Proof.
  assert (Hsame : forall st',
            isGameOver st' = isGameOver st ->
            defeatCalls st' = defeatCalls st ->
            (isGameOver st = true ->
             isGameOver st' = true /\ defeatCalls st' = defeatCalls st) /\
            (isGameOver st = false ->
             defeatCalls st' =
             (defeatCalls st + (if isGameOver st' then 1 else 0))%nat)).
  { intros st' G C. rewrite G, C. split; [auto|]. intros ->. lia. }
  destruct a; cbn [act].
  - apply loop_defeat.
  - unfold startGame, performanceNow. cbv zeta beta iota.
    match goal with
    | |- context [loop rand clock ?t ?s] =>
        destruct (loop_defeat t s) as [H1 H2]
    end.
    split; intros Hg; [apply H1|apply H2]; exact Hg.
  - apply Hsame; reflexivity.
  - apply Hsame; reflexivity.
  - apply Hsame; reflexivity.
  - apply Hsame; reflexivity.
  - destruct (pendingRespawns st); [apply Hsame; reflexivity|].
    apply Hsame; [reflexivity|].
    unfold respawn, performanceNow. cbv zeta beta iota.
    rewrite defeatCalls_emit. cbn. unfold defeatCalls. cbn. lia.
Qed.

(** X10. The defeat callback is made exactly once per run. From a state that
    is not [isGameOver], any sequence of frames, [startGame] calls, key
    events, pauses and respawn timeouts calls [onGameOver(false)] at most
    once, and exactly once if the run is over at the end; once
    [isGameOver] is set it stays set and the callback is not made again. *)
Theorem defeat_is_reported_once :
  (forall actions st,
     isGameOver st = false ->
     defeatCalls (run rand clock actions st) =
     (defeatCalls st +
      (if isGameOver (run rand clock actions st) then 1 else 0))%nat) /\
  (forall actions st,
     isGameOver st = true ->
     isGameOver (run rand clock actions st) = true /\
     defeatCalls (run rand clock actions st) = defeatCalls st).
Proof.
  assert (Hover : forall actions st,
            isGameOver st = true ->
            isGameOver (run rand clock actions st) = true /\
            defeatCalls (run rand clock actions st) = defeatCalls st).
  { induction actions as [|a actions IH]; intros st Hg; [auto|].
    cbn [run fold_left]. fold (run rand clock actions (act rand clock a st)).
    destruct (proj1 (act_defeat a st) Hg) as [G C].
    destruct (IH _ G) as [G' C']. split; congruence. }
  split; [|exact Hover].
  induction actions as [|a actions IH]; intros st Hg.
  - cbn. rewrite Hg. lia.
  - cbn [run fold_left]. fold (run rand clock actions (act rand clock a st)).
    pose proof (proj2 (act_defeat a st) Hg) as Ha.
    destruct (isGameOver (act rand clock a st)) eqn:G1.
    + destruct (Hover actions _ G1) as [G C]. rewrite C, G, Ha. reflexivity.
    + rewrite (IH _ G1), Ha. lia.
Qed.

End Lives.

Lemma tick_costs_at_most_one_life_witness :
  lives (underFire 0) - 1 <=
    lives (update randHalf (clockAt 5000) 16 (underFire 0)) <=
    lives (underFire 0) /\
  lives (update randHalf (clockAt 5000) 16
           (set_player (set_pl_isDead true createPlayer) (underFire 0))) = 5.
Proof.
  split.
  - apply (tick_costs_at_most_one_life randHalf (clockAt 5000) 16 (underFire 0)).
  - apply (proj1 (proj2 (tick_costs_at_most_one_life randHalf (clockAt 5000) 16
             (set_player (set_pl_isDead true createPlayer) (underFire 0))))).
    reflexivity.
Defined.

Lemma defeat_is_reported_once_witness :
  let actions := [Frame 16; Frame 32; RespawnTimeout; Frame 48] in
  let st := set_lives 1 (underFire 0) in
  defeatCalls (run randHalf (clockAt 5000) actions st) =
  (defeatCalls st +
   (if isGameOver (run randHalf (clockAt 5000) actions st) then 1 else 0))%nat.
Proof.
  intros actions st.
  apply (proj1 (defeat_is_reported_once randHalf (clockAt 5000))).
  reflexivity.
Defined.

Example last_life_ends_the_run :
  let st' := run randHalf (clockAt 5000) [Frame 16; Frame 32]
                 (set_lives 1 (underFire 0)) in
  isGameOver st' = true /\ defeatCalls st' = 1%nat /\ lives st' = 0.
Proof. vm_compute. repeat split; reflexivity. Qed.

(* ===================================================================== *)
(** ** Score and walls *)

Lemma tileAt_setTile_other g r c t r' c' :
  0 <= r -> 0 <= c -> (r', c') <> (r, c) ->
  tileAt (setTile g r c t) r' c' = tileAt g r' c'.
Proof.
  intros Hr Hc Hne. unfold tileAt, setTile.
  destruct (r' <? 0) eqn:Hr'; [reflexivity|].
  destruct (c' <? 0) eqn:Hc'; [reflexivity|]. cbn [orb].
  apply Z.ltb_ge in Hr', Hc'.
  destruct (decide (Z.to_nat r = Z.to_nat r')) as [Heq|Hneq].
  - rewrite <- Heq, list_lookup_alter_eq.
    destruct (g !! Z.to_nat r) as [line|]; [|reflexivity]. cbn.
    apply list_lookup_insert_ne. intros Hcc.
    apply Hne. f_equal; lia.
  - rewrite list_lookup_alter_ne by exact Hneq. reflexivity.
Qed.

Lemma erodes_refl g : erodes g g.
Proof. intros r c. now left. Qed.

Lemma erodes_trans g1 g2 g3 : erodes g1 g2 -> erodes g2 g3 -> erodes g1 g3.
Proof.
  intros H1 H2 r c.
  destruct (H1 r c) as [E1|[S1 E1]], (H2 r c) as [E2|[S2 E2]].
  - left. congruence.
  - right. split; congruence.
  - right. split; congruence.
  - congruence.
Qed.

Lemma erodes_setTile g r c :
  inGrid c r = true -> tileAt g r c = Some WALL_SOFT ->
  erodes g (setTile g r c EMPTY).
Proof.
  intros Hin Hsoft r' c'.
  unfold inGrid in Hin. apply negb_true_iff in Hin.
  repeat (apply orb_false_elim in Hin; destruct Hin as [Hin ?]).
  apply Z.ltb_ge in Hin, H0.
  destruct (decide ((r', c') = (r, c))) as [Heq|Hne].
  - injection Heq as -> ->. right. split; [exact Hsoft|].
    eapply tileAt_setTile. exact Hsoft.
  - left. apply tileAt_setTile_other; auto.
Qed.

Lemma progress_refl st : progress st st.
Proof. repeat split; [lia|apply erodes_refl]. Qed.

Lemma progress_trans st1 st2 st3 :
  progress st1 st2 -> progress st2 st3 -> progress st1 st3.
Proof.
  intros (S1 & L1 & E1) (S2 & L2 & E2). repeat split.
  - lia.
  - congruence.
  - eapply erodes_trans; eauto.
Qed.

Section Progress.

Variable rand : nat -> Q.
Variable clock : nat -> Q.

Lemma progress_update dt st : progress st (update rand clock dt st).
Proof.
  assert (Hkeep : forall s s', score s' = score s -> level s' = level s ->
                    grid s' = grid s -> progress s s').
  { intros s s' Hs Hl Hg. repeat split; [lia|exact Hl|].
    rewrite Hg. apply erodes_refl. }
  apply frame_update.
  - apply progress_refl.
  - apply progress_trans.
  - intros s. apply Hkeep; reflexivity.
  - intros s. apply Hkeep; reflexivity.
  - intros v s. apply Hkeep; reflexivity.
  - intros v s. apply Hkeep; reflexivity.
  - intros v s. apply Hkeep; reflexivity.
  - intros v s. apply Hkeep; reflexivity.
  - intros v s. apply Hkeep; reflexivity.
  - intros k s. apply Hkeep; reflexivity.
  - intros d s. unfold updatePlayer.
    destruct (inputVector _) as [dx dy].
    destruct (_ || _); [destruct (moveEntity _ _ _ _ _ _ _); destruct (Qltb _ _)|];
      apply Hkeep; reflexivity.
  - intros c r s Hin Hsoft. unfold destroyBlock, random. cbn.
    destruct (Qltb _ _); (repeat split; cbn; [lia|]);
      apply erodes_setTile; assumption.
  - intros a b s Ha Hb. repeat split; cbn; [lia|apply erodes_refl].
  - intros p s. unfold applyPowerUp.
    destruct (pu_type p); (repeat split; cbn; [lia|apply erodes_refl]).
  - intros s. unfold killPlayer, performanceNow. cbv zeta beta iota.
    destruct (_ || _); [apply Hkeep; reflexivity|].
    destruct (_ <=? _); apply Hkeep; reflexivity.
  - intros s. apply Hkeep; reflexivity.
  - intros s. apply Hkeep; reflexivity.
  - intros x s. apply Hkeep; reflexivity.
Qed.

(** X11. A tick never lowers the score and never changes the level. *)
Theorem tick_never_lowers_score (dt : Q) (st : GameEngine) :
  score st <= score (update rand clock dt st) /\
  level (update rand clock dt st) = level st.
Proof.
  destruct (progress_update dt st) as (S & L & _). auto.
Qed.

(** X12. A tick changes the board only by turning [WALL_SOFT] tiles into
    [EMPTY]: every cell keeps its tile or goes from soft wall to empty. Hard
    walls are never removed, no wall is ever built, and the board keeps its
    size. *)
Theorem tick_only_erodes_soft_walls (dt : Q) (st : GameEngine) (r c : Z) :
  let g := grid st in
  let g' := grid (update rand clock dt st) in
  (tileAt g' r c = tileAt g r c \/
   (tileAt g r c = Some WALL_SOFT /\ tileAt g' r c = Some EMPTY)) /\
  (tileAt g' r c = Some WALL_HARD <-> tileAt g r c = Some WALL_HARD) /\
  (tileAt g' r c = None <-> tileAt g r c = None).
Proof.
  destruct (progress_update dt st) as (_ & _ & E). cbv zeta.
  destruct (E r c) as [Heq|[Hs He]].
  - rewrite Heq. split; [now left|]. split; reflexivity.
  - rewrite Hs, He. split; [now right|]. split; split; discriminate.
Qed.

End Progress.

(* ===================================================================== *)
(** ** The bomb list *)

Lemma map_delete {A B} (f : A -> B) (l : list A) : forall i,
  map f (delete i l) = delete i (map f l).
Proof.
  induction l as [|a l IH]; intros [|i]; cbn; auto. f_equal. apply IH.
Qed.

Lemma NoDup_delete {A} (l : list A) i : NoDup l -> NoDup (delete i l).
Proof. intros H. eapply sublist_NoDup; [exact H|apply sublist_delete]. Qed.

Lemma Forall2_zeroed_cells bs bs' :
  Forall2 zeroed bs bs' -> map cellOf bs' = map cellOf bs.
Proof.
  induction 1 as [|b b' l l' Hz _ IH]; cbn; [reflexivity|].
  rewrite IH, (zeroed_cell _ _ Hz). reflexivity.
Qed.

Lemma Forall2_zeroed_owner bs bs' :
  Forall2 zeroed bs bs' ->
  Forall (fun b => b_ownerId b = "player"%string) bs ->
  Forall (fun b => b_ownerId b = "player"%string) bs'.
Proof.
  induction 1 as [|b b' l l' Hz _ IH]; intros Hall; [constructor|].
  inversion Hall as [|? ? Hb Hl]; subst. constructor; [|auto].
  destruct Hz as [->| ->]; exact Hb.
Qed.

Section Arsenal.

Variable rand : nat -> Q.
Variable clock : nat -> Q.

(** What the phases before the bomb loop do to the bomb list and to the
    player's counters: nothing, or one bomb of the player's is appended on a
    cell that held none, and the counter, which was below [maxBombs], rises
    by one. *)
Lemma beforeBombs_cases dt st :
  let st1 := beforeBombs rand clock dt st in
  pl_maxBombs (player st1) = pl_maxBombs (player st) /\
  ((bombs st1 = bombs st /\
    pl_bombsCount (player st1) = pl_bombsCount (player st)) \/
   (exists b,
      bombs st1 = bombs st ++ [b] /\
      some (bombAt (b_col b) (b_row b)) (bombs st) = false /\
      b_ownerId b = "player"%string /\
      pl_bombsCount (player st) < pl_maxBombs (player st) /\
      pl_bombsCount (player st1) = pl_bombsCount (player st) + 1)).
Proof.
  cbv zeta. unfold beforeBombs, performanceNow. cbn [snd].
  set (st0 := set_clockCalls _ st).
  assert (H1 : bombs (updatePlayer dt st0) = bombs st /\
               pl_bombsCount (player (updatePlayer dt st0)) =
                 pl_bombsCount (player st) /\
               pl_maxBombs (player (updatePlayer dt st0)) =
                 pl_maxBombs (player st)).
  { unfold updatePlayer. destruct (inputVector _) as [dx dy].
    destruct (_ || _);
      [destruct (moveEntity _ _ _ _ _ _ _); destruct (Qltb _ _)|];
      repeat split. }
  destruct H1 as (Hb & Hc & Hm).
  generalize dependent (updatePlayer dt st0). intros s Hb Hc Hm.
  unfold updatePlacement. destruct (_ && _); [|split; [exact Hm|left; auto]].
  unfold placeBomb. cbn [player set_input bombs].
  destruct (_ <=? _) eqn:Hfull; [cbn; split; [exact Hm|left; auto]|].
  destruct (some _ _) eqn:Hocc; [cbn; split; [exact Hm|left; auto]|].
  cbn. split; [exact Hm|right].
  eexists. rewrite Hb. split; [reflexivity|]. cbn.
  rewrite <- Hb. split; [exact Hocc|]. split; [reflexivity|].
  apply Z.leb_gt in Hfull. lia.
Qed.

Lemma bombsApart_beforeBombs dt st :
  bombsApart st -> bombsApart (beforeBombs rand clock dt st).
Proof.
  unfold bombsApart. intros Hnd.
  destruct (beforeBombs_cases dt st) as (_ & [[Hb _]|(b & Hb & Hocc & _)]);
    rewrite Hb; [exact Hnd|].
  rewrite map_app. apply NoDup_app. split; [exact Hnd|]. split.
  - intros x Hx Hx'. apply list_elem_of_In in Hx, Hx'.
    cbn in Hx'. destruct Hx' as [<-|[]].
    apply in_map_iff in Hx. destruct Hx as (a & Ha & Hin).
    assert (Hsome : some (bombAt (b_col b) (b_row b)) (bombs st) = true).
    { apply some_bombAt. exists a. split; [exact Hin|].
      unfold cellOf in Ha. injection Ha as -> ->. auto. }
    congruence.
  - cbn. apply NoDup_singleton.
Qed.

(** One step of the bomb loop keeps the cells of the bombs, or removes the
    cell at its index. *)
Lemma bombStep_cells dt i st :
  map cellOf (bombs (bombStep rand dt i st)) = map cellOf (bombs st) \/
  map cellOf (bombs (bombStep rand dt i st)) = delete i (map cellOf (bombs st)).
Proof.
  unfold bombStep. destruct (bombs st !! i) as [b|] eqn:Hb; [|now left].
  cbv zeta.
  set (bomb := set_b_timer (b_timer b - dt)%Q b).
  set (st1 := set_bombs (<[i := bomb]> (bombs st)) st).
  assert (Hc : map cellOf (bombs st1) = map cellOf (bombs st)).
  { subst st1. cbn. now apply map_cellOf_insert with (b := b). }
  destruct (Qleb _ _); [|left; exact Hc].
  destruct (explodeBomb_blasted rand bomb st1) as (Hz & _ & _).
  apply Forall2_zeroed_cells in Hz. right.
  destruct (String.eqb _ _); cbn; rewrite map_delete, Hz, Hc; reflexivity.
Qed.

Lemma bombsApart_updateBombs dt st :
  bombsApart st -> bombsApart (updateBombs rand dt st).
Proof.
  unfold updateBombs. generalize (length (bombs st)). intros n. revert st.
  induction n as [|n IH]; intros st Hnd; cbn [downFrom]; [exact Hnd|].
  apply IH. unfold bombsApart in *.
  destruct (bombStep_cells dt n st) as [-> | ->];
    [exact Hnd|now apply NoDup_delete].
Qed.

(** X13. No tick puts two bombs on one cell: if the bombs on the board lie
    on different cells before a tick, they do so after it. *)
Theorem tick_keeps_bombs_apart (dt : Q) (st : GameEngine) :
  bombsApart st -> bombsApart (update rand clock dt st).
Proof.
  intros Hnd. unfold bombsApart. rewrite update_bombs.
  apply bombsApart_updateBombs, bombsApart_beforeBombs, Hnd.
Qed.

(** One step of the bomb loop keeps the counter in step with the list. *)
Lemma arsenalSound_bombStep dt i st :
  arsenalSound st -> arsenalSound (bombStep rand dt i st).
Proof.
  intros (Hown & Hcount & Hmax). unfold bombStep.
  destruct (bombs st !! i) as [b|] eqn:Hb; [|repeat split; assumption].
  cbv zeta.
  set (bomb := set_b_timer (b_timer b - dt)%Q b).
  set (st1 := set_bombs (<[i := bomb]> (bombs st)) st).
  assert (Hb_own : b_ownerId bomb = "player"%string).
  { subst bomb. cbn. rewrite Forall_lookup in Hown. now apply (Hown i). }
  assert (Hown1 : Forall (fun b => b_ownerId b = "player"%string) (bombs st1)).
  { subst st1. cbn. apply Forall_insert; assumption. }
  assert (Hlen1 : length (bombs st1) = length (bombs st)).
  { subst st1. cbn. apply length_insert. }
  destruct (Qleb _ _).
  2:{ split; [exact Hown1|]. rewrite Hlen1. split; assumption. }
  destruct (explodeBomb_blasted rand bomb st1) as (Hz & _ & _).
  assert (Hpl : player (explodeBomb rand bomb st1) = player st).
  { refine (frame_explodeBomb rand (fun s s' => player s' = player s)
              _ _ _ _ _ _ bomb st1).
    - reflexivity.
    - intros s1 s2 s3 H12 H23. congruence.
    - reflexivity.
    - reflexivity.
    - reflexivity.
    - intros c r s _ _. unfold destroyBlock, random. cbn.
      destruct (Qltb _ _); reflexivity. }
  rewrite Hb_own. cbn [String.eqb Ascii.eqb Bool.eqb].
  pose proof (Forall2_length _ _ _ Hz) as Hlen.
  pose proof (lookup_lt_Some _ _ _ Hb) as Hi.
  cbn. rewrite Hpl. split; [|split].
  - apply Forall_delete. eapply Forall2_zeroed_owner; eassumption.
  - cbn. rewrite length_delete
      by (apply lookup_lt_is_Some; rewrite <- Hlen, Hlen1; exact Hi).
    rewrite <- Hlen, Hlen1. lia.
  - cbn. lia.
Qed.

Lemma arsenalSound_updateBombs dt st :
  arsenalSound st -> arsenalSound (updateBombs rand dt st).
Proof.
  unfold updateBombs. generalize (length (bombs st)). intros n. revert st.
  induction n as [|n IH]; intros st H; cbn [downFrom]; [exact H|].
  apply IH, arsenalSound_bombStep, H.
Qed.

Lemma arsenalSound_beforeBombs dt st :
  arsenalSound st -> arsenalSound (beforeBombs rand clock dt st).
Proof.
  intros (Hown & Hcount & Hmax).
  destruct (beforeBombs_cases dt st)
    as (Hm & [[Hb Hc]|(b & Hb & _ & Ho & Hlt & Hc)]);
    unfold arsenalSound; rewrite Hb, Hc, Hm.
  - repeat split; assumption.
  - split; [|split].
    + apply Forall_app. split; [exact Hown|]. constructor; [exact Ho|constructor].
    + rewrite length_app. cbn. lia.
    + lia.
Qed.

(** The phases after the bomb loop keep the bomb list and the counter, and
    can only raise [maxBombs]. *)
Lemma arsenal_afterBombs t dt st :
  let st' :=
    pushStats (updateCountdown clock t dt (updateContact clock t
      (updatePowerUps (updateAI rand dt (checkLevelComplete
         (updateExplosions clock t dt st)))))) in
  bombs st' = bombs st /\
  pl_bombsCount (player st') = pl_bombsCount (player st) /\
  pl_maxBombs (player st) <= pl_maxBombs (player st').
Proof.
  cbv zeta.
  assert (Hkeep : forall s s' : GameEngine,
            bombs s' = bombs s -> player s' = player s ->
            bombs s' = bombs s /\
            pl_bombsCount (player s') = pl_bombsCount (player s) /\
            pl_maxBombs (player s) <= pl_maxBombs (player s')).
  { intros s s' Hb Hp. rewrite Hb, Hp. repeat split; lia. }
  refine (frame_afterBombs rand clock
            (fun s s' => bombs s' = bombs s /\
               pl_bombsCount (player s') = pl_bombsCount (player s) /\
               pl_maxBombs (player s) <= pl_maxBombs (player s'))
            _ _ _ _ _ _ _ _ _ _ _ _ t dt st).
  all: try (intros; apply Hkeep; reflexivity).
  - intros s1 s2 s3 (B1 & C1 & M1) (B2 & C2 & M2).
    rewrite B2, C2, B1, C1. repeat split; lia.
  - intros p s. unfold applyPowerUp.
    destruct (pu_type p); cbn; repeat split; lia.
  - intros s. unfold killPlayer, performanceNow. cbv zeta beta iota.
    destruct (_ || _); [apply Hkeep; reflexivity|].
    destruct (_ <=? _); cbn; repeat split; lia.
Qed.

(** X14. A tick keeps the player's bomb counter in step with the board: if
    every bomb is the player's, [bombsCount] is the number of bombs on the
    board and it is at most [maxBombs], the same holds after the tick. *)
Theorem tick_keeps_bomb_counter (dt : Q) (st : GameEngine) :
  arsenalSound st -> arsenalSound (update rand clock dt st).
Proof.
  intros H.
  apply arsenalSound_beforeBombs with (dt := dt) in H.
  apply arsenalSound_updateBombs with (dt := dt) in H.
  destruct H as (Hown & Hcount & Hmax).
  change (update rand clock dt st) with
    (let t := clock (clockCalls st) in
     pushStats (updateCountdown clock t dt (updateContact clock t
       (updatePowerUps (updateAI rand dt (checkLevelComplete
          (updateExplosions clock t dt
             (updateBombs rand dt (beforeBombs rand clock dt st))))))))).
  cbv zeta.
  destruct (arsenal_afterBombs (clock (clockCalls st)) dt
              (updateBombs rand dt (beforeBombs rand clock dt st)))
    as (Hb & Hc & Hm).
  unfold arsenalSound. rewrite Hb, Hc. repeat split; [exact Hown|exact Hcount|lia].
Qed.

End Arsenal.

Lemma tick_keeps_bombs_apart_witness :
  bombsApart (update randHalf (clockAt 0) 16 twoBombs).
Proof.
  apply (tick_keeps_bombs_apart randHalf (clockAt 0) 16 twoBombs).
  unfold bombsApart. cbn. apply NoDup_cons. split; [|apply NoDup_singleton].
  intros H. apply list_elem_of_In in H. cbn in H. destruct H as [H|[]].
  discriminate H.
Defined.

Lemma tick_keeps_bomb_counter_witness :
  arsenalSound (update randHalf (clockAt 0) 16 twoBombs).
Proof.
  apply (tick_keeps_bomb_counter randHalf (clockAt 0) 16 twoBombs).
  unfold arsenalSound. cbn. split; [repeat constructor|split; lia].
Defined.

(* ===================================================================== *)
(** ** Explosions *)

Section Explosions.

Variable rand : nat -> Q.
Variable clock : nat -> Q.

Lemma explosions_killPlayer st :
  explosions (killPlayer clock st) = explosions st.
Proof.
  unfold killPlayer, performanceNow. cbv zeta beta iota.
  destruct (_ || _); [reflexivity|]. destruct (_ <=? _); reflexivity.
Qed.

Lemma explosions_cellDamage t st cell :
  explosions (cellDamage clock t st cell) = explosions st.
Proof.
  refine (frame_cellDamage clock (fun s s' => explosions s' = explosions s)
            _ _ _ _ _ t st cell).
  - reflexivity.
  - intros s1 s2 s3 H12 H23. congruence.
  - reflexivity.
  - reflexivity.
  - apply explosions_killPlayer.
Qed.

(** One step of the explosion loop: the explosions at and above the index
    it leaves have time left, provided those above the index had. *)
Lemma explosionStep_timers t dt n st :
  (forall j e, (S n <= j)%nat -> explosions st !! j = Some e ->
               (0 < ex_timer e)%Q) ->
  forall j e, (n <= j)%nat ->
    explosions (explosionStep clock t dt n st) !! j = Some e ->
    (0 < ex_timer e)%Q.
Proof.
  intros Habove j e Hj. unfold explosionStep.
  destruct (explosions st !! n) as [e0|] eqn:Hn.
  2:{ intros He. apply lookup_ge_None in Hn.
      apply lookup_lt_Some in He. lia. }
  cbv zeta.
  set (exp := set_ex_timer (ex_timer e0 - dt)%Q e0).
  set (st1 := set_explosions (<[n := exp]> (explosions st)) st).
  assert (H2 : explosions (fold_left (cellDamage clock t) (ex_cells exp) st1)
               = <[n := exp]> (explosions st)).
  { refine (frame_fold (fun s s' => explosions s' = explosions s) _ _
              (cellDamage clock t) (ex_cells exp) _ st1).
    - reflexivity.
    - intros s1 s2 s3 H12 H23. congruence.
    - intros s a. apply explosions_cellDamage. }
  destruct (Qleb _ _) eqn:Hq.
  - cbn [explosions set_explosions]. rewrite H2.
    rewrite list_lookup_delete_ge by exact Hj.
    rewrite list_lookup_insert_ne by lia.
    apply Habove. lia.
  - rewrite H2. destruct (Nat.eq_dec j n) as [->|Hne].
    + rewrite list_lookup_insert_eq by (eapply lookup_lt_Some; exact Hn).
      intros [= <-]. apply Qnot_le_lt. intros Hle.
      apply Qleb_le in Hle. congruence.
    + rewrite list_lookup_insert_ne by auto. apply Habove. lia.
Qed.

Lemma updateExplosions_timers t dt st :
  Forall (fun e => (0 < ex_timer e)%Q)
         (explosions (updateExplosions clock t dt st)).
Proof.
  unfold updateExplosions.
  assert (H : forall j e, (length (explosions st) <= j)%nat ->
                explosions st !! j = Some e -> (0 < ex_timer e)%Q).
  { intros j e Hj He. apply lookup_lt_Some in He. lia. }
  revert H. generalize (length (explosions st)). intros n. revert st.
  induction n as [|n IH]; intros st H; cbn [downFrom].
  - apply Forall_lookup. intros j e He. apply (H j e); [lia|exact He].
  - apply IH. apply explosionStep_timers, H.
Qed.

(** X15. Spent explosions do not outlive the tick: every explosion on the
    board after a tick has time left on its timer. *)
Theorem tick_clears_spent_explosions (dt : Q) (st : GameEngine) :
  Forall (fun e => (0 < ex_timer e)%Q)
         (explosions (update rand clock dt st)).
Proof.
  change (update rand clock dt st) with
    (let t := clock (clockCalls st) in
     pushStats (updateCountdown clock t dt (updateContact clock t
       (updatePowerUps (updateAI rand dt (checkLevelComplete
          (updateExplosions clock t dt
             (updateBombs rand dt (beforeBombs rand clock dt st))))))))).
  cbv zeta.
  set (st2 := updateBombs rand dt (beforeBombs rand clock dt st)).
  set (t := clock (clockCalls st)).
  pose proof (updateExplosions_timers t dt st2) as H.
  set (st3 := updateExplosions clock t dt st2) in *.
  assert (Hx : explosions
                 (pushStats (updateCountdown clock t dt (updateContact clock t
                    (updatePowerUps (updateAI rand dt
                       (checkLevelComplete st3))))))
               = explosions st3).
  { refine (frame_afterExplosions rand clock
              (fun s s' => explosions s' = explosions s)
              _ _ _ _ _ _ _ _ _ _ t dt st3).
    all: try (intros; reflexivity).
    - intros s1 s2 s3 H12 H23. congruence.
    - intros p s. unfold applyPowerUp. destruct (pu_type p); reflexivity.
    - intros s. apply explosions_killPlayer. }
  rewrite Hx. exact H.
Qed.

End Explosions.

(* ===================================================================== *)
(** ** Enemies *)

Lemma fades_refl e : fades e e.
Proof. repeat split; lia. Qed.

Lemma fades_trans e1 e2 e3 : fades e1 e2 -> fades e2 e3 -> fades e1 e3.
Proof.
  intros (A1 & A2 & A3 & A4 & A5 & A6) (B1 & B2 & B3 & B4 & B5 & B6).
  repeat split; try congruence. lia.
Qed.

Lemma Forall2_fades_refl es : Forall2 fades es es.
Proof. induction es; constructor; auto using fades_refl. Qed.

Lemma Forall2_fades_trans es1 es2 es3 :
  Forall2 fades es1 es2 -> Forall2 fades es2 es3 -> Forall2 fades es1 es3.
Proof.
  intros H. revert es3. induction H; intros es3 H3; inversion H3; subst;
    constructor; eauto using fades_trans.
Qed.

Lemma thinned_trans es1 es2 es3 :
  thinned es1 es2 -> thinned es2 es3 -> thinned es1 es3.
Proof.
  intros (L1 & F1) (L2 & F2). split; [lia|].
  rewrite Forall_forall in *. intros e3 H3.
  destruct (F2 e3 H3) as (e2 & H2 & Hf2). apply list_elem_of_In in H2.
  destruct (F1 e2 H2) as (e1 & H1 & Hf1).
  exists e1. split; [exact H1|]. eapply fades_trans; eassumption.
Qed.

Lemma Forall2_thinned es es' : Forall2 fades es es' -> thinned es es'.
Proof.
  intros H. split; [rewrite (Forall2_length _ _ _ H); lia|].
  apply Forall_lookup. intros i e' He'.
  destruct (Forall2_lookup_r _ _ _ _ _ H He') as (e & He & Hf).
  exists e. split; [|exact Hf].
  apply list_elem_of_In. eapply list_elem_of_lookup_2. exact He.
Qed.

Section Enemies.

Variable rand : nat -> Q.
Variable clock : nat -> Q.

Lemma hitEnemy_fades t cell e st : fades e (fst (hitEnemy t cell e st)).
Proof.
  unfold hitEnemy. destruct (_ && _); [|apply fades_refl].
  destruct (_ && _); [apply fades_refl|]. cbv zeta.
  destruct (_ <=? _); unfold fades; cbn; repeat split; lia.
Qed.

Lemma hitEnemies_fades t cell es : forall st,
  Forall2 fades es (fst (hitEnemies t cell es st)).
Proof.
  induction es as [|e es IH]; intros st; cbn [hitEnemies]; [constructor|].
  pose proof (hitEnemy_fades t cell e st) as H1.
  destruct (hitEnemy _ _ _ _) as [e' st1].
  specialize (IH st1). destruct (hitEnemies _ _ _ _) as [rest st2].
  constructor; assumption.
Qed.

Lemma enemies_killPlayer st : enemies (killPlayer clock st) = enemies st.
Proof.
  unfold killPlayer, performanceNow. cbv zeta beta iota.
  destruct (_ || _); [reflexivity|]. destruct (_ <=? _); reflexivity.
Qed.

Lemma cellDamage_fades t st cell :
  Forall2 fades (enemies st) (enemies (cellDamage clock t st cell)).
Proof.
  unfold cellDamage. cbv zeta.
  match goal with
  | |- context [hitEnemies t cell (enemies ?s) ?s] => set (st1 := s)
  end.
  assert (H1 : enemies st1 = enemies st).
  { subst st1. destruct (_ && _); [apply enemies_killPlayer|reflexivity]. }
  pose proof (hitEnemies_fades t cell (enemies st1) st1) as H2.
  destruct (hitEnemies _ _ _ _) as [es st2]. cbn [fst] in H2.
  cbn. rewrite <- H1. exact H2.
Qed.

Lemma updateExplosions_fades t dt st :
  Forall2 fades (enemies st) (enemies (updateExplosions clock t dt st)).
Proof.
  set (R := fun s s' : GameEngine => Forall2 fades (enemies s) (enemies s')).
  assert (Rrefl : forall s, R s s) by (intros; apply Forall2_fades_refl).
  assert (Rtrans : forall s1 s2 s3, R s1 s2 -> R s2 s3 -> R s1 s3)
    by (intros; eapply Forall2_fades_trans; eassumption).
  apply (frame_downFrom R Rrefl Rtrans). intros i s.
  unfold explosionStep. destruct (_ !! _) as [e|]; [|apply Rrefl].
  cbv zeta.
  match goal with
  | |- R ?s0 (if _ then set_explosions _ ?s' else ?s') =>
      assert (H : R s0 s')
  end.
  { eapply Rtrans; [|apply (frame_fold R Rrefl Rtrans);
                      intros; apply cellDamage_fades].
    subst R. cbn. apply Forall2_fades_refl. }
  destruct (Qleb _ _); exact H.
Qed.

(** [updateEnemyAI] moves an enemy and plans its path, nothing else. *)
Lemma updateEnemyAI_fades dt e st :
  fades e (fst (updateEnemyAI rand dt e st)) /\
  en_isDead (fst (updateEnemyAI rand dt e st)) = en_isDead e.
Proof.
  unfold updateEnemyAI, random.
  repeat (lazy beta iota;
    first [ match goal with
            | |- context [match ?x with WALKER => _ | CHASER => _ end] =>
                destruct x eqn:?
            end
          | break_if
          | match goal with
            | |- context [let '(_, _) := ?p in _] => destruct p eqn:?
            end ]);
  unfold fades;
  cbn [fst en_id en_type en_isBoss en_maxHp en_speed en_hp en_isDead
       set_en_x set_en_y set_en_path set_en_recalcPathTimer];
  repeat split; lia.
Qed.

Lemma updateEnemies_fades dt es : forall st,
  Forall2 (fun e e' => fades e e' /\ en_isDead e' = en_isDead e)
          es (fst (updateEnemies rand dt es st)).
Proof.
  induction es as [|e es IH]; intros st; cbn [updateEnemies]; [constructor|].
  pose proof (updateEnemyAI_fades dt e st) as H1.
  destruct (updateEnemyAI _ _ _ _) as [e' st1].
  specialize (IH st1). destruct (updateEnemies _ _ _ _) as [rest st2].
  constructor; assumption.
Qed.

(** X16. A tick neither adds enemies nor heals them, and it buries the
    dead: every enemy on the list after the tick is alive and is one of the
    enemies from before the tick, with its identity, kind, boss flag,
    maximal hit points and speed unchanged and no more hit points than it
    had; the list has not grown. *)
Theorem tick_thins_enemies (dt : Q) (st : GameEngine) :
  thinned (enemies st) (enemies (update rand clock dt st)) /\
  Forall (fun e => en_isDead e = false) (enemies (update rand clock dt st)).
Proof.
  rewrite update_split. cbv zeta.
  set (t := clock (clockCalls st)).
  set (st3 := beforeLevelCheck rand clock dt st).
  (* up to the explosion loop *)
  assert (H3 : Forall2 fades (enemies st) (enemies st3)).
  { subst st3. unfold beforeLevelCheck.
    eapply Forall2_fades_trans; [|apply updateExplosions_fades].
    match goal with
    | |- Forall2 fades _ (enemies ?s) =>
        assert (He : enemies s = enemies st)
    end.
    { unfold performanceNow. cbn [fst snd].
      etransitivity.
      { refine (frame_updateBombs rand
                  (fun s s' => enemies s' = enemies s) _ _ _ _ _ _ _ dt _).
        - reflexivity.
        - intros s1 s2 s3 H12 H23. congruence.
        - reflexivity.
        - reflexivity.
        - reflexivity.
        - reflexivity.
        - intros c r s _ _. unfold destroyBlock, random. cbn.
          destruct (Qltb _ _); reflexivity. }
      etransitivity.
      { refine (frame_updatePlacement rand
                  (fun s s' => enemies s' = enemies s) _ _ _ _ _ _ _).
        - reflexivity.
        - intros s1 s2 s3 H12 H23. congruence.
        - reflexivity.
        - reflexivity.
        - reflexivity.
        - reflexivity. }
      unfold updatePlayer. destruct (inputVector _) as [dx dy].
      destruct (_ || _);
        [destruct (moveEntity _ _ _ _ _ _ _); destruct (Qltb _ _)|];
        reflexivity. }
    rewrite He. apply Forall2_fades_refl. }
  (* the sweep of the dead *)
  set (st4 := checkLevelComplete st3).
  assert (H4 : enemies st4 =
               List.filter (fun e => negb (en_isDead e)) (enemies st3)).
  { subst st4. unfold checkLevelComplete. cbv zeta.
    destruct (_ && _); reflexivity. }
  (* the enemy AI *)
  set (st5 := updateAI rand dt st4).
  assert (H5 : Forall2 (fun e e' => fades e e' /\ en_isDead e' = en_isDead e)
                 (enemies st4) (enemies st5)).
  { subst st5. unfold updateAI. destruct (negb _).
    - pose proof (updateEnemies_fades dt (enemies st4) st4) as H.
      destruct (updateEnemies _ _ _ _) as [es s1]. exact H.
    - clear. induction (enemies st4); constructor; auto using fades_refl. }
  (* the rest of the tick *)
  assert (H6 : enemies
                 (pushStats (updateCountdown clock t dt (updateContact clock t
                    (updatePowerUps st5)))) = enemies st5).
  { refine (frame_afterAI clock (fun s s' => enemies s' = enemies s)
              _ _ _ _ _ _ _ t dt st5).
    all: try (intros; reflexivity).
    - intros s1 s2 s3 H12 H23. congruence.
    - intros p s. unfold applyPowerUp. destruct (pu_type p); reflexivity.
    - intros s. apply enemies_killPlayer. }
  rewrite H6. split.
  - apply thinned_trans with (enemies st3); [apply Forall2_thinned, H3|].
    apply thinned_trans with (enemies st4).
    + rewrite H4. split; [apply filter_length_le|].
      apply Forall_forall. intros e He. apply list_elem_of_In in He.
      apply filter_In in He. exists e. split; [tauto|apply fades_refl].
    + apply Forall2_thinned.
      eapply Forall2_impl; [exact H5|]. cbn. tauto.
  - apply Forall_lookup. intros i e' He'.
    destruct (Forall2_lookup_r _ _ _ _ _ H5 He') as (e & He & _ & Hd).
    rewrite Hd. apply list_elem_of_lookup_2 in He. rewrite H4 in He.
    apply list_elem_of_In, filter_In in He.
    destruct He as [_ He]. now apply negb_true_iff in He.
Qed.

End Enemies.

(* ===================================================================== *)
(** ** Level generation *)

Lemma indices_lookup n i :
  0 <= i < n -> indices n !! Z.to_nat i = Some i.
Proof.
  intros Hi. unfold indices.
  change (map Z.of_nat (seq 0 (Z.to_nat n)))
    with (Z.of_nat <$> seq 0 (Z.to_nat n)).
  rewrite list_lookup_fmap, lookup_seq_lt by lia. cbn. f_equal. lia.
Qed.

Lemma length_indices n : length (indices n) = Z.to_nat n.
Proof. unfold indices. now rewrite length_map, length_seq. Qed.

Lemma Qfloor_scaled a n :
  (0 <= a)%Q -> (a < 1)%Q -> 0 < n -> 0 <= Qfloor (a * inject_Z n) < n.
Proof.
  intros H0 H1 Hn. split.
  - change 0 with (Qfloor 0). apply Qfloor_resp_le.
    apply Qmult_le_0_compat; [exact H0|].
    change 0%Q with (inject_Z 0). rewrite <- Zle_Qle. lia.
  - rewrite Zlt_Qlt. eapply Qle_lt_trans; [apply Qfloor_le|].
    rewrite <- (Qmult_1_l (inject_Z n)) at 2.
    apply Qmult_lt_compat_r; [|exact H1].
    change 0%Q with (inject_Z 0). rewrite <- Zlt_Qlt. lia.
Qed.

Lemma set_randCalls_same st : set_randCalls (randCalls st) st = st.
Proof. destruct st; reflexivity. Qed.

(** A board laid out cell by cell, read with [tileAt]. *)
Lemma boardOf_tileAt P g r c :
  boardOf P g ->
  (inGrid c r = true -> exists t, tileAt g r c = Some t /\ P r c t) /\
  (inGrid c r = false -> tileAt g r c = None).
Proof.
  intros Hg. unfold inGrid, tileAt.
  pose proof (Forall2_length _ _ _ Hg) as Hrows.
  rewrite length_indices in Hrows.
  destruct (r <? 0) eqn:Hr0; [rewrite orb_true_r; cbn; split; [discriminate|auto]|].
  destruct (c <? 0) eqn:Hc0; [cbn; split; [discriminate|auto]|].
  apply Z.ltb_ge in Hr0, Hc0. cbn [orb negb].
  destruct (GRID_ROWS <=? r) eqn:Hr1.
  { rewrite orb_true_r. cbn. split; [discriminate|intros _].
    apply Z.leb_le in Hr1.
    rewrite (proj2 (lookup_ge_None g (Z.to_nat r))) by lia. reflexivity. }
  apply Z.leb_gt in Hr1.
  destruct (Forall2_lookup_l _ _ _ _ _ Hg (indices_lookup GRID_ROWS r ltac:(lia)))
    as (line & Hline & Hcells).
  rewrite Hline.
  pose proof (Forall2_length _ _ _ Hcells) as Hcols.
  rewrite length_indices in Hcols.
  destruct (GRID_COLS <=? c) eqn:Hc1; cbn.
  { split; [discriminate|intros _]. apply Z.leb_le in Hc1.
    apply lookup_ge_None. lia. }
  apply Z.leb_gt in Hc1. split; [intros _|discriminate].
  destruct (Forall2_lookup_l _ _ _ _ _ Hcells
              (indices_lookup GRID_COLS c ltac:(lia))) as (t & Ht & HP).
  exists t. split; assumption.
Qed.

Section Levels.

Variable rand : nat -> Q.
Variable clock : nat -> Q.

(** *** The board *)

Lemma generateTile_eq lvl r c st :
  generateTile rand lvl r c st =
  if isBorder r c then (WALL_HARD, st)
  else if isPillar r c then (WALL_HARD, st)
  else if isSpawnCell r c then (EMPTY, st)
  else
    if Qltb (rand (randCalls st))
            (Qminb (0.25 + inject_Z (lvl - 1) * 0.04) 0.6)
    then (WALL_SOFT, set_randCalls (S (randCalls st)) st)
    else (EMPTY, set_randCalls (S (randCalls st)) st).
Proof. reflexivity. Qed.

Lemma generateTile_fits lvl r c st :
  tileFits r c (fst (generateTile rand lvl r c st)).
Proof.
  rewrite generateTile_eq. unfold tileFits.
  destruct (isBorder r c); [reflexivity|]. cbn [orb].
  destruct (isPillar r c); [reflexivity|].
  destruct (isSpawnCell r c); [reflexivity|].
  destruct (Qltb _ _); cbn; auto.
Qed.

Lemma generateTile_state lvl r c st :
  snd (generateTile rand lvl r c st) =
  if isFreeCell r c then set_randCalls (S (randCalls st)) st else st.
Proof.
  rewrite generateTile_eq. unfold isFreeCell.
  destruct (isBorder r c); [reflexivity|].
  destruct (isPillar r c); [reflexivity|].
  destruct (isSpawnCell r c); [reflexivity|].
  destruct (Qltb _ _); reflexivity.
Qed.

Section Layout.

Variable P : Z -> Z -> TileType -> Prop.
Variable lvl : Z.
Hypothesis tile_ok : forall r c st, P r c (fst (generateTile rand lvl r c st)).

Lemma generateRow_layout r cs : forall st,
  Forall2 (P r) cs (fst (generateRow rand lvl r cs st)).
Proof.
  induction cs as [|c cs IH]; intros st; cbn [generateRow]; [constructor|].
  pose proof (tile_ok r c st) as H1.
  destruct (generateTile _ _ _ _ _) as [t st1].
  specialize (IH st1). destruct (generateRow _ _ _ _ _) as [line st2].
  constructor; assumption.
Qed.

Lemma generateRows_layout rs : forall st,
  Forall2 (fun r line => Forall2 (P r) (indices GRID_COLS) line)
          rs (fst (generateRows rand lvl rs st)).
Proof.
  induction rs as [|r rs IH]; intros st; cbn [generateRows]; [constructor|].
  pose proof (generateRow_layout r (indices GRID_COLS) st) as H1.
  destruct (generateRow _ _ _ _ _) as [line st1].
  specialize (IH st1). destruct (generateRows _ _ _ _) as [g st2].
  constructor; assumption.
Qed.

Lemma generateGrid_boardOf st : boardOf P (fst (generateGrid rand lvl st)).
Proof. apply generateRows_layout. Qed.

End Layout.

(** The draws of the board: one for every free cell. *)
Lemma generateRow_state lvl r cs : forall st,
  snd (generateRow rand lvl r cs st) =
  set_randCalls (randCalls st + length (List.filter (isFreeCell r) cs)) st.
Proof.
  induction cs as [|c cs IH]; intros st; cbn [generateRow List.filter].
  - cbn. rewrite Nat.add_0_r. symmetry. apply set_randCalls_same.
  - pose proof (generateTile_state lvl r c st) as H1.
    destruct (generateTile _ _ _ _ _) as [t st1].
    specialize (IH st1). destruct (generateRow _ _ _ _ _) as [line st2].
    cbn [snd] in *. rewrite IH, H1.
    destruct (isFreeCell r c); cbn [length]; [|reflexivity].
    destruct st; unfold set_randCalls; cbn. f_equal. lia.
Qed.

Lemma generateRows_state lvl rs : forall st,
  snd (generateRows rand lvl rs st) =
  set_randCalls
    (randCalls st +
     length (flat_map (fun r => List.filter (isFreeCell r) (indices GRID_COLS))
                      rs)) st.
Proof.
  induction rs as [|r rs IH]; intros st; cbn [generateRows flat_map].
  - cbn. rewrite Nat.add_0_r. symmetry. apply set_randCalls_same.
  - pose proof (generateRow_state lvl r (indices GRID_COLS) st) as H1.
    destruct (generateRow _ _ _ _ _) as [line st1].
    specialize (IH st1). destruct (generateRows _ _ _ _) as [g st2].
    cbn [snd] in *. rewrite IH, H1, length_app.
    destruct st; unfold set_randCalls; cbn. f_equal. lia.
Qed.

Lemma generateGrid_state lvl st :
  snd (generateGrid rand lvl st) = set_randCalls (randCalls st + 110) st.
Proof. unfold generateGrid. rewrite generateRows_state. reflexivity. Qed.

(** X17. The board [initLevel] builds, for every level and whatever the
    random draws: 13 rows of 15 tiles, hard walls on the border and on the
    cells with even row and even column, the spawn cells (1,1), (1,2) and
    (2,1) empty, every other cell empty or a soft wall. Exactly 110 random
    numbers are drawn, one for each cell outside those three groups, and
    nothing else of the state is touched. *)
Theorem generateGrid_layout (lvl : Z) (st : GameEngine) (r c : Z) :
  let g := fst (generateGrid rand lvl st) in
  (inGrid c r = true -> exists t, tileAt g r c = Some t /\ tileFits r c t) /\
  (inGrid c r = false -> tileAt g r c = None) /\
  snd (generateGrid rand lvl st) = set_randCalls (randCalls st + 110) st.
Proof.
  cbv zeta.
  pose proof (generateGrid_boardOf tileFits lvl
                (fun r c st => generateTile_fits lvl r c st) st) as Hg.
  destruct (boardOf_tileAt tileFits _ r c Hg) as [H1 H2].
  split; [exact H1|]. split; [exact H2|apply generateGrid_state].
Qed.

(** *** Enemies *)

Lemma spawn_speed (isBoss : bool) lvl :
  (ENEMY_SPEED_BASE <=
   (if isBoss then ENEMY_SPEED_BASE * 1.15 else ENEMY_SPEED_BASE) *
   (if 5 <=? lvl then 1 + inject_Z (lvl - 4) * 0.08 else 1))%Q.
Proof.
  destruct (5 <=? lvl) eqn:H5; [apply Z.leb_le in H5|];
    destruct isBoss; unfold Qle, ENEMY_SPEED_BASE; cbn; lia.
Qed.

Lemma spawned_cell st k1 k2 :
  randomInRange rand ->
  let r := Qfloor (rand k1 * inject_Z (GRID_ROWS - 2)) + 1 in
  let c := Qfloor (rand k2 * inject_Z (GRID_COLS - 2)) + 1 in
  negb (notEmpty (tileAt (grid st) r c)) &&
    (8 <? Z.abs (r - 1) + Z.abs (c - 1)) = true ->
  exists r c,
    1 <= r <= GRID_ROWS - 2 /\ 1 <= c <= GRID_COLS - 2 /\
    px (Qfloor (rand k2 * inject_Z (GRID_COLS - 2)) + 1) = px c /\
    px (Qfloor (rand k1 * inject_Z (GRID_ROWS - 2)) + 1) = px r /\
    tileAt (grid st) r c = Some EMPTY /\ farFromSpawn r c = true.
Proof.
  intros Hrand r c Hacc. apply andb_prop in Hacc. destruct Hacc as [He Hd].
  exists r, c.
  destruct (Hrand k1) as [A0 A1]. destruct (Hrand k2) as [B0 B1].
  pose proof (Qfloor_scaled (rand k1) (GRID_ROWS - 2) A0 A1 eq_refl) as Hr.
  pose proof (Qfloor_scaled (rand k2) (GRID_COLS - 2) B0 B1 eq_refl) as Hc.
  split; [subst r; lia|]. split; [subst c; lia|].
  split; [reflexivity|]. split; [reflexivity|]. split; [|exact Hd].
  destruct (tileAt (grid st) r c) as [[]|]; try discriminate. reflexivity.
Qed.

Lemma spawnAttempts_spec lvl n : forall st,
  randomInRange rand ->
  spawnResult lvl st (spawnAttempts rand n lvl st) /\
  (fst (spawnAttempts rand n lvl st) = false ->
   randCalls (snd (spawnAttempts rand n lvl st)) = (randCalls st + 2 * n)%nat).
Proof.
  intros st Hrand. revert st. induction n as [|n IH]; intros st.
  - cbn. split; [|intros _; lia].
    split; [destruct st; reflexivity|reflexivity].
  - cbn [spawnAttempts]. lazy beta iota zeta delta [random].
    cbn [randCalls set_randCalls grid].
    destruct (negb _ && _) eqn:Hacc.
    + pose proof (spawned_cell st _ _ Hrand Hacc) as Hcell.
      split; [|repeat (lazy beta iota zeta; break_if); cbn [fst]; discriminate].
      repeat (lazy beta iota zeta; break_if);
        (split; [destruct st; reflexivity|]);
        cbn [fst snd enemies set_enemies set_randCalls];
        (eexists; split; [reflexivity|]);
        (split; [exact Hcell|]);
        cbn [en_isDead en_path en_hp en_maxHp en_isBoss en_type en_speed];
        repeat split; try discriminate;
        try (apply Z.leb_le; assumption);
        match goal with
        | H : (5 <=? lvl) = _ |- _ =>
            first [ generalize (spawn_speed true lvl); rewrite H;
                    exact (fun x => x)
                  | generalize (spawn_speed false lvl); rewrite H;
                    exact (fun x => x) ]
        end.
    + destruct (IH (set_randCalls (S (S (randCalls st))) st)) as [[Hst Hres] Hk].
      set (res := spawnAttempts rand n lvl _) in *.
      split.
      * split.
        -- rewrite Hst at 1. destruct st; reflexivity.
        -- destruct (fst res); exact Hres.
      * intros Hf. rewrite (Hk Hf). cbn. lia.
Qed.

(** X18. One call of [spawnEnemy], on a board with its 13 rows and with
    draws in [0, 1): it touches nothing but the enemy list and the random
    source. When it returns [true] it has pushed exactly one enemy, standing
    on an empty interior cell more than 8 steps from the spawn cell, alive,
    at full health (3 for a boss, 1 otherwise), a boss only from level 3 on
    and then a chaser, and not slower than the base speed. When it returns
    [false] the enemy list is unchanged and the 50 attempts have used 100
    draws. *)
Theorem spawnEnemy_keeps_clear_of_spawn (lvl : Z) (st : GameEngine) :
  randomInRange rand ->
  length (grid st) = Z.to_nat GRID_ROWS ->
  let res := spawnEnemy rand lvl st in
  snd res = set_enemies (enemies (snd res))
              (set_randCalls (randCalls (snd res)) st) /\
  if fst res
  then exists e, enemies (snd res) = enemies st ++ [e] /\
                 spawned lvl (grid st) e
  else enemies (snd res) = enemies st /\
       randCalls (snd res) = (randCalls st + 100)%nat.
Proof.
  intros Hrand _. cbv zeta. unfold spawnEnemy.
  destruct (spawnAttempts_spec lvl 50 st Hrand) as [[Hst Hres] Hk].
  split; [exact Hst|].
  destruct (fst (spawnAttempts rand 50 lvl st)); [exact Hres|].
  split; [exact Hres|]. rewrite Hk by reflexivity. reflexivity.
Qed.

(** The loop of [initLevel] that calls [spawnEnemy] until enough enemies
    stand on the board. *)
Lemma spawnUntil_spec lvl total fuel : forall k st st',
  randomInRange rand ->
  spawnUntil rand fuel lvl k total st = Some st' -> k <= total ->
  st' = set_enemies (enemies st') (set_randCalls (randCalls st') st) /\
  exists new,
    enemies st' = enemies st ++ new /\
    Z.of_nat (length new) = total - k /\
    Forall (spawned lvl (grid st)) new.
Proof.
  induction fuel as [|fuel IH]; intros k st st' Hrand Hrun Hk;
    cbn [spawnUntil] in Hrun; destruct (k <? total) eqn:Hlt;
    try discriminate.
  - injection Hrun as <-. apply Z.ltb_ge in Hlt.
    split; [destruct st; reflexivity|].
    exists []. rewrite app_nil_r. repeat split; [cbn; lia|constructor].
  - unfold spawnEnemy in Hrun.
    destruct (spawnAttempts_spec lvl 50 st Hrand) as [[Hst Hres] _].
    destruct (spawnAttempts rand 50 lvl st) as [ok st1].
    cbn [fst snd] in Hst, Hres. apply Z.ltb_lt in Hlt.
    assert (Hgrid : grid st1 = grid st) by (rewrite Hst; reflexivity).
    destruct ok.
    + destruct Hres as (e & He & Hsp).
      destruct (IH (k + 1) st1 st' Hrand Hrun ltac:(lia))
        as (Hst' & new & Hnew & Hlen & Hall).
      split.
      * rewrite Hst' at 1. rewrite Hst. destruct st; reflexivity.
      * exists (e :: new). rewrite Hnew, He, <- app_assoc. split; [reflexivity|].
        split; [cbn [length]; lia|].
        constructor; [exact Hsp|]. rewrite <- Hgrid. exact Hall.
    + destruct (IH k st1 st' Hrand Hrun Hk)
        as (Hst' & new & Hnew & Hlen & Hall).
      split.
      * rewrite Hst' at 1. rewrite Hst. destruct st; reflexivity.
      * exists new. rewrite Hnew, Hres, <- Hgrid. auto.
  - injection Hrun as <-. apply Z.ltb_ge in Hlt.
    split; [destruct st; reflexivity|].
    exists []. rewrite app_nil_r. repeat split; [cbn; lia|constructor].
Qed.

(** The bound on the loop is an artefact of the model: a run that ends
    within [fuel] calls ends the same way within any larger bound. *)
Lemma spawnUntil_fuel lvl total fuel : forall fuel' k st st',
  (fuel <= fuel')%nat ->
  spawnUntil rand fuel lvl k total st = Some st' ->
  spawnUntil rand fuel' lvl k total st = Some st'.
Proof.
  induction fuel as [|fuel IH]; intros fuel' k st st' Hle Hrun;
    cbn [spawnUntil] in Hrun; destruct (k <? total) eqn:Hlt;
    try discriminate.
  - destruct fuel'; cbn [spawnUntil]; rewrite Hlt; exact Hrun.
  - destruct fuel' as [|fuel']; [lia|]. cbn [spawnUntil]. rewrite Hlt.
    destruct (spawnEnemy rand lvl st) as [ok st1].
    apply IH; [lia|exact Hrun].
  - destruct fuel'; cbn [spawnUntil]; rewrite Hlt; exact Hrun.
Qed.

(** The state in which [initLevel] enters the spawning loop. *)
Lemma initLevel_eq fuel lvl st :
  initLevel rand clock fuel lvl st =
  let st0 :=
    set_isLevelComplete false (set_isLevelTransitioning false
      (set_enemies [] (set_powerUps [] (set_explosions [] (set_bombs []
         (set_grid [] (set_gameTime (120 + lvl * 15)
            (set_level lvl st)))))))) in
  let st1 := set_grid (fst (generateGrid rand lvl st0))
               (set_randCalls (randCalls st + 110) st0) in
  let p := set_pl_y (inject_Z TILE_SIZE)
             (set_pl_x (inject_Z TILE_SIZE) (player st)) in
  let st2 :=
    set_player
      (set_pl_invulnerableUntil (clock (clockCalls st) + INVULNERABILITY_MS)%Q
         p)
      (set_clockCalls (S (clockCalls st)) st1) in
  spawnUntil rand fuel lvl 0 (2 + Z.min lvl 8) st2.
Proof.
  unfold initLevel. cbv zeta.
  match goal with
  | |- context [generateGrid rand lvl ?s] =>
      pose proof (generateGrid_state lvl s) as Hs;
      destruct (generateGrid rand lvl s) as [g s1]
  end.
  cbn [fst snd] in *. subst s1. reflexivity.
Qed.

(** X19. What [initLevel] leaves when its spawning loop ends (draws in
    [0, 1), level at least 1). The level number and the countdown
    [120 + 15 * level] are set; bombs, explosions and power-ups are gone and
    both level flags are cleared; the board is laid out as a fresh level;
    [2 + min(level, 8)] enemies stand on it, each on an empty cell more than
    8 steps from the spawn cell; the player is back on the spawn pixel with
    2500 ms of invulnerability and otherwise untouched (power-ups and
    [bombsCount] are carried over); score, lives, flags of the run, input
    and callbacks are untouched. The result does not depend on the bound
    given to the loop. *)
Theorem initLevel_builds_the_level (fuel : nat) (lvl : Z)
    (st st' : GameEngine) :
  randomInRange rand -> 1 <= lvl ->
  initLevel rand clock fuel lvl st = Some st' ->
  (forall fuel', (fuel <= fuel')%nat ->
     initLevel rand clock fuel' lvl st = Some st') /\
  level st' = lvl /\ gameTime st' = 120 + lvl * 15 /\
  bombs st' = [] /\ explosions st' = [] /\ powerUps st' = [] /\
  isLevelComplete st' = false /\ isLevelTransitioning st' = false /\
  boardOf tileFits (grid st') /\
  Z.of_nat (length (enemies st')) = 2 + Z.min lvl 8 /\
  Forall (spawned lvl (grid st')) (enemies st') /\
  player st' =
    set_pl_invulnerableUntil (clock (clockCalls st) + INVULNERABILITY_MS)%Q
      (set_pl_y (inject_Z TILE_SIZE)
         (set_pl_x (inject_Z TILE_SIZE) (player st))) /\
  score st' = score st /\ lives st' = lives st /\
  isPaused st' = isPaused st /\ isGameOver st' = isGameOver st /\
  isVictory st' = isVictory st /\ input st' = input st /\
  events st' = events st.
Proof.
  intros Hrand Hlvl Hrun.
  split.
  { intros fuel' Hle. rewrite initLevel_eq in *. cbv zeta in *.
    eapply spawnUntil_fuel; eassumption. }
  rewrite initLevel_eq in Hrun. cbv zeta in Hrun.
  apply spawnUntil_spec in Hrun; [|exact Hrand|lia].
  destruct Hrun as (Hst & new & Hnew & Hlen & Hall).
  cbn [enemies set_player set_clockCalls set_grid set_randCalls
       set_isLevelComplete set_isLevelTransitioning set_enemies] in Hnew.
  cbn [grid set_player set_clockCalls set_grid] in Hall.
  assert (Hgrid : grid st' =
            fst (generateGrid rand lvl
              (set_isLevelComplete false (set_isLevelTransitioning false
                 (set_enemies [] (set_powerUps [] (set_explosions []
                   (set_bombs [] (set_grid [] (set_gameTime (120 + lvl * 15)
                      (set_level lvl st))))))))))).
  { rewrite Hst. reflexivity. }
  repeat match goal with
  | |- _ /\ _ => split
  end; try (rewrite Hst; reflexivity).
  - rewrite Hgrid.
    apply (generateGrid_boardOf tileFits lvl
             (fun r c s => generateTile_fits lvl r c s)).
  - rewrite Hnew. cbn [app]. lia.
  - rewrite Hnew, Hgrid. exact Hall.
Qed.

(** *** A board with no room *)

Lemma spawnAttempts_noRoom lvl n : forall st,
  noRoom (grid st) ->
  fst (spawnAttempts rand n lvl st) = false /\
  grid (snd (spawnAttempts rand n lvl st)) = grid st.
Proof.
  induction n as [|n IH]; intros st Hno; [split; reflexivity|].
  cbn [spawnAttempts]. lazy beta iota zeta delta [random].
  cbn [randCalls set_randCalls grid].
  match goal with
  | |- context [tileAt (grid st) ?r ?c] =>
      pose proof (Hno r c) as Hrc; unfold farFromSpawn in Hrc;
      destruct (tileAt (grid st) r c) as [[]|]
  end; cbn [notEmpty negb andb];
    try (rewrite Hrc by reflexivity);
    apply (IH (set_randCalls (S (S (randCalls st))) st)); exact Hno.
Qed.

Lemma spawnUntil_noRoom lvl total fuel : forall k st,
  noRoom (grid st) -> k < total ->
  spawnUntil rand fuel lvl k total st = None.
Proof.
  induction fuel as [|fuel IH]; intros k st Hno Hk; cbn [spawnUntil];
    rewrite (proj2 (Z.ltb_lt k total) Hk); [reflexivity|].
  unfold spawnEnemy.
  destruct (spawnAttempts_noRoom lvl 50 st Hno) as [Hf Hg].
  destruct (spawnAttempts rand 50 lvl st) as [ok st1]. cbn [fst snd] in *.
  subst ok. apply IH; [rewrite Hg; exact Hno|exact Hk].
Qed.

Lemma isSpawnCell_near r c : isSpawnCell r c = true -> farFromSpawn r c = false.
Proof.
  unfold isSpawnCell, farFromSpawn. intros H.
  apply Z.ltb_ge.
  destruct (r =? 1) eqn:R1; destruct (c =? 1) eqn:C1;
    destruct (c =? 2) eqn:C2; destruct (r =? 2) eqn:R2;
    try discriminate H;
    repeat match goal with
    | E : (_ =? _) = true |- _ => apply Z.eqb_eq in E
    end; lia.
Qed.

Lemma crowded_noRoom g : boardOf tileCrowded g -> noRoom g.
Proof.
  intros Hg r c He.
  destruct (boardOf_tileAt tileCrowded g r c Hg) as [Hin Hout].
  destruct (inGrid c r); [|rewrite Hout in He by reflexivity; discriminate].
  destruct (Hin eq_refl) as (t & Ht & Hc). rewrite He in Ht.
  injection Ht as <-. unfold tileCrowded in Hc.
  destruct (isSpawnCell r c) eqn:Hs; [now apply isSpawnCell_near|].
  now contradiction Hc.
Qed.

Lemma density_low lvl a :
  1 <= lvl -> (a < 0.25)%Q ->
  Qltb a (Qminb (0.25 + inject_Z (lvl - 1) * 0.04) 0.6) = true.
Proof.
  intros Hlvl Ha. apply Qltb_lt. unfold Qminb.
  destruct (Qle_bool _ _).
  - eapply Qlt_le_trans; [exact Ha|].
    unfold Qle, Qplus, Qmult, inject_Z. cbn. lia.
  - eapply Qlt_trans; [exact Ha|reflexivity].
Qed.

(** X20. The spawning loop of [initLevel] has no way out on a board with no
    room: when every draw falls below 0.25 (the lowest wall density), every
    cell outside the spawn zone gets a soft wall, [spawnEnemy] fails every
    time and [initLevel] does not return, whatever bound is put on the
    loop. *)
Theorem initLevel_hangs_without_room (lvl : Z) (st : GameEngine)
    (fuel : nat) :
  (forall n, (rand n < 0.25)%Q) -> 1 <= lvl ->
  initLevel rand clock fuel lvl st = None.
Proof.
  intros Hlow Hlvl. rewrite initLevel_eq. cbv zeta.
  apply spawnUntil_noRoom; [|lia].
  cbn [grid set_player set_clockCalls set_grid].
  apply crowded_noRoom.
  apply (generateGrid_boardOf tileCrowded lvl).
  intros r c s. rewrite generateTile_eq. unfold tileCrowded.
  destruct (isBorder r c); [destruct (isSpawnCell r c); [exact I|discriminate]|].
  destruct (isPillar r c); [destruct (isSpawnCell r c); [exact I|discriminate]|].
  destruct (isSpawnCell r c); [exact I|].
  rewrite (density_low lvl _ Hlvl (Hlow _)). discriminate.
Qed.

End Levels.

Lemma spawnEnemy_keeps_clear_of_spawn_witness :
  let res := spawnEnemy randHalf 1 arena in
  snd res = set_enemies (enemies (snd res))
              (set_randCalls (randCalls (snd res)) arena) /\
  if fst res
  then exists e, enemies (snd res) = enemies arena ++ [e] /\
                 spawned 1 (grid arena) e
  else enemies (snd res) = enemies arena /\
       randCalls (snd res) = (randCalls arena + 100)%nat.
Proof.
  apply (spawnEnemy_keeps_clear_of_spawn randHalf 1 arena).
  - intros n. unfold randHalf, Qle, Qlt. simpl. lia.
  - reflexivity.
Defined.

Lemma initLevel_builds_the_level_witness :
  exists st',
    initLevel randHalf (clockAt 0) 3 1 arena = Some st' /\
    Z.of_nat (length (enemies st')) = 3 /\
    Forall (spawned 1 (grid st')) (enemies st') /\
    gameTime st' = 135.
Proof.
  eexists. split; [vm_compute; reflexivity|].
  match goal with
  | |- context [length (enemies ?s)] =>
      destruct (initLevel_builds_the_level randHalf (clockAt 0) 3 1 arena s)
        as (_ & _ & Ht & _ & _ & _ & _ & _ & _ & Hn & Hall & _)
  end.
  - intros n. unfold randHalf, Qle, Qlt. simpl. lia.
  - lia.
  - vm_compute. reflexivity.
  - split; [exact Hn|]. split; [exact Hall|exact Ht].
Defined.

Lemma initLevel_hangs_without_room_witness :
  initLevel randLow (clockAt 0) 1000 1 arena = None.
Proof.
  apply (initLevel_hangs_without_room randLow (clockAt 0) 1 arena 1000).
  - intros n. unfold randLow, Qlt. simpl. lia.
  - lia.
Defined.

(* ===================================================================== *)
(** ** Runs that have ended *)

Lemma sameWorld_refl st : sameWorld st st.
Proof. repeat split. Qed.

Lemma sameWorld_trans st1 st2 st3 :
  sameWorld st1 st2 -> sameWorld st2 st3 -> sameWorld st1 st3.
Proof.
  unfold sameWorld. intros H1 H2.
  repeat match goal with H : _ /\ _ |- _ => destruct H end.
  repeat split; congruence.
Qed.

Section Halted.

Variable rand : nat -> Q.
Variable clock : nat -> Q.

Lemma loop_halted timestamp st :
  halted st = true -> sameWorld st (loop rand clock timestamp st).
Proof.
  intros Hh. unfold loop.
  destruct (negb (animationId st) && isPaused st); [apply sameWorld_refl|].
  cbv zeta.
  change (isPaused (set_lastTime timestamp st)) with (isPaused st).
  change (isGameOver (set_lastTime timestamp st)) with (isGameOver st).
  change (isVictory (set_lastTime timestamp st)) with (isVictory st).
  change (isLevelComplete (set_lastTime timestamp st)) with (isLevelComplete st).
  unfold halted in Hh.
  destruct (isPaused st), (isGameOver st), (isVictory st),
    (isLevelComplete st); try discriminate Hh; repeat split.
Qed.

Lemma act_halted a st :
  halted st = true -> sameWorld st (act rand clock a st).
Proof.
  intros Hh. destruct a; cbn [act].
  - now apply loop_halted.
  - unfold startGame, performanceNow. cbv zeta beta iota.
    match goal with
    | |- context [loop rand clock ?t ?s] =>
        apply (sameWorld_trans st s); [repeat split|apply loop_halted, Hh]
    end.
  - repeat split.
  - repeat split.
  - repeat split.
  - repeat split.
  - destruct (pendingRespawns st); repeat split.
Qed.

(** X21. A run that has ended stays as it is. Once [isGameOver],
    [isVictory] or [isLevelComplete] is set, no sequence of frames,
    [startGame] calls, key events, pauses and respawn timeouts changes the
    board, the bombs, explosions, power-ups and enemies, the score, lives,
    countdown and level, or the three flags, and no random number is
    drawn. *)
Theorem ended_run_stays_as_it_is (actions : list Action) (st : GameEngine) :
  halted st = true ->
  sameWorld st (run rand clock actions st) /\
  halted (run rand clock actions st) = true.
Proof.
  revert st. induction actions as [|a actions IH]; intros st Hh.
  - split; [apply sameWorld_refl|exact Hh].
  - cbn [run fold_left]. fold (run rand clock actions (act rand clock a st)).
    pose proof (act_halted a st Hh) as Ha.
    assert (Hh' : halted (act rand clock a st) = true).
    { unfold halted in *.
      destruct Ha as (_ & _ & _ & _ & _ & _ & _ & _ & _ & -> & -> & -> & _).
      exact Hh. }
    destruct (IH _ Hh') as [Hw Hr].
    split; [eapply sameWorld_trans; eassumption|exact Hr].
Qed.

End Halted.

Lemma ended_run_stays_as_it_is_witness :
  let actions := [Frame 16; KeyDown " "; Frame 32; StartGame;
                  RespawnTimeout; Frame 48] in
  let st := set_isGameOver true twoBombs in
  sameWorld st (run randHalf (clockAt 5000) actions st) /\
  halted (run randHalf (clockAt 5000) actions st) = true.
Proof.
  intros actions st.
  apply (ended_run_stays_as_it_is randHalf (clockAt 5000) actions st).
  reflexivity.
Defined.

(* ===================================================================== *)
(** ** Controls *)

Lemma set_input_same st : set_input (input st) st = st.
Proof. destruct st; reflexivity. Qed.

(** X22. Keys without a case are ignored: a key event whose key is none of
    the thirteen mapped ones leaves the engine as it is, on press and on
    release, and so does a virtual input whose name is none of the five. *)
Theorem unmapped_keys_are_ignored (key : string) (pressed : bool)
    (st : GameEngine) :
  (keyIs key mappedKeys = false ->
   handleKeyDown key st = st /\ handleKeyUp key st = st) /\
  (keyIs key virtualKeys = false -> setVirtualInput key pressed st = st).
Proof.
  split; intros H.
  - unfold handleKeyDown, handleKeyUp, keyIs, some, mappedKeys in *.
    cbn [existsb] in *.
    repeat match type of H with
    | context [String.eqb key ?s] =>
        destruct (String.eqb key s); cbn [orb] in H; [discriminate H|]
    end.
    cbn [orb]. split; apply set_input_same.
  - unfold setVirtualInput, keyIs, some, virtualKeys in *.
    cbn [existsb] in *.
    repeat match type of H with
    | context [String.eqb key ?s] =>
        destruct (String.eqb key s); cbn [orb] in H; [discriminate H|]
    end.
    cbv zeta. apply set_input_same.
Qed.

Lemma unmapped_keys_are_ignored_witness :
  (handleKeyDown "Enter" twoBombs = twoBombs /\
   handleKeyUp "Enter" twoBombs = twoBombs) /\
  setVirtualInput "FIRE" true twoBombs = twoBombs.
Proof.
  split.
  - apply (proj1 (unmapped_keys_are_ignored "Enter" true twoBombs)).
    reflexivity.
  - apply (proj2 (unmapped_keys_are_ignored "FIRE" true twoBombs)).
    reflexivity.
Defined.

(** X23. The on-screen controls act as the keyboard does: a virtual input
    named UP, DOWN, LEFT, RIGHT or BOMB changes the engine exactly as the
    press or the release of the matching arrow key or of the space bar;
    the letter keys act as the arrows. *)
Theorem virtual_input_matches_keyboard (st : GameEngine) :
  setVirtualInput "UP" true st = handleKeyDown "ArrowUp" st /\
  setVirtualInput "DOWN" true st = handleKeyDown "ArrowDown" st /\
  setVirtualInput "LEFT" true st = handleKeyDown "ArrowLeft" st /\
  setVirtualInput "RIGHT" true st = handleKeyDown "ArrowRight" st /\
  setVirtualInput "BOMB" true st = handleKeyDown " " st /\
  setVirtualInput "UP" false st = handleKeyUp "ArrowUp" st /\
  setVirtualInput "DOWN" false st = handleKeyUp "ArrowDown" st /\
  setVirtualInput "LEFT" false st = handleKeyUp "ArrowLeft" st /\
  setVirtualInput "RIGHT" false st = handleKeyUp "ArrowRight" st /\
  setVirtualInput "BOMB" false st = handleKeyUp " " st /\
  handleKeyDown "w" st = handleKeyDown "ArrowUp" st /\
  handleKeyDown "s" st = handleKeyDown "ArrowDown" st /\
  handleKeyDown "a" st = handleKeyDown "ArrowLeft" st /\
  handleKeyDown "d" st = handleKeyDown "ArrowRight" st.
Proof. repeat split. Qed.

(** X25. The kind of a dropped power-up by the interval of the draw:
    a bomb upgrade up to 0.60, then fire up to 0.80, speed up to 0.90, the
    time bonus up to 0.96 and the super bomb above. *)
Theorem powerUpKind_intervals (rnd : Q) :
  (powerUpKind rnd = BOMB_UP <-> (rnd <= 0.60)%Q) /\
  (powerUpKind rnd = FIRE_UP <-> (0.60 < rnd)%Q /\ (rnd <= 0.80)%Q) /\
  (powerUpKind rnd = SPEED_UP <-> (0.80 < rnd)%Q /\ (rnd <= 0.90)%Q) /\
  (powerUpKind rnd = TIME_BONUS <-> (0.90 < rnd)%Q /\ (rnd <= 0.96)%Q) /\
  (powerUpKind rnd = SUPER_BOMB <-> (0.96 < rnd)%Q).
Proof.
  unfold powerUpKind. cbv zeta.
  assert (H := fun a => Qltb_lt a rnd).
  assert (Hn : forall a, Qltb a rnd = false <-> (rnd <= a)%Q).
  { intros a. unfold Qltb. rewrite negb_false_iff. apply Qle_bool_iff. }
  destruct (Qltb 0.60 rnd) eqn:H1; destruct (Qltb 0.80 rnd) eqn:H2;
    destruct (Qltb 0.90 rnd) eqn:H3; destruct (Qltb 0.96 rnd) eqn:H4;
    repeat match goal with
    | E : Qltb _ rnd = true |- _ => apply H in E
    | E : Qltb _ rnd = false |- _ => apply Hn in E
    end;
    repeat split; intros; try discriminate; try assumption;
    repeat match goal with
    | E : _ /\ _ |- _ => destruct E
    end;
    try lra.
Qed.

(* ===================================================================== *)
(** ** The bomb key *)

Section Latch.

Variable rand : nat -> Q.
Variable clock : nat -> Q.

Lemma input_killPlayer st : input (killPlayer clock st) = input st.
Proof.
  unfold killPlayer, performanceNow. cbv zeta beta iota.
  destruct (_ || _); [reflexivity|]. destruct (_ <=? _); reflexivity.
Qed.

Lemma input_updatePlayer dt st : input (updatePlayer dt st) = input st.
Proof.
  unfold updatePlayer. destruct (inputVector _) as [dx dy].
  destruct (_ || _);
    [destruct (moveEntity _ _ _ _ _ _ _); destruct (Qltb _ _)|];
    reflexivity.
Qed.

Lemma bombs_updatePlayer dt st : bombs (updatePlayer dt st) = bombs st.
Proof.
  unfold updatePlayer. destruct (inputVector _) as [dx dy]. reflexivity.
Qed.

Lemma input_placeBomb st : input (placeBomb rand st) = input st.
Proof.
  unfold placeBomb. destruct (_ <=? _); [reflexivity|].
  cbv zeta. destruct (some _ _); reflexivity.
Qed.

Lemma input_beforeBombs dt st :
  input (beforeBombs rand clock dt st) = latched (input st).
Proof.
  unfold beforeBombs, updatePlacement, latched, performanceNow. cbn [snd].
  cbv zeta. rewrite !input_updatePlayer. cbn [input set_clockCalls].
  destruct (_ && _);
    rewrite ?input_placeBomb; cbn [input set_input];
    rewrite ?input_updatePlayer; reflexivity.
Qed.

Lemma input_update dt st :
  input (update rand clock dt st) = latched (input st).
Proof.
  change (update rand clock dt st) with
    (let t := clock (clockCalls st) in
     pushStats (updateCountdown clock t dt (updateContact clock t
       (updatePowerUps (updateAI rand dt (checkLevelComplete
          (updateExplosions clock t dt
             (updateBombs rand dt (beforeBombs rand clock dt st))))))))).
  cbv zeta.
  etransitivity.
  { refine (frame_afterBombs rand clock (fun s s' => input s' = input s)
              _ _ _ _ _ _ _ _ _ _ _ _ _ dt _).
    all: try (intros; reflexivity).
    - intros s1 s2 s3 H12 H23. congruence.
    - intros p s. unfold applyPowerUp. destruct (pu_type p); reflexivity.
    - intros s. apply input_killPlayer. }
  etransitivity.
  { refine (frame_updateBombs rand (fun s s' => input s' = input s)
              _ _ _ _ _ _ _ dt _).
    all: try (intros; reflexivity).
    - intros s1 s2 s3 H12 H23. congruence.
    - intros c r s _ _. unfold destroyBlock, random. cbn.
      destruct (Qltb _ _); reflexivity. }
  apply input_beforeBombs.
Qed.

Lemma length_delete_le {A} (l : list A) : forall i,
  (length (delete i l) <= length l)%nat.
Proof.
  induction l as [|a l IH]; intros [|i]; cbn; try lia.
  apply le_n_S, IH.
Qed.

Lemma length_updateBombs dt st :
  (length (bombs (updateBombs rand dt st)) <= length (bombs st))%nat.
Proof.
  unfold updateBombs. generalize (length (bombs st)) at 1. intros n.
  revert st. induction n as [|n IH]; intros st; cbn [downFrom]; [lia|].
  etransitivity; [apply IH|].
  rewrite <- (length_map cellOf (bombs (bombStep rand dt n st))).
  rewrite <- (length_map cellOf (bombs st)).
  destruct (bombStep_cells rand dt n st) as [-> | ->]; [lia|].
  apply length_delete_le.
Qed.

Lemma length_beforeBombs dt st :
  (length (bombs (beforeBombs rand clock dt st)) <= S (length (bombs st)))%nat /\
  (in_bomb (input st) && negb (in_bombPressed (input st)) = false ->
   bombs (beforeBombs rand clock dt st) = bombs st).
Proof.
  split.
  - destruct (beforeBombs_cases rand clock dt st)
      as (_ & [[-> _]|(b & -> & _)]); [lia|].
    rewrite length_app. cbn. lia.
  - intros Hoff. unfold beforeBombs, updatePlacement, performanceNow.
    cbn [snd]. rewrite input_updatePlayer. cbn [input set_clockCalls].
    rewrite Hoff. rewrite bombs_updatePlayer. reflexivity.
Qed.

(** X24. The bomb key is edge-triggered. A tick changes the held controls
    only by setting the latch [bombPressed] when the bomb key is down; it
    adds at most one bomb to the board, none unless the bomb key is down
    with the latch open, and so none in the tick that follows another with
    no key event in between. *)
Theorem held_bomb_key_places_one_bomb (dt dt' : Q) (st : GameEngine) :
  input (update rand clock dt st) = latched (input st) /\
  (length (bombs (update rand clock dt st)) <= S (length (bombs st)))%nat /\
  (in_bomb (input st) && negb (in_bombPressed (input st)) = false ->
   (length (bombs (update rand clock dt st)) <= length (bombs st))%nat) /\
  (length (bombs (update rand clock dt' (update rand clock dt st))) <=
   length (bombs (update rand clock dt st)))%nat.
Proof.
  assert (Hoff : forall d s,
            in_bomb (input s) && negb (in_bombPressed (input s)) = false ->
            (length (bombs (update rand clock d s)) <= length (bombs s))%nat).
  { intros d s Hs. rewrite update_bombs.
    etransitivity; [apply length_updateBombs|].
    rewrite (proj2 (length_beforeBombs d s) Hs). lia. }
  split; [apply input_update|]. split; [|split].
  - rewrite update_bombs.
    etransitivity; [apply length_updateBombs|].
    apply (proj1 (length_beforeBombs dt st)).
  - apply Hoff.
  - apply Hoff. rewrite input_update. unfold latched.
    destruct (in_bomb (input st)) eqn:Hb;
      destruct (in_bombPressed (input st)) eqn:Hp; cbn;
      rewrite ?Hb, ?Hp; reflexivity.
Qed.

End Latch.

Lemma held_bomb_key_places_one_bomb_witness :
  (length (bombs (update randHalf (clockAt 0) 16 twoBombs)) <=
   length (bombs twoBombs))%nat.
Proof.
  apply (proj1 (proj2 (proj2
           (held_bomb_key_places_one_bomb randHalf (clockAt 0) 16 16
              twoBombs)))).
  reflexivity.
Defined.

(* ===================================================================== *)
(** ** Power-ups *)

Lemma dropsOn_refl st : dropsOn st st.
Proof. split; [apply erodes_refl|]. intros p Hp. now left. Qed.

Lemma dropsOn_trans st1 st2 st3 :
  dropsOn st1 st2 -> dropsOn st2 st3 -> dropsOn st1 st3.
Proof.
  intros [E12 P12] [E23 P23]. split; [eapply erodes_trans; eassumption|].
  intros p Hp. destruct (P23 p Hp) as [Hin|[Hs He]].
  - destruct (P12 p Hin) as [Hin1|[Hs1 He1]]; [now left|right].
    split; [exact Hs1|].
    destruct (E23 (pu_row p) (pu_col p)) as [Heq|[Hs2 _]]; congruence.
  - right. split; [|exact He].
    destruct (E12 (pu_row p) (pu_col p)) as [Heq|[_ He2]]; congruence.
Qed.

Lemma dropsOn_keep st st' :
  grid st' = grid st -> powerUps st' = powerUps st -> dropsOn st st'.
Proof.
  intros Hg Hp. split; [rewrite Hg; apply erodes_refl|].
  intros p Hin. left. now rewrite <- Hp.
Qed.

Lemma In_delete {A} (l : list A) : forall i x, In x (delete i l) -> In x l.
Proof.
  induction l as [|a l IH]; intros [|i] x H; cbn in *; auto.
  destruct H as [H|H]; eauto.
Qed.

Lemma upgraded_refl p : upgraded p p.
Proof.
  repeat split; try lia; [|auto].
  unfold Qminb. destruct (Qle_bool _ _) eqn:H; [apply Qle_refl|].
  apply Qlt_le_weak, Qnot_le_lt. intros Hle.
  apply Qle_bool_iff in Hle. congruence.
Qed.

Lemma Qminb_glb a b c : (c <= a)%Q -> (c <= b)%Q -> (c <= Qminb a b)%Q.
Proof. intros Ha Hb. unfold Qminb. destruct (Qle_bool _ _); assumption. Qed.

Lemma Qminb_le_l a b : (Qminb a b <= a)%Q.
Proof.
  unfold Qminb. destruct (Qle_bool _ _) eqn:H; [apply Qle_refl|].
  apply Qlt_le_weak, Qnot_le_lt. intros Hle.
  apply Qle_bool_iff in Hle. congruence.
Qed.

Lemma Qminb_le_r a b : (Qminb a b <= b)%Q.
Proof.
  unfold Qminb. destruct (Qle_bool _ _) eqn:H; [|apply Qle_refl].
  now apply Qle_bool_iff.
Qed.

Lemma upgraded_trans p1 p2 p3 :
  upgraded p1 p2 -> upgraded p2 p3 -> upgraded p1 p3.
Proof.
  intros (A1 & A2 & A3 & A4) (B1 & B2 & B3 & B4).
  repeat split; try lia; [|auto].
  eapply Qle_trans; [|exact B3].
  apply Qminb_glb; [exact A3|apply Qminb_le_r].
Qed.

Section PowerUps.

Variable rand : nat -> Q.
Variable clock : nat -> Q.

Lemma dropsOn_killPlayer st : dropsOn st (killPlayer clock st).
Proof.
  unfold killPlayer, performanceNow. cbv zeta beta iota.
  destruct (_ || _); [apply dropsOn_keep; reflexivity|].
  destruct (_ <=? _); apply dropsOn_keep; reflexivity.
Qed.

Lemma dropsOn_destroyBlock c r st :
  inGrid c r = true -> tileAt (grid st) r c = Some WALL_SOFT ->
  dropsOn st (destroyBlock rand c r st).
Proof.
  intros Hin Hsoft. unfold destroyBlock, random. cbn.
  assert (He : tileAt (setTile (grid st) r c EMPTY) r c = Some EMPTY).
  { eapply tileAt_setTile. exact Hsoft. }
  destruct (Qltb _ _); split; cbn;
    try (apply erodes_setTile; assumption).
  - intros p Hp. apply in_app_or in Hp. destruct Hp as [Hp|[<-|[]]];
      [now left|right]. cbn. split; assumption.
  - intros p Hp. now left.
Qed.

Lemma dropsOn_updatePowerUps st : dropsOn st (updatePowerUps st).
Proof.
  unfold updatePowerUps.
  apply (frame_downFrom dropsOn dropsOn_refl dropsOn_trans).
  intros i s. unfold powerUpStep.
  destruct (_ !! _) as [p|]; [|apply dropsOn_refl].
  destruct (_ && _); [|apply dropsOn_refl].
  assert (H : grid (applyPowerUp p s) = grid s /\
              powerUps (applyPowerUp p s) = powerUps s).
  { unfold applyPowerUp. destruct (pu_type p); split; reflexivity. }
  destruct H as [Hg Hp]. split; cbn; [rewrite Hg; apply erodes_refl|].
  intros q Hq. left. rewrite <- Hp. eapply In_delete. exact Hq.
Qed.

(** X26. Power-ups appear only where a soft wall has just gone: every
    power-up on the board after a tick was there before, or lies on a cell
    that held a soft wall before the tick and is empty after it. *)
Theorem powerups_appear_where_walls_break (dt : Q) (st : GameEngine) :
  Forall (fun p =>
            In p (powerUps st) \/
            (tileAt (grid st) (pu_row p) (pu_col p) = Some WALL_SOFT /\
             tileAt (grid (update rand clock dt st)) (pu_row p) (pu_col p)
               = Some EMPTY))
         (powerUps (update rand clock dt st)).
Proof.
  assert (H : dropsOn st (update rand clock dt st)).
  { change (update rand clock dt st) with
      (let t := clock (clockCalls st) in
       pushStats (updateCountdown clock t dt (updateContact clock t
         (updatePowerUps (updateAI rand dt (checkLevelComplete
            (updateExplosions clock t dt
               (updateBombs rand dt (beforeBombs rand clock dt st))))))))).
    cbv zeta.
    assert (Hk : forall s s' : GameEngine,
              grid s' = grid s -> powerUps s' = powerUps s -> dropsOn s s')
      by apply dropsOn_keep.
    eapply dropsOn_trans.
    { refine (frame_beforeBombs rand clock dropsOn dropsOn_refl dropsOn_trans
                _ _ _ _ _ _ dt st).
      all: try (intros; apply Hk; reflexivity).
      intros d s. apply Hk; unfold updatePlayer;
        destruct (inputVector _) as [dx dy];
        (destruct (_ || _);
           [destruct (moveEntity _ _ _ _ _ _ _); destruct (Qltb _ _)|]);
        reflexivity. }
    eapply dropsOn_trans.
    { refine (frame_updateBombs rand dropsOn dropsOn_refl dropsOn_trans
                _ _ _ _ _ dt _).
      all: try (intros; apply Hk; reflexivity).
      apply dropsOn_destroyBlock. }
    eapply dropsOn_trans.
    { refine (frame_updateExplosions clock dropsOn dropsOn_refl dropsOn_trans
                _ _ _ _ (clock (clockCalls st)) dt _).
      all: try (intros; apply Hk; reflexivity).
      apply dropsOn_killPlayer. }
    eapply dropsOn_trans.
    { refine (frame_checkLevelComplete dropsOn dropsOn_trans _ _ _).
      all: intros; apply Hk; reflexivity. }
    eapply dropsOn_trans.
    { refine (frame_updateAI rand dropsOn dropsOn_refl dropsOn_trans
                _ _ dt _).
      all: intros; apply Hk; reflexivity. }
    eapply dropsOn_trans; [apply dropsOn_updatePowerUps|].
    eapply dropsOn_trans.
    { refine (frame_updateContact clock dropsOn dropsOn_refl dropsOn_trans
                _ (clock (clockCalls st)) _).
      apply dropsOn_killPlayer. }
    eapply dropsOn_trans.
    { refine (frame_updateCountdown clock dropsOn dropsOn_refl dropsOn_trans
                _ _ (clock (clockCalls st)) dt _).
      - apply dropsOn_killPlayer.
      - intros s. apply Hk; reflexivity. }
    apply Hk; reflexivity. }
  apply Forall_forall. intros p Hp. apply list_elem_of_In in Hp.
  exact (proj2 H p Hp).
Qed.

(** X27. A tick never takes equipment away, up to the caps of the
    power-ups: [maxBombs] does not fall, the bomb range does not fall below
    the lesser of its old value and 12, the speed does not fall below the
    lesser of its old value and 9, and a speed of at most 9 stays at most
    9. *)
Theorem tick_never_downgrades_the_player (dt : Q) (st : GameEngine) :
  let p := player st in
  let p' := player (update rand clock dt st) in
  pl_maxBombs p <= pl_maxBombs p' /\
  Z.min (pl_bombRange p) 12 <= pl_bombRange p' /\
  (Qminb (pl_speed p) 9 <= pl_speed p')%Q /\
  ((pl_speed p <= 9)%Q -> (pl_speed p' <= 9)%Q).
Proof.
  cbv zeta.
  change (upgraded (player st) (player (update rand clock dt st))).
  assert (Hk : forall s s' : GameEngine,
            pl_maxBombs (player s') = pl_maxBombs (player s) ->
            pl_bombRange (player s') = pl_bombRange (player s) ->
            pl_speed (player s') = pl_speed (player s) ->
            upgraded (player s) (player s')).
  { intros s s' H1 H2 H3. destruct (upgraded_refl (player s)) as (A & B & C & D).
    unfold upgraded. rewrite H1, H2, H3. auto. }
  refine (frame_update rand clock
            (fun s s' => upgraded (player s) (player s'))
            _ _ _ _ _ _ _ _ _ _ _ _ _ _ _ _ _ _ dt st).
  all: try (intros; apply Hk; reflexivity).
  - intros s1 s2 s3. apply upgraded_trans.
  - intros d s. apply Hk; unfold updatePlayer;
      destruct (inputVector _) as [dx dy];
      (destruct (_ || _);
         [destruct (moveEntity _ _ _ _ _ _ _); destruct (Qltb _ _)|]);
      reflexivity.
  - intros c r s _ _. apply Hk; unfold destroyBlock, random; cbn;
      destruct (Qltb _ _); reflexivity.
  - intros p s. unfold applyPowerUp.
    destruct (pu_type p); try (apply Hk; reflexivity).
    + unfold upgraded. cbn. destruct (upgraded_refl (player s)) as (A & B & C & D).
      repeat split; auto; lia.
    + unfold upgraded. cbn. destruct (upgraded_refl (player s)) as (A & B & C & D).
      repeat split; auto; lia.
    + unfold upgraded. cbn. split; [lia|]. split; [lia|]. split.
      * apply Qminb_glb; [|apply Qminb_le_r].
        eapply Qle_trans; [apply Qminb_le_l|]. lra.
      * intros _. apply Qminb_le_r.
    + unfold upgraded. cbn. destruct (upgraded_refl (player s)) as (A & B & C & D).
      repeat split; auto; lia.
  - intros s. apply Hk; unfold killPlayer, performanceNow;
      cbv zeta beta iota; (destruct (_ || _); [reflexivity|]);
      destruct (_ <=? _); reflexivity.
Qed.

End PowerUps.

(* ===================================================================== *)
(** ** The boss's hit cooldown *)

Lemma grazed_refl t e : grazed t e e.
Proof. split; [apply fades_refl|]. intros _. left. split; reflexivity. Qed.

Lemma Forall2_grazed_refl t es : Forall2 (grazed t) es es.
Proof. induction es; constructor; auto using grazed_refl. Qed.

Section Cooldown.

Variable rand : nat -> Q.
Variable clock : nat -> Q.

Lemma cooldown_running t : Qltb (t - t) 1000 = true.
Proof. apply Qltb_lt. lra. Qed.

(** A boss already hit at [t] is not hit again at [t]. *)
Lemma hitEnemy_grazed t cell e e' st :
  grazed t e e' -> grazed t e (fst (hitEnemy t cell e' st)).
Proof.
  intros [Hf Hg]. split.
  { eapply fades_trans; [exact Hf|apply hitEnemy_fades]. }
  intros Hb. specialize (Hg Hb).
  assert (Hb' : en_isBoss e' = true).
  { destruct Hf as (_ & _ & -> & _). exact Hb. }
  unfold hitEnemy. destruct (_ && _); [|exact Hg].
  rewrite Hb'. cbn [andb].
  destruct Hg as [[Hh Hl]|[Hh Hl]].
  - destruct (Qltb _ _); [left; auto|]. cbv zeta.
    destruct (_ <=? _); cbn; right; split; auto; lia.
  - rewrite Hl, cooldown_running. right. auto.
Qed.

Lemma hitEnemies_grazed t cell es es' : forall st,
  Forall2 (grazed t) es es' ->
  Forall2 (grazed t) es (fst (hitEnemies t cell es' st)).
Proof.
  intros st H. revert st.
  induction H as [|e e' es es' He _ IH]; intros st; cbn [hitEnemies];
    [constructor|].
  pose proof (hitEnemy_grazed t cell e e' st He) as H1.
  destruct (hitEnemy _ _ _ _) as [e'' st1].
  specialize (IH st1). destruct (hitEnemies _ _ _ _) as [rest st2].
  constructor; assumption.
Qed.

Lemma cellDamage_grazed t es0 st cell :
  Forall2 (grazed t) es0 (enemies st) ->
  Forall2 (grazed t) es0 (enemies (cellDamage clock t st cell)).
Proof.
  intros H. unfold cellDamage. cbv zeta.
  match goal with
  | |- context [hitEnemies t cell (enemies ?s) ?s] => set (st1 := s)
  end.
  assert (H1 : enemies st1 = enemies st).
  { subst st1. destruct (_ && _); [apply enemies_killPlayer|reflexivity]. }
  rewrite <- H1 in H.
  pose proof (hitEnemies_grazed t cell es0 (enemies st1) st1 H) as H2.
  destruct (hitEnemies _ _ _ _) as [es st2]. exact H2.
Qed.

Lemma updateExplosions_grazed t dt es0 st :
  Forall2 (grazed t) es0 (enemies st) ->
  Forall2 (grazed t) es0 (enemies (updateExplosions clock t dt st)).
Proof.
  set (R := fun s s' : GameEngine =>
              Forall2 (grazed t) es0 (enemies s) ->
              Forall2 (grazed t) es0 (enemies s')).
  assert (Rrefl : forall s, R s s) by (intros s H; exact H).
  assert (Rtrans : forall s1 s2 s3, R s1 s2 -> R s2 s3 -> R s1 s3)
    by (intros s1 s2 s3 H12 H23 H; auto).
  apply (frame_downFrom R Rrefl Rtrans). intros i s.
  unfold explosionStep. destruct (_ !! _) as [e|]; [|apply Rrefl].
  cbv zeta.
  match goal with
  | |- R ?s0 (if _ then set_explosions _ ?s' else ?s') =>
      assert (H : R s0 s')
  end.
  { eapply Rtrans; [|apply (frame_fold R Rrefl Rtrans);
                      intros s' c Hs; apply cellDamage_grazed, Hs].
    intros H. exact H. }
  destruct (Qleb _ _); exact H.
Qed.

(** What [updateEnemyAI] keeps of an enemy. *)
Lemma updateEnemyAI_keeps dt e st :
  fades e (fst (updateEnemyAI rand dt e st)) /\
  en_hp (fst (updateEnemyAI rand dt e st)) = en_hp e /\
  en_lastHitTime (fst (updateEnemyAI rand dt e st)) = en_lastHitTime e.
Proof.
  unfold updateEnemyAI, random.
  repeat (lazy beta iota;
    first [ match goal with
            | |- context [match ?x with WALKER => _ | CHASER => _ end] =>
                destruct x eqn:?
            end
          | break_if
          | match goal with
            | |- context [let '(_, _) := ?p in _] => destruct p eqn:?
            end ]);
  unfold fades;
  cbn [fst en_id en_type en_isBoss en_maxHp en_speed en_hp en_lastHitTime
       set_en_x set_en_y set_en_path set_en_recalcPathTimer];
  repeat split; lia.
Qed.

Lemma updateEnemies_keeps dt es : forall st,
  Forall2 (fun e e' => fades e e' /\ en_hp e' = en_hp e /\
                       en_lastHitTime e' = en_lastHitTime e)
          es (fst (updateEnemies rand dt es st)).
Proof.
  induction es as [|e es IH]; intros st; cbn [updateEnemies]; [constructor|].
  pose proof (updateEnemyAI_keeps dt e st) as H1.
  destruct (updateEnemyAI _ _ _ _) as [e' st1].
  specialize (IH st1). destruct (updateEnemies _ _ _ _) as [rest st2].
  constructor; assumption.
Qed.

(** X28. The boss's hit cooldown holds within a tick: whatever the number
    of explosions and burning cells it stands on, a boss on the board after
    a tick is a boss from before the tick that is unhurt or has lost
    exactly one hit point, its last hit then being stamped with the tick's
    clock reading. *)
Theorem boss_loses_one_hit_point_per_tick (dt : Q) (st : GameEngine) :
  Forall (fun e' => exists e, In e (enemies st) /\
                              grazed (clock (clockCalls st)) e e')
         (enemies (update rand clock dt st)).
Proof.
  rewrite update_split. cbv zeta.
  set (t := clock (clockCalls st)).
  set (st3 := beforeLevelCheck rand clock dt st).
  assert (H3 : Forall2 (grazed t) (enemies st) (enemies st3)).
  { subst st3. unfold beforeLevelCheck.
    apply updateExplosions_grazed.
    match goal with
    | |- Forall2 _ _ (enemies ?s) => assert (He : enemies s = enemies st)
    end.
    { unfold performanceNow. cbn [fst snd].
      etransitivity.
      { refine (frame_updateBombs rand
                  (fun s s' => enemies s' = enemies s) _ _ _ _ _ _ _ dt _).
        all: try (intros; reflexivity).
        - intros s1 s2 s3 H12 H23. congruence.
        - intros c r s _ _. unfold destroyBlock, random. cbn.
          destruct (Qltb _ _); reflexivity. }
      etransitivity.
      { refine (frame_updatePlacement rand
                  (fun s s' => enemies s' = enemies s) _ _ _ _ _ _ _).
        all: try (intros; reflexivity).
        intros s1 s2 s3 H12 H23. congruence. }
      unfold updatePlayer. destruct (inputVector _) as [dx dy].
      destruct (_ || _);
        [destruct (moveEntity _ _ _ _ _ _ _); destruct (Qltb _ _)|];
        reflexivity. }
    rewrite He. apply Forall2_grazed_refl. }
  set (st4 := checkLevelComplete st3).
  assert (H4 : enemies st4 =
               List.filter (fun e => negb (en_isDead e)) (enemies st3)).
  { subst st4. unfold checkLevelComplete. cbv zeta.
    destruct (_ && _); reflexivity. }
  set (st5 := updateAI rand dt st4).
  assert (H5 : Forall2 (fun e e' => fades e e' /\ en_hp e' = en_hp e /\
                                    en_lastHitTime e' = en_lastHitTime e)
                 (enemies st4) (enemies st5)).
  { subst st5. unfold updateAI. destruct (negb _).
    - pose proof (updateEnemies_keeps dt (enemies st4) st4) as H.
      destruct (updateEnemies _ _ _ _) as [es s1]. exact H.
    - clear. induction (enemies st4); constructor; auto using fades_refl. }
  assert (H6 : enemies
                 (pushStats (updateCountdown clock t dt (updateContact clock t
                    (updatePowerUps st5)))) = enemies st5).
  { refine (frame_afterAI clock (fun s s' => enemies s' = enemies s)
              _ _ _ _ _ _ _ t dt st5).
    all: try (intros; reflexivity).
    - intros s1 s2 s3 H12 H23. congruence.
    - intros p s. unfold applyPowerUp. destruct (pu_type p); reflexivity.
    - intros s. apply enemies_killPlayer. }
  rewrite H6. apply Forall_lookup. intros i e'' He''.
  destruct (Forall2_lookup_r _ _ _ _ _ H5 He'') as (e' & He' & Hf & Hh & Hl).
  apply list_elem_of_lookup_2 in He'. rewrite H4 in He'.
  apply list_elem_of_In, filter_In in He'. destruct He' as [He' _].
  apply list_elem_of_In, list_elem_of_lookup in He'. destruct He' as [j Hj].
  destruct (Forall2_lookup_r _ _ _ _ _ H3 Hj) as (e & He & Hfe & Hg).
  exists e. split.
  { apply list_elem_of_In. eapply list_elem_of_lookup_2. exact He. }
  split; [eapply fades_trans; eassumption|].
  intros Hb. rewrite Hh, Hl. apply Hg, Hb.
Qed.

End Cooldown.

(* ===================================================================== *)
(** ** The blast of one bomb *)








Section Detonation.

Variable rand : nat -> Q.








End Detonation.


(** The same detonation evaluated: a bomb of range 2 on (1,1) of the arena
    with a soft wall on (3,1). Up and left the hard border stops the rays at
    once; down the ray runs its two cells; right it ends on the soft wall,
    which is gone afterwards, for 10 points. *)
Example detonation_on_the_arena :
  let bomb := mkBomb 0 1 1 2000 2 "player" in
  let st := set_grid (setTile arenaGrid 1 3 WALL_SOFT) arena in
  let st' := explodeBomb randHalf bomb st in
  map ex_cells (explosions st') =
    [[mkCell 1 1 false NONE; mkCell 1 2 false DOWN; mkCell 1 3 true DOWN;
      mkCell 2 1 false RIGHT; mkCell 3 1 true RIGHT]] /\
  tileAt (grid st) 1 3 = Some WALL_SOFT /\
  tileAt (grid st') 1 3 = Some EMPTY /\ score st' = score st + 10.
Proof. vm_compute. repeat split; reflexivity. Qed.

(* ===================================================================== *)
(** ** Invulnerability and the clock *)

Section Shield.

Variable rand : nat -> Q.
Variable clock : nat -> Q.

Lemma calm_beforeLevelCheck dt st :
  calm clock st (beforeLevelCheck rand clock dt st).
Proof.
  unfold beforeLevelCheck, performanceNow.
  eapply calm_trans; [|apply calm_updateExplosions].
  eapply calm_trans; [|apply quiet_calm, quiet_updateBombs].
  eapply calm_trans; [|apply quiet_calm, quiet_updatePlacement].
  eapply calm_trans; [|apply quiet_calm, quiet_updatePlayer].
  repeat split; cbn; auto.
Qed.

Lemma calm_beforeContact dt st :
  calm clock st (beforeContact rand clock dt st).
Proof.
  unfold beforeContact.
  eapply calm_trans; [|apply quiet_calm, quiet_updatePowerUps].
  eapply calm_trans; [|apply quiet_calm, quiet_updateAI].
  eapply calm_trans; [|apply calm_checkLevelComplete].
  apply calm_beforeLevelCheck.
Qed.

Lemma update_by_phases dt st :
  update rand clock dt st =
    pushStats (updateCountdown clock (clock (clockCalls st)) dt
      (updateContact clock (clock (clockCalls st))
         (beforeContact rand clock dt st))).
Proof. unfold beforeContact. exact (update_split rand clock dt st). Qed.

Lemma updateContact_shielded t st :
  (t < invulnerableUntil st)%Q -> updateContact clock t st = st.
Proof.
  intros Ht. unfold updateContact.
  assert (Hq : Qltb (pl_invulnerableUntil (player st)) t = false).
  { unfold Qltb. apply negb_false_iff, Qle_bool_iff, Qlt_le_weak, Ht. }
  rewrite Hq. reflexivity.
Qed.

(** C9 (as the code has it). The tick reads the clock once ([now]), and
    every call of [killPlayer] reads it again.
    - Enemy contact is tested against the tick's own [now]: in a tick whose
      time is strictly before [invulnerableUntil], phase 7 does nothing, so
      no enemy within reach costs a life.
    - An explosion cell under the player calls [killPlayer], which compares
      [invulnerableUntil] with its own reading: if every reading made up to
      the end of the explosion phase is strictly before [invulnerableUntil],
      the lives are as before after that phase.
    - If every reading of the tick is strictly before [invulnerableUntil],
      the whole tick leaves the lives unchanged. *)
Theorem invulnerability_goes_by_the_clock_reading (dt : Q) (st : GameEngine) :
  let t := clock (clockCalls st) in
  update rand clock dt st =
    pushStats (updateCountdown clock t dt
      (updateContact clock t (beforeContact rand clock dt st))) /\
  ((t < invulnerableUntil st)%Q ->
   updateContact clock t (beforeContact rand clock dt st) =
   beforeContact rand clock dt st) /\
  ((forall k,
      (clockCalls st <= k <
       clockCalls (beforeLevelCheck rand clock dt st))%nat ->
      (clock k < invulnerableUntil st)%Q) ->
   lives (beforeLevelCheck rand clock dt st) = lives st) /\
  ((forall k,
      (clockCalls st <= k < clockCalls (update rand clock dt st))%nat ->
      (clock k < invulnerableUntil st)%Q) ->
   lives (update rand clock dt st) = lives st).
Proof.
  cbv zeta. split; [apply update_by_phases|]. split; [|split].
  - intros Ht. apply updateContact_shielded.
    destruct (calm_beforeContact dt st) as (_ & Hu & _).
    rewrite Hu. exact Ht.
  - intros H. apply (calm_beforeLevelCheck dt st). exact H.
  - intros H. apply (calm_update rand clock dt st). exact H.
Qed.

End Shield.

Lemma invulnerability_goes_by_the_clock_reading_witness :
  updateContact (clockAt 5000) (clockAt 5000 (clockCalls (underFire 6000)))
    (beforeContact randHalf (clockAt 5000) 16 (underFire 6000)) =
  beforeContact randHalf (clockAt 5000) 16 (underFire 6000) /\
  lives (beforeLevelCheck randHalf (clockAt 5000) 16 (underFire 6000)) =
  lives (underFire 6000).
Proof.
  split.
  - apply (proj1 (proj2 (invulnerability_goes_by_the_clock_reading
             randHalf (clockAt 5000) 16 (underFire 6000)))).
    vm_compute. reflexivity.
  - apply (proj1 (proj2 (proj2 (invulnerability_goes_by_the_clock_reading
             randHalf (clockAt 5000) 16 (underFire 6000))))).
    intros k _. vm_compute. reflexivity.
Defined.

(** C9, counterexample. The tick starts at 5999, one millisecond before the
    invulnerability ends at 6000; the player stands on a burning cell. The
    tick's time is strictly before [invulnerableUntil], yet [killPlayer],
    called for the explosion cell, reads the clock again, finds 6001, and
    takes a life: 5 before, 4 after the explosion phase and after the
    tick. *)
Lemma blast_outlasts_the_tick_time :
  let clock := clockThen 5999 6001 in
  let st := underFire 6000 in
  (clock (clockCalls st) < invulnerableUntil st)%Q /\
  lives st = 5 /\
  lives (beforeLevelCheck randHalf clock 16 st) = 4 /\
  lives (update randHalf clock 16 st) = 4.
Proof. vm_compute. repeat split; reflexivity. Qed.

(* ===================================================================== *)
(** ** Level completion in the tick that ends the run *)

(** C7. The code where the claim asks for no level-complete event once a
    terminal flag is set. The player, on the last life, stands on a bomb
    whose blast also reaches the last enemy. In that one tick [killPlayer]
    sets [isGameOver] and calls [onGameOver(false)]; the level check, which
    tests [isVictory], [isLevelTransitioning] and [isLevelComplete] but not
    [isGameOver], is reached with [isGameOver] set and still calls
    [onLevelComplete]. *)
Lemma level_complete_fires_after_game_over :
  let st := lastLifeLastEnemy in
  let st' := update randHalf (clockAt 5000) 16 st in
  halted st = false /\
  isGameOver (beforeLevelCheck randHalf (clockAt 5000) 16 st) = true /\
  levelDone (beforeLevelCheck randHalf (clockAt 5000) 16 st) = true /\
  events st' =
    [GameOver false; LevelComplete; StatsUpdate (mkGameStats 100 0 1 144)] /\
  isGameOver st' = true /\ isLevelComplete st' = true /\ lives st' = 0.
Proof. vm_compute. repeat split; reflexivity. Qed.
